(** * survey-mapper: job orchestration, status store, fail-fast watcher and
    log classifier

    A shallow embedding of
      - app/api/async_routes.py            (status store, cancellation, run_survey_mapper)
      - app/custom_logging/fail_fast_logger.py  (FailFastLogWatcher)
      - app/custom_logging/custom_logger.py     (collect_logs_grouped_all)
    and the properties of the specification that concern them.

    Conventions.  Python [str] values are [string]s whose characters are the
    code points U+0000..U+00FF.  An exception is the text [str(exc)] of an
    instance of [Exception].  Every call that leaves the process (the file
    system, the external engine, the clock, a failing sqlite statement) takes
    its outcome from an explicit oracle. *)

From Stdlib Require Import ZArith QArith Lqa Ascii String List Bool Lia.
From stdpp Require Import base option list gmap strings.

Import ListNotations.
Local Open Scope string_scope.
Local Open Scope Z_scope.

(* ===================================================================== *)
(** * Python strings *)
(* ===================================================================== *)

Module Py.

Definition code (c : ascii) : N := N_of_ascii c.

Definition between (lo hi : N) (c : ascii) : bool :=
  ((lo <=? code c) && (code c <=? hi))%N.

(** [str.isspace] on one character, also the class [\s] of [re]. *)
Definition isspace (c : ascii) : bool :=
  between 9 13 c || between 28 32 c || (code c =? 133)%N || (code c =? 160)%N.

(** The class [\d]. *)
Definition isdigit (c : ascii) : bool := between 48 57 c.

Definition isupper_ascii (c : ascii) : bool := between 65 90 c.
Definition islower_ascii (c : ascii) : bool := between 97 122 c.

(** The class [\w]: [str.isalnum] or the underscore. *)
Definition isword (c : ascii) : bool :=
  isdigit c || isupper_ascii c || islower_ascii c || (code c =? 95)%N
  || (code c =? 170)%N || (code c =? 178)%N || (code c =? 179)%N
  || (code c =? 181)%N || (code c =? 185)%N || (code c =? 186)%N
  || between 188 190 c || between 192 214 c || between 216 246 c
  || between 248 255 c.

(** [str.lower] on one character. *)
Definition lower_char (c : ascii) : ascii :=
  if isupper_ascii c || between 192 214 c || between 216 222 c
  then ascii_of_N (code c + 32) else c.

Definition chars (s : string) : list ascii := list_ascii_of_string s.
Definition str (l : list ascii) : string := string_of_list_ascii l.

Definition lower (s : string) : string := str (map lower_char (chars s)).

Definition ascii_eqb (a b : ascii) : bool := (code a =? code b)%N.

Fixpoint starts_with (p l : list ascii) : bool :=
  match p, l with
  | [], _ => true
  | a :: p', b :: l' => ascii_eqb a b && starts_with p' l'
  | _ :: _, [] => false
  end.

Fixpoint contains_chars (p l : list ascii) : bool :=
  starts_with p l ||
  match l with
  | [] => false
  | _ :: l' => contains_chars p l'
  end.

(** [sub in s] *)
Definition contains (sub s : string) : bool :=
  contains_chars (chars sub) (chars s).

Definition is_crlf (c : ascii) : bool :=
  (code c =? 10)%N || (code c =? 13)%N.

Fixpoint drop_while (p : ascii -> bool) (l : list ascii) : list ascii :=
  match l with
  | [] => []
  | c :: l' => if p c then drop_while p l' else l
  end.

Definition rstrip_chars (p : ascii -> bool) (l : list ascii) : list ascii :=
  rev (drop_while p (rev l)).

(** [s.rstrip("\r\n")] *)
Definition rstrip_crlf (s : string) : string :=
  str (rstrip_chars is_crlf (chars s)).

(** [s.strip()] *)
Definition strip (s : string) : string :=
  str (rstrip_chars isspace (drop_while isspace (chars s))).

(** Truth value of a [str]. *)
Definition truthy (s : string) : bool :=
  match s with EmptyString => false | String _ _ => true end.

(** Truth value of a [str | None]. *)
Definition truthy_opt (o : option string) : bool :=
  match o with Some s => truthy s | None => false end.

(** [a or b] for [a : str | None] and [b : str]. *)
Definition or_else (a : option string) (b : string) : option string :=
  if truthy_opt a then a else Some b.

Definition nl : string := String (ascii_of_N 10) EmptyString.

(** [sep.join(l)] *)
Fixpoint join (sep : string) (l : list string) : string :=
  match l with
  | [] => ""
  | [x] => x
  | x :: l' => x ++ sep ++ join sep l'
  end.

End Py.

(* ===================================================================== *)
(** * The fragment of [re] the sources use

  A backtracking matcher in continuation-passing style, with the order of
  alternatives of Python's engine: the first alternative first, a greedy
  repetition tries one more iteration first, a lazy one tries to stop
  first.  A position is the text already consumed (reversed) and the text
  still to read; a group records the text it consumed. *)
(* ===================================================================== *)

Module Re.

Inductive re : Type :=
| Eps
| Chr (p : ascii -> bool)
| Seq (r1 r2 : re)
| Alt (r1 r2 : re)
| Star (greedy : bool) (r : re)
| Group (name : string) (r : re)
| Bol
| Eol
| WordB.

Record pos := mkPos { seen : list ascii; rest : list ascii }.

Definition captures := list (string * string).

Definition advance (p : pos) : option (ascii * pos) :=
  match rest p with
  | [] => None
  | c :: l => Some (c, mkPos (c :: seen p) l)
  end.

(** The text between two positions of the same subject. *)
Definition consumed (p p' : pos) : string :=
  Py.str (rev (take (length (seen p') - length (seen p))%nat (seen p'))).

Definition at_eol (p : pos) : bool :=
  match rest p with
  | [] => true
  | [c] => (Py.code c =? 10)%N
  | _ => false
  end.

Definition word_before (p : pos) : bool :=
  match seen p with c :: _ => Py.isword c | [] => false end.
Definition word_after (p : pos) : bool :=
  match rest p with c :: _ => Py.isword c | [] => false end.

Definition orelse {A} (x y : option A) : option A :=
  match x with Some _ => x | None => y end.

Section Match.
Context {R : Type}.

Fixpoint run (r : re) (k : pos -> captures -> option R)
           (p : pos) (c : captures) {struct r} : option R :=
    match r with
    | Eps => k p c
    | Chr f =>
        match advance p with
        | Some (a, p') => if f a then k p' c else None
        | None => None
        end
    | Seq r1 r2 => run r1 (run r2 k) p c
    | Alt r1 r2 => orelse (run r1 k p c) (run r2 k p c)
    | Star greedy r1 =>
        (fix loop (n : nat) (p : pos) (c : captures) {struct n} : option R :=
           match n with
           | O => k p c
           | S n' =>
               let again :=
                 run r1 (fun p' c' =>
                           if (length (rest p') <? length (rest p))%nat
                           then loop n' p' c' else None) p c in
               if greedy then orelse again (k p c) else orelse (k p c) again
           end) (length (rest p)) p c
    | Group name r1 =>
        run r1 (fun p' c' => k p' ((name, consumed p p') :: c')) p c
    | Bol => match seen p with [] => k p c | _ :: _ => None end
    | Eol => if at_eol p then k p c else None
    | WordB => if xorb (word_before p) (word_after p) then k p c else None
    end.
End Match.

(** [pattern.match(s)]: the groups of the match at position 0, if any. *)
Definition match_ (r : re) (s : string) : option captures :=
  run r (fun _ c => Some c) (mkPos [] (Py.chars s)) [].

Fixpoint search_from (r : re) (n : nat) (p : pos) : option captures :=
  orelse (run r (fun _ c => Some c) p [])
         match n with
         | O => None
         | S n' =>
             match advance p with
             | Some (_, p') => search_from r n' p'
             | None => None
             end
         end.

(** [pattern.search(s)] *)
Definition search (r : re) (s : string) : option captures :=
  search_from r (String.length s) (mkPos [] (Py.chars s)).

(** [m.group(name)]; a group that took no part in the match is absent. *)
Fixpoint group (name : string) (c : captures) : option string :=
  match c with
  | [] => None
  | (n, v) :: c' => if String.eqb n name then Some v else group name c'
  end.

(** ** Pattern syntax *)

Definition Plus (greedy : bool) (r : re) : re := Seq r (Star greedy r).
Definition Opt (r : re) : re := Alt r Eps.

Fixpoint Times (n : nat) (r : re) : re :=
  match n with O => Eps | S n' => Seq r (Times n' r) end.

(** [r{n,m}], greedy, for n <= m given as n and m - n *)
Fixpoint UpTo (extra : nat) (r : re) : re :=
  match extra with O => Eps | S e => Opt (Seq r (UpTo e r)) end.
Definition Rep (n extra : nat) (r : re) : re := Seq (Times n r) (UpTo extra r).

Definition any : re := Chr (fun c => negb (Py.code c =? 10)%N).   (* . *)
Definition space : re := Chr Py.isspace.                          (* \s *)
Definition digit : re := Chr Py.isdigit.                          (* \d *)
Definition lit (a : ascii) : re := Chr (Py.ascii_eqb a).
Definition lit_i (a : ascii) : re :=
  Chr (fun c => Py.ascii_eqb (Py.lower_char a) (Py.lower_char c)).
Definition none_of (a : ascii) : re := Chr (fun c => negb (Py.ascii_eqb a c)).
Definition one_of (l : list ascii) : re :=
  Chr (fun c => existsb (Py.ascii_eqb c) l).

Fixpoint word_of (f : ascii -> re) (l : list ascii) : re :=
  match l with [] => Eps | a :: l' => Seq (f a) (word_of f l') end.
Definition text (s : string) : re := word_of lit (Py.chars s).
Definition text_i (s : string) : re := word_of lit_i (Py.chars s).

Fixpoint seqs (l : list re) : re :=
  match l with [] => Eps | [r] => r | r :: l' => Seq r (seqs l') end.

Fixpoint alts (r : re) (l : list re) : re :=
  match l with [] => r | r' :: l' => Alt r (alts r' l') end.

End Re.

(* ===================================================================== *)
(** * fail_fast_logger.py *)
(* ===================================================================== *)

Module Watcher.
Import Re.

(** [logging] levels *)
Definition DEBUG : Z := 10.
Definition INFO : Z := 20.
Definition WARNING : Z := 30.
Definition ERROR : Z := 40.
Definition CRITICAL : Z := 50.

(** RE_ARCGIS_ERR, compiled with IGNORECASE and VERBOSE:
<<
  ^\s*
  (?:  (?P<ts>\d{4}-\d{2}-\d{2}[ T]\d{2}:\d{2}:\d{2}(?:[.,]\d{3,6})?)\s* )?
  ERROR\s+(?P<code>\d{3,6})\s*:\s*(?P<msg>.+?)\s*$
>> *)
Definition RE_ARCGIS_ERR : re :=
  seqs
    [ Bol; Star true space;
      Opt (seqs
             [ Group "ts"
                 (seqs [ Times 4 digit; lit "-"; Times 2 digit; lit "-";
                         Times 2 digit; one_of [" "; "T"; "t"]%char;
                         Times 2 digit; lit ":"; Times 2 digit; lit ":";
                         Times 2 digit;
                         Opt (seqs [one_of ["."; ","]%char; Rep 3 3 digit]) ]);
               Star true space ]);
      text_i "ERROR"; Plus true space; Group "code" (Rep 3 3 digit);
      Star true space; lit ":"; Star true space;
      Group "msg" (Plus false any); Star true space; Eol ].

(** ERROR_WORD = re.compile(r"\berror\b", re.IGNORECASE) *)
Definition ERROR_WORD : re := seqs [WordB; text_i "error"; WordB].

Definition found (r : re) (s : string) : bool :=
  match search r s with Some _ => true | None => false end.

(** A [logging.LogRecord], as far as [emit] reads it. *)
Record LogRecord := mkRecord {
  levelno : Z;
  getMessage : string
}.

(** The attributes of a [FailFastLogWatcher]. *)
Record FailFastLogWatcher := mkWatcher {
  log_file : option string;
  poll_file : bool;
  _error_msg : option string
}.

Definition set_error_msg (m : option string) (h : FailFastLogWatcher)
  : FailFastLogWatcher :=
  {| log_file := log_file h; poll_file := poll_file h; _error_msg := m |}.

(** [__init__(self, log_file, poll_file=True)] *)
Definition init (log_file : option string) (poll_file : bool)
  : FailFastLogWatcher :=
  {| log_file := log_file;
     poll_file := poll_file && bool_decide (is_Some log_file);
     _error_msg := None |}.

(** The property [error_message]. *)
Definition error_message (h : FailFastLogWatcher) : option string :=
  _error_msg h.

(** The condition under which [emit] records the message. *)
Definition detects (record : LogRecord) : bool :=
  (ERROR <=? levelno record)
  || found RE_ARCGIS_ERR (getMessage record)
  || found ERROR_WORD (getMessage record).

Definition emit (record : LogRecord) (h : FailFastLogWatcher)
  : FailFastLogWatcher :=
  let msg := getMessage record in
  if detects record
  then set_error_msg (Py.or_else (_error_msg h) msg) h
  else h.

(** [logging.Handler.handle] reaches [emit] for the records at or above the
    handler's level, which [__init__] sets to INFO. *)
Definition handle (record : LogRecord) (h : FailFastLogWatcher)
  : FailFastLogWatcher :=
  if INFO <=? levelno record then emit record h else h.

Definition file_detects (txt : string) : bool :=
  found RE_ARCGIS_ERR txt || found ERROR_WORD txt.

(** [scan_file_once]; [read] is what [read_text] gives at this call:
    [inl txt] the text of the file, [inr e] an exception. *)
Definition scan_file_once (read : string + string) (h : FailFastLogWatcher)
  : FailFastLogWatcher :=
  if negb (poll_file h) || negb (bool_decide (is_Some (log_file h))) then h
  else
    match read with
    | inl txt =>
        if file_detects txt
        then set_error_msg
               (Py.or_else (_error_msg h) "Error detected in log file") h
        else h
    | inr _ => h
    end.

(** What a watcher goes through: logger events and rescans. *)
Inductive Event :=
| Emit (record : LogRecord)
| Scan (read : string + string).

Definition step (h : FailFastLogWatcher) (e : Event) : FailFastLogWatcher :=
  match e with
  | Emit record => emit record h
  | Scan read => scan_file_once read h
  end.

Definition steps (h : FailFastLogWatcher) (l : list Event)
  : FailFastLogWatcher :=
  fold_left step l h.

(** The watcher holds a message that the orchestrator's test
    [if watcher.error_message:] accepts. *)
Definition latched (h : FailFastLogWatcher) : bool :=
  Py.truthy_opt (error_message h).

(** The event is one that the watcher [h] detects. *)
Definition triggers (h : FailFastLogWatcher) (e : Event) : bool :=
  match e with
  | Emit record => detects record
  | Scan (inl txt) =>
      poll_file h && bool_decide (is_Some (log_file h)) && file_detects txt
  | Scan (inr _) => false
  end.

End Watcher.

(* ===================================================================== *)
(** * custom_logger.py and response_models.py *)
(* ===================================================================== *)

Module Classifier.
Import Re.

(** The field [ts] of a [LogEntry]: the text of the group [ts] of a
    structured line (which the source turns into a [datetime] when
    [fromisoformat] accepts it and keeps as it is otherwise), the
    modification time of the file, or the clock at a read failure. *)
Inductive Ts :=
| TsLine (text : string)
| TsMtime (mtime : Z)
| TsNow (now : string).

Record LogEntry := mkEntry {
  ts : Ts;
  level : string;
  logger : string;
  msg : string;
  file : option string
}.

Definition set_msg (m : string) (e : LogEntry) : LogEntry :=
  {| ts := ts e; level := level e; logger := logger e; msg := m;
     file := file e |}.

Record LogsByLevel := mkLogs {
  info : list LogEntry;
  warning : list LogEntry;
  error : list LogEntry;
  note : option string
}.

Inductive LogLevelFilter := all | info_ | warning_ | error_.

Definition level_names : re :=
  alts (text "DEBUG")
       [text "INFO"; text "WARNING"; text "ERROR"; text "CRITICAL"].

(** RE_PIPE, the pattern (its last group is written here with a space
    before the closing parenthesis):
<<
  ^(?P<ts>.+?)\s*\|\s*(?P<level>DEBUG|INFO|WARNING|ERROR|CRITICAL)\s*\|\s*(?P<logger>[^|]+)\s*\|\s*(?P<msg>.* )$
>> *)
Definition RE_PIPE : re :=
  seqs
    [ Bol; Group "ts" (Plus false any);
      Star true space; lit "|"; Star true space;
      Group "level" level_names;
      Star true space; lit "|"; Star true space;
      Group "logger" (Plus true (none_of "|"));
      Star true space; lit "|"; Star true space;
      Group "msg" (Star true any); Eol ].

(** RE_DASH, written the same way:
<<
  ^(?P<ts>.+?)\s*-\s*(?P<level>DEBUG|INFO|WARNING|ERROR|CRITICAL)\s*-\s*(?P<msg>.* )$
>> *)
Definition RE_DASH : re :=
  seqs
    [ Bol; Group "ts" (Plus false any);
      Star true space; lit "-"; Star true space;
      Group "level" level_names;
      Star true space; lit "-"; Star true space;
      Group "msg" (Star true any); Eol ].

Definition group_or_empty (name : string) (c : captures) : string :=
  match group name c with
  | Some v => if Py.truthy v then v else ""
  | None => ""
  end.

(** [_parse_structured] *)
Definition _parse_structured (line : string) : option LogEntry :=
  match orelse (match_ RE_PIPE line) (match_ RE_DASH line) with
  | None => None
  | Some matched =>
      Some {| ts := TsLine (default "" (group "ts" matched));
              level := default "" (group "level" matched);
              logger := group_or_empty "logger" matched;
              msg := default "" (group "msg" matched);
              file := None |}
  end.

(** The three lists of the [LogsByLevel] under construction hold references
    to [LogEntry] objects, and [last_entry] is another reference to one of
    them: [objects] is the store of the entries created so far, an entry is
    named by its index there. *)
Record Collector := mkCollector {
  objects : list LogEntry;
  info_refs : list nat;
  warning_refs : list nat;
  error_refs : list nat;
  last_entry : option nat
}.

Definition empty_collector : Collector :=
  {| objects := []; info_refs := []; warning_refs := []; error_refs := [];
     last_entry := None |}.

Inductive Bucket := BInfo | BWarning | BError.

(** [output_logslevel_list[bucket].append(entry)], [entry] a new object;
    [keep] says whether [last_entry = entry] follows. *)
Definition append_entry (b : Bucket) (entry : LogEntry) (keep : bool)
           (c : Collector) : Collector :=
  let r := length (objects c) in
  {| objects := objects c ++ [entry];
     info_refs := match b with BInfo => info_refs c ++ [r] | _ => info_refs c end;
     warning_refs :=
       match b with BWarning => warning_refs c ++ [r] | _ => warning_refs c end;
     error_refs :=
       match b with BError => error_refs c ++ [r] | _ => error_refs c end;
     last_entry := if keep then Some r else last_entry c |}.

(** [last_entry["msg"] = f"{last_entry['msg']}\n{line}"] *)
Definition extend_msg (r : nat) (line : string) (c : Collector) : Collector :=
  match objects c !! r with
  | Some e =>
      {| objects := <[r := set_msg (msg e ++ Py.nl ++ line) e]> (objects c);
         info_refs := info_refs c; warning_refs := warning_refs c;
         error_refs := error_refs c; last_entry := last_entry c |}
  | None => c
  end.

Definition set_last_entry (l : option nat) (c : Collector) : Collector :=
  {| objects := objects c; info_refs := info_refs c;
     warning_refs := warning_refs c; error_refs := error_refs c;
     last_entry := l |}.

Definition bucket_of_level (lv : string) : Bucket :=
  if String.eqb lv "ERROR" || String.eqb lv "CRITICAL" then BError
  else if String.eqb lv "WARNING" then BWarning
  else BInfo.

(** A log file as the classifier meets it. *)
Record LogFile := mkFile {
  name : string;                 (* path.name *)
  st_mtime : Z;                  (* path.stat().st_mtime *)
  lines : list string;           (* the lines [for raw in f] yields *)
  read_error : option string     (* the exception that ends the reading *)
}.

(** The body of [for raw in f]. *)
Definition process_line (path : LogFile) (c : Collector) (raw : string)
  : Collector :=
  match _parse_structured raw with
  | Some parsed =>
      append_entry (bucket_of_level (level parsed))
        {| ts := ts parsed; level := level parsed; logger := logger parsed;
           msg := msg parsed; file := Some (name path) |} true c
  | None =>
      let line := Py.rstrip_crlf raw in
      if negb (Py.truthy (Py.strip line)) then c
      else
        let lower := Py.lower line in
        if Py.contains "error" lower then
          append_entry BError
            {| ts := TsMtime (st_mtime path); level := "ERROR";
               logger := "raw"; msg := line; file := Some (name path) |} true c
        else if Py.contains "warning" lower then
          append_entry BWarning
            {| ts := TsMtime (st_mtime path); level := "WARNING";
               logger := "raw"; msg := line; file := Some (name path) |} true c
        else
          match last_entry c with
          | Some r => extend_msg r line c
          | None =>
              append_entry BInfo
                {| ts := TsMtime (st_mtime path); level := "INFO";
                   logger := "raw"; msg := line; file := Some (name path) |}
                true c
          end
  end.

(** The body of [for path in candidates[:max_files]]. *)
Definition process_file (now : string) (c : Collector) (path : LogFile)
  : Collector :=
  let c1 := fold_left (process_line path) (lines path)
                      (set_last_entry None c) in
  match read_error path with
  | None => c1
  | Some e =>
      append_entry BError
        {| ts := TsNow now; level := "ERROR"; logger := "log.reader";
           msg := "Failed reading " ++ name path ++ ": " ++ e;
           file := Some (name path) |} false c1
  end.

(** [candidates.sort(key=lambda p: p.stat().st_mtime)]: a stable sort. *)
Fixpoint insert_by_mtime (x : LogFile) (l : list LogFile) : list LogFile :=
  match l with
  | [] => [x]
  | y :: l' =>
      if st_mtime x <? st_mtime y then x :: l else y :: insert_by_mtime x l'
  end.

Definition sort_by_mtime (l : list LogFile) : list LogFile :=
  fold_left (fun acc x => insert_by_mtime x acc) l [].

(** [l[:n]] *)
Definition slice_to {A} (n : Z) (l : list A) : list A :=
  if 0 <=? n then take (Z.to_nat n) l
  else take (length l - Z.to_nat (- n)) l.

Definition deref (c : Collector) (refs : list nat) : list LogEntry :=
  omap (fun r => objects c !! r) refs.

Definition view (c : Collector) (n : option string) : LogsByLevel :=
  {| info := deref c (info_refs c); warning := deref c (warning_refs c);
     error := deref c (error_refs c); note := n |}.

(** What [logs_dir.glob] finds. *)
Record LogsDir := mkDir {
  glob_txt : list LogFile;       (* logs_dir.glob("*.txt") *)
  glob_log : list LogFile        (* logs_dir.glob("*.log") *)
}.

(** [collect_logs_grouped_all(output_dir, max_files)]; [logs_dir] is [None]
    when [<output_dir>/logs] is not a directory, and [now] is the clock read
    by the handler of a read failure. *)
Definition collect_logs_grouped_all (logs_dir : option LogsDir)
           (max_files : Z) (now : string) : LogsByLevel :=
  let output_logslevel_list := view empty_collector None in
  match logs_dir with
  | None => output_logslevel_list
  | Some d =>
      let candidates := (glob_txt d ++ glob_log d)%list in
      match candidates with
      | [] => {| info := []; warning := []; error := [];
                 note := Some "No log files found" |}
      | _ :: _ =>
          let candidates := sort_by_mtime candidates in
          view (fold_left (process_file now) (slice_to max_files candidates)
                          empty_collector) None
      end
  end.

Definition default_max_files : Z := 50.

(** [filter_logs_by_level] *)
Definition filter_logs_by_level (all_logs : LogsByLevel)
           (lv : LogLevelFilter) : LogsByLevel :=
  match lv with
  | all => all_logs
  | info_ => {| info := info all_logs; warning := []; error := [];
                note := note all_logs |}
  | warning_ => {| info := []; warning := warning all_logs; error := [];
                   note := note all_logs |}
  | error_ => {| info := []; warning := []; error := error all_logs;
                 note := note all_logs |}
  end.

(** Every reference of the three lists and [last_entry] names an object. *)
Definition wf (c : Collector) : Prop :=
  Forall (fun r => (r < length (objects c))%nat)
         (info_refs c ++ warning_refs c ++ error_refs c)%list
  /\ match last_entry c with
     | Some r => (r < length (objects c))%nat
     | None => True
     end.

(** The entry that a raw line with "error" in it becomes. *)
Definition raw_error_entry (path : LogFile) (raw : string) : LogEntry :=
  {| ts := TsMtime (st_mtime path); level := "ERROR"; logger := "raw";
     msg := Py.rstrip_crlf raw; file := Some (name path) |}.

(** The two lines of the round trip of the specification; the second one
    with or without a line terminator, as the last line of a file may be. *)
Definition hello_line : string :=
  "2025-01-01 00:00:00,000 | INFO | x | hello" ++ Py.nl.

Definition continued_line (terminated : bool) : string :=
  "continued" ++ (if terminated then Py.nl else "").

Definition hello_entry (path : LogFile) (m : string) : LogEntry :=
  {| ts := TsLine "2025-01-01 00:00:00,000"; level := "INFO"; logger := "x ";
     msg := m; file := Some (name path) |}.

(** ** Further notions about the classifier *)

Definition level_eqb (a b : LogLevelFilter) : bool :=
  match a, b with
  | all, all | info_, info_ | warning_, warning_ | error_, error_ => true
  | _, _ => false
  end.

(** The files of a list that have modification time [m], in their order. *)
Definition with_mtime (m : Z) (l : list LogFile) : list LogFile :=
  List.filter (fun f => st_mtime f =? m) l.

(** Modification times never decrease along the list. *)
Fixpoint sorted_by_mtime (l : list LogFile) : bool :=
  match l with
  | a :: ((b :: _) as l') => (st_mtime a <=? st_mtime b) && sorted_by_mtime l'
  | _ => true
  end.

(** The entry that a raw line with "warning" and without "error" becomes. *)
Definition raw_warning_entry (path : LogFile) (raw : string) : LogEntry :=
  {| ts := TsMtime (st_mtime path); level := "WARNING"; logger := "raw";
     msg := Py.rstrip_crlf raw; file := Some (name path) |}.

(** The entry that a raw line becomes when nothing precedes it in its file
    and it has neither "error" nor "warning" in it. *)
Definition raw_info_entry (path : LogFile) (raw : string) : LogEntry :=
  {| ts := TsMtime (st_mtime path); level := "INFO"; logger := "raw";
     msg := Py.rstrip_crlf raw; file := Some (name path) |}.

(** The entry that stands for a file whose reading failed with [exc]. *)
Definition read_failure_entry (now : string) (path : LogFile) (exc : string)
  : LogEntry :=
  {| ts := TsNow now; level := "ERROR"; logger := "log.reader";
     msg := "Failed reading " ++ name path ++ ": " ++ exc;
     file := Some (name path) |}.

(** A raw line that the classifier takes for the continuation of the entry
    before it, when there is one. *)
Definition plain_line (raw : string) : Prop :=
  _parse_structured raw = None
  /\ Py.truthy (Py.strip (Py.rstrip_crlf raw)) = true
  /\ Py.contains "error" (Py.lower (Py.rstrip_crlf raw)) = false
  /\ Py.contains "warning" (Py.lower (Py.rstrip_crlf raw)) = false.

(** The entries of a list of references all satisfy [P]. *)
Definition all_entries (P : LogEntry -> Prop) (c : Collector)
           (refs : list nat) : Prop :=
  Forall (fun r => exists e, objects c !! r = Some e /\ P e) refs.

(** Every entry of the three lists satisfies [P]. *)
Definition every_entry (P : LogEntry -> Prop) (v : LogsByLevel) : Prop :=
  Forall P (info v) /\ Forall P (warning v) /\ Forall P (error v).

(** The entry lies in the list that its level selects. *)
Definition in_its_bucket (v : LogsByLevel) : Prop :=
  Forall (fun e => bucket_of_level (level e) = BInfo) (info v)
  /\ Forall (fun e => bucket_of_level (level e) = BWarning) (warning v)
  /\ Forall (fun e => bucket_of_level (level e) = BError) (error v).

(** The list of references of a bucket. *)
Definition refs_of (b : Bucket) (c : Collector) : list nat :=
  match b with
  | BInfo => info_refs c
  | BWarning => warning_refs c
  | BError => error_refs c
  end.

(** The entry has the level of bucket [b] and comes from one of [files]. *)
Definition placed (files : list LogFile) (b : Bucket) (e : LogEntry) : Prop :=
  bucket_of_level (level e) = b
  /\ exists f, In f files /\ file e = Some (name f).

End Classifier.

(* ===================================================================== *)
(** * async_routes.py: the status store and the cancellation registry *)
(* ===================================================================== *)

Module Jobs.

(** A row of the table [jobs]; the key [job_id] is the key of the map. *)
Record Job := mkJob {
  status : string;
  created_at : string;
  updated_at : string;
  error : option string;
  output_dir : option string;
  result_zip_path : option string
}.

(** An access of another thread to the shared state, between two accesses
    of the thread under study: the UPDATE of [cancel_job] and
    [cancel_all_jobs], [Event.set], and the passing of time. *)
Inductive Interference :=
| ICancelUpdate (job_id : string)
| ISetEvent (ev : nat)
| IClock (now : string).

(** A failing access to the store: the text of the exception, and, for an
    attempt of the UPDATE of [update_status_safe], whether the call of
    [app_logger.warning] that reports it raises too. *)
Record Fault := mkFault {
  fault_text : string;
  fault_log_raises : bool
}.

(** A record of [app_logger]:
    "update_status_safe attempt %d failed for %s -> %s: %s". *)
Record AppWarning := mkAppWarning {
  aw_attempt : Z;
  aw_job_id : string;
  aw_status : string;
  aw_exc : string
}.

(** The calls into the external engine and the file system that a run makes,
    in order. *)
Inductive Call :=
| C_process_grid_sheet
| C_export_feature_collections (input_folder : option string)
| C_zip_directory.

Record World := mkWorld {
  jobs : gmap string Job;              (* the table jobs of job_status.db *)
  RUNNING_JOBS : gmap string nat;      (* job_id -> Event object *)
  events : gmap nat bool;              (* the flag of each Event object *)
  clock : string;                      (* datetime.now().isoformat() *)
  db_faults : list (option Fault);     (* outcome of the coming accesses to the store *)
  pending : list (list Interference);  (* what other threads do, access by access *)
  app_log : list AppWarning;           (* records of app_logger *)
  slept : list Q;                      (* arguments of time.sleep, in order *)
  history : list (string * string);    (* ghost: every status written, with its job *)
  watcher : Watcher.FailFastLogWatcher;  (* the watcher of the run *)
  job_log : list Watcher.LogRecord;    (* what job_logger handled *)
  invoked : list Call                  (* ghost: external calls of the run *)
}.

Definition set_jobs (v : gmap string Job) (w : World) : World :=
  mkWorld v (RUNNING_JOBS w) (events w) (clock w) (db_faults w) (pending w)
          (app_log w) (slept w) (history w) (watcher w) (job_log w) (invoked w).
Definition set_RUNNING_JOBS (v : gmap string nat) (w : World) : World :=
  mkWorld (jobs w) v (events w) (clock w) (db_faults w) (pending w)
          (app_log w) (slept w) (history w) (watcher w) (job_log w) (invoked w).
Definition set_events (v : gmap nat bool) (w : World) : World :=
  mkWorld (jobs w) (RUNNING_JOBS w) v (clock w) (db_faults w) (pending w)
          (app_log w) (slept w) (history w) (watcher w) (job_log w) (invoked w).
Definition set_clock (v : string) (w : World) : World :=
  mkWorld (jobs w) (RUNNING_JOBS w) (events w) v (db_faults w) (pending w)
          (app_log w) (slept w) (history w) (watcher w) (job_log w) (invoked w).
Definition set_db_faults (v : list (option Fault)) (w : World) : World :=
  mkWorld (jobs w) (RUNNING_JOBS w) (events w) (clock w) v (pending w)
          (app_log w) (slept w) (history w) (watcher w) (job_log w) (invoked w).
Definition set_pending (v : list (list Interference)) (w : World) : World :=
  mkWorld (jobs w) (RUNNING_JOBS w) (events w) (clock w) (db_faults w) v
          (app_log w) (slept w) (history w) (watcher w) (job_log w) (invoked w).
Definition set_app_log (v : list AppWarning) (w : World) : World :=
  mkWorld (jobs w) (RUNNING_JOBS w) (events w) (clock w) (db_faults w)
          (pending w) v (slept w) (history w) (watcher w) (job_log w) (invoked w).
Definition set_slept (v : list Q) (w : World) : World :=
  mkWorld (jobs w) (RUNNING_JOBS w) (events w) (clock w) (db_faults w)
          (pending w) (app_log w) v (history w) (watcher w) (job_log w) (invoked w).
Definition set_history (v : list (string * string)) (w : World) : World :=
  mkWorld (jobs w) (RUNNING_JOBS w) (events w) (clock w) (db_faults w)
          (pending w) (app_log w) (slept w) v (watcher w) (job_log w) (invoked w).
Definition set_watcher (v : Watcher.FailFastLogWatcher) (w : World) : World :=
  mkWorld (jobs w) (RUNNING_JOBS w) (events w) (clock w) (db_faults w)
          (pending w) (app_log w) (slept w) (history w) v (job_log w) (invoked w).
Definition set_job_log (v : list Watcher.LogRecord) (w : World) : World :=
  mkWorld (jobs w) (RUNNING_JOBS w) (events w) (clock w) (db_faults w)
          (pending w) (app_log w) (slept w) (history w) (watcher w) v (invoked w).
Definition set_invoked (v : list Call) (w : World) : World :=
  mkWorld (jobs w) (RUNNING_JOBS w) (events w) (clock w) (db_faults w)
          (pending w) (app_log w) (slept w) (history w) (watcher w) (job_log w) v.

Definition one_of (s : string) (l : list string) : bool :=
  existsb (String.eqb s) l.

(** ** SQL statements *)

(** UPDATE jobs SET status = ?, updated_at = ?, error = ? WHERE job_id = ? *)
Definition sql_update_status (job_id status_ now_ : string)
           (error_ : option string) (w : World) : World :=
  match jobs w !! job_id with
  | Some row =>
      set_history (history w ++ [(job_id, status_)])
        (set_jobs
           (<[job_id := {| status := status_; created_at := created_at row;
                           updated_at := now_; error := error_;
                           output_dir := output_dir row;
                           result_zip_path := result_zip_path row |}]> (jobs w))
           w)
  | None => w
  end.

(** UPDATE jobs SET status = 'cancelling', updated_at = ?
    WHERE job_id = ? AND status IN ('queued','processing') *)
Definition sql_cancel_update (job_id now_ : string) (w : World) : World :=
  match jobs w !! job_id with
  | Some row =>
      if one_of (status row) ["queued"; "processing"] then
        set_history (history w ++ [(job_id, "cancelling")])
          (set_jobs
             (<[job_id := {| status := "cancelling";
                             created_at := created_at row;
                             updated_at := now_; error := error row;
                             output_dir := output_dir row;
                             result_zip_path := result_zip_path row |}]> (jobs w))
             w)
      else w
  | None => w
  end.

(** UPDATE jobs SET result_zip_path = ?, updated_at = ? WHERE job_id = ? *)
Definition sql_update_zip (job_id zip now_ : string) (w : World) : World :=
  match jobs w !! job_id with
  | Some row =>
      set_jobs
        (<[job_id := {| status := status row; created_at := created_at row;
                        updated_at := now_; error := error row;
                        output_dir := output_dir row;
                        result_zip_path := Some zip |}]> (jobs w))
        w
  | None => w
  end.

(** INSERT INTO jobs (job_id, status, created_at, updated_at, error,
    output_dir) VALUES (?, ?, ?, ?, ?, ?) *)
Definition sql_insert (job_id status_ now_ : string) (dir : string)
           (w : World) : World :=
  set_history (history w ++ [(job_id, status_)])
    (set_jobs
       (<[job_id := {| status := status_; created_at := now_;
                       updated_at := now_; error := None;
                       output_dir := Some dir;
                       result_zip_path := None |}]> (jobs w))
       w).

(** [evnt.set()] *)
Definition event_set (ev : nat) (w : World) : World :=
  set_events (<[ev := true]> (events w)) w.

(** [cancel_event.is_set()] *)
Definition event_is_set (ev : nat) (w : World) : bool :=
  default false (events w !! ev).

(** ** Other threads *)

Definition apply_interference (w : World) (i : Interference) : World :=
  match i with
  | ICancelUpdate job_id => sql_cancel_update job_id (clock w) w
  | ISetEvent ev => event_set ev w
  | IClock now => set_clock now w
  end.

(** What the other threads do before the next access of this thread. *)
Definition interfere (w : World) : World :=
  match pending w with
  | [] => w
  | batch :: later => fold_left apply_interference batch (set_pending later w)
  end.

(** ** update_status_safe *)

Definition default_retries : Z := 6.
Definition default_backoff : Q := 1 # 4.

(** One attempt of the [try] block: the next outcome of [db_faults]. *)
Definition next_fault (w : World) : option Fault * World :=
  match db_faults w with
  | [] => (None, w)
  | f :: later => (f, set_db_faults later w)
  end.

(** The handler [except Exception as e] up to the test of [attempt]. *)
Definition log_attempt (attempt : Z) (job_id status_ : string) (f : Fault)
           (w : World) : World :=
  if fault_log_raises f then w
  else set_app_log
         (app_log w ++ [mkAppWarning attempt job_id status_ (fault_text f)]) w.

(** [time.sleep] of a length that is not negative.  A negative length
    raises ValueError in the source; what is proved of [update_status_safe]
    for a free [backoff] assumes [0 <= backoff], under which every length
    slept is [backoff * attempt >= 0]. *)
Definition sleep (d : Q) (w : World) : World :=
  set_slept (slept w ++ [d]) w.

(** The loop [while True]; [None] when the fuel runs out. *)
Fixpoint update_loop (fuel : nat) (job_id status_ : string)
         (error_ : option string) (retries : Z) (backoff : Q)
         (now_ : string) (attempt : Z) (w : World) : option World :=
  match fuel with
  | O => None
  | S fuel' =>
      let w0 := interfere w in
      match next_fault w0 with
      | (None, w1) => Some (sql_update_status job_id status_ now_ error_ w1)
      | (Some f, w1) =>
          let attempt := attempt + 1 in
          let w2 := log_attempt attempt job_id status_ f w1 in
          if retries <=? attempt then Some w2
          else update_loop fuel' job_id status_ error_ retries backoff now_
                           attempt
                           (sleep (backoff * inject_Z attempt) w2)
      end
  end.

(** The number of iterations that [retries] allows. *)
Definition update_fuel (retries : Z) : nat := S (Z.to_nat retries).

Definition update_status_safe (job_id status_ : string)
           (error_ : option string) (retries : Z) (backoff : Q)
           (w : World) : World :=
  let now_ := clock w in
  default w (update_loop (update_fuel retries) job_id status_ error_ retries
                         backoff now_ 0 w).

(** ** Submission: the part of process_data_async that records the job

    Lines 340-351 for a [job_id] that has no row yet and a store that
    accepts the INSERT. *)

Definition new_event (w : World) : nat := fresh (dom (events w)).

Definition record_job (job_id dir : string) (w : World) : nat * World :=
  let now := clock w in
  let w1 := sql_insert job_id "queued" now dir w in
  let cancel_event := new_event w1 in
  let w2 := set_events (<[cancel_event := false]> (events w1)) w1 in
  (cancel_event,
   set_RUNNING_JOBS (<[job_id := cancel_event]> (RUNNING_JOBS w2)) w2).

(** ** cancel_job and cancel_all_jobs *)

Record HTTPException := mkHTTP {
  status_code : Z;
  detail : string
}.

Record CancelResponse := mkCancelResponse {
  r_job_id : string;
  r_status : string;
  r_message : string
}.

(** What leaves a handler: an [HTTPException] of its own, or the exception
    of a statement of the store that fails. *)
Inductive Exception :=
| HTTP (e : HTTPException)
| StoreError (text : string).

(** Each [with sqlite3.connect(DB_PATH) as conn:] block of the handler takes
    the next outcome of [db_faults]; when it fails, its exception leaves
    the handler at once, before [evnt.set()]. *)
Definition cancel_job (job_id : string) (w : World)
  : (Exception + CancelResponse) * World :=
  match RUNNING_JOBS w !! job_id with
  | None =>
      match next_fault w with
      | (Some f, w1) => (inl (StoreError (fault_text f)), w1)
      | (None, w1) =>
          match jobs w1 !! job_id with
          | None => (inl (HTTP (mkHTTP 404 "Job not found")), w1)
          | Some row =>
              (inr (mkCancelResponse job_id (status row)
                                     "Job not running; no cancel needed"), w1)
          end
      end
  | Some evnt =>
      let now_ := clock w in
      match next_fault w with
      | (Some f, w1) => (inl (StoreError (fault_text f)), w1)
      | (None, w1) =>
          let w2 := sql_cancel_update job_id now_ w1 in
          let w3 := event_set evnt w2 in
          (inr (mkCancelResponse job_id "cancelling" "Cancellation requested"),
           w3)
      end
  end.

Record CancelAllResponse := mkCancelAll {
  ca_status : string;
  ca_count : nat;
  ca_job_ids : list string
}.

(** The tokens are set first; the UPDATEs then run in one transaction
    under [if cancelled:], which takes the next outcome of [db_faults]: when
    it fails it is rolled back and its exception leaves the handler. *)
Definition cancel_all_jobs (w : World)
  : (Exception + CancelAllResponse) * World :=
  let items := map_to_list (RUNNING_JOBS w) in
  let cancelled := map fst items in
  let w1 := fold_left (fun w p => event_set (snd p) w) items w in
  let now_ := clock w1 in
  match cancelled with
  | [] => (inr (mkCancelAll "ok" (length cancelled) cancelled), w1)
  | _ :: _ =>
      match next_fault w1 with
      | (Some f, w2) => (inl (StoreError (fault_text f)), w2)
      | (None, w2) =>
          (inr (mkCancelAll "ok" (length cancelled) cancelled),
           fold_left (fun w jid => sql_cancel_update jid now_ w) cancelled w2)
      end
  end.

(** ** The backoff the specification describes

    In the words of the specification the delays between attempts follow a
    bounded exponential backoff: each delay is the one before it times a
    constant factor greater than one. *)
Definition exponential_backoff (delays : list Q) : Prop :=
  exists factor : Q,
    (1 < factor)%Q
    /\ forall (i : nat) (d d' : Q),
         delays !! i = Some d -> delays !! S i = Some d' ->
         (d' == factor * d)%Q.

(** The delays of the source: the k-th failed attempt is followed by a sleep
    of [backoff * k]. *)
Definition linear_delays (backoff : Q) (first : Z) (k : nat) : list Q :=
  map (fun i => (backoff * inject_Z (first + Z.of_nat i))%Q) (seq 1 k).

(** The records that the failed attempts [fs] leave in [app_logger], the
    first of them being attempt number [attempt + 1]. *)
Fixpoint warnings_from (attempt : Z) (job_id status_ : string)
         (fs : list Fault) : list AppWarning :=
  match fs with
  | [] => []
  | f :: fs' =>
      ((if fault_log_raises f then []
        else [mkAppWarning (attempt + 1) job_id status_ (fault_text f)])
       ++ warnings_from (attempt + 1) job_id status_ fs')%list
  end.

(** ** The statuses a job goes through *)

(** The statuses written for [job_id], oldest first. *)
Definition job_history (job_id : string) (w : World) : list string :=
  map snd (List.filter (fun p => String.eqb (fst p) job_id) (history w)).

(** Every status of the list is followed by one the graph allows. *)
Fixpoint path_ok (edge : string -> string -> bool) (h : list string) : bool :=
  match h with
  | s :: ((t :: _) as h') => edge s t && path_ok edge h'
  | _ => true
  end.

(** The transition graph of the specification:
    queued -> processing -> {cancelling -> canceled, failed, complete},
    queued -> canceled, processing -> failed. *)
Definition spec_edge (s t : string) : bool :=
  (String.eqb s "queued" && one_of t ["processing"; "canceled"])
  || (String.eqb s "processing" && one_of t ["cancelling"; "failed"; "complete"])
  || (String.eqb s "cancelling" && String.eqb t "canceled").

Definition terminal (s : string) : bool :=
  one_of s ["canceled"; "failed"; "complete"].

Definition nonterminal (s : string) : bool :=
  one_of s ["queued"; "processing"; "cancelling"].

(** The transitions of the source: the orchestrator writes processing,
    canceled, failed or complete over whatever non-terminal status is
    stored, the cancellation handlers move queued and processing to
    cancelling, a failed job may be written failed again, and a complete
    job is written failed when the recording of the archive raises. *)
Definition code_edge (s t : string) : bool :=
  (nonterminal s && one_of t ["processing"; "canceled"; "failed"; "complete"])
  || (one_of s ["queued"; "processing"] && String.eqb t "cancelling")
  || (String.eqb s "failed" && String.eqb t "failed")
  || (String.eqb s "complete" && String.eqb t "failed").

(** The row that the UPDATE of [update_status_safe] leaves in place of
    [row]. *)
Definition updated_row (status_ now_ : string) (error_ : option string)
           (row : Job) : Job :=
  {| status := status_; created_at := created_at row; updated_at := now_;
     error := error_; output_dir := output_dir row;
     result_zip_path := result_zip_path row |}.

(** A store and a schedule under which the next attempt succeeds at once. *)
Definition calm (w : World) : World := set_pending [] (set_db_faults [] w).

(** A store that answers "database is locked" to the next [n] attempts. *)
Definition busy (n : nat) (w : World) : World :=
  set_db_faults (repeat (Some (mkFault "database is locked" false)) n) w.

(** The empty world: no job, no token, nothing pending. *)
Definition empty_world (now : string) : World :=
  mkWorld ∅ ∅ ∅ now [] [] [] [] [] (Watcher.init None true) [] [].

(** The row that the UPDATE of [cancel_job] and [cancel_all_jobs] leaves in
    place of [row]. *)
Definition cancelled_row (now_ : string) (row : Job) : Job :=
  if one_of (status row) ["queued"; "processing"] then
    {| status := "cancelling"; created_at := created_at row;
       updated_at := now_; error := error row;
       output_dir := output_dir row;
       result_zip_path := result_zip_path row |}
  else row.

End Jobs.

(* ===================================================================== *)
(** * async_routes.py: run_survey_mapper *)
(* ===================================================================== *)

Module Orchestrator.
Import Jobs.

(** ** Control flow

    A statement ends normally with a value, with a [return] of the enclosing
    function, or with an exception. *)
Inductive Outcome (A : Type) : Type :=
| Done (a : A)
| Returned
| Raised (exc : string).
Arguments Done {A} a.
Arguments Returned {A}.
Arguments Raised {A} exc.

Definition M (A : Type) : Type := World -> Outcome A * World.

Definition ret {A} (a : A) : M A := fun w => (Done a, w).
Definition return_ {A} : M A := fun w => (Returned, w).
Definition raise {A} (exc : string) : M A := fun w => (Raised exc, w).

Definition bind {A B} (c : M A) (k : A -> M B) : M B :=
  fun w =>
    match c w with
    | (Done a, w') => k a w'
    | (Returned, w') => (Returned, w')
    | (Raised exc, w') => (Raised exc, w')
    end.

Notation "x <- c ;; k" := (bind c (fun x => k))
  (at level 100, c at next level, right associativity).
Notation "c ;; k" := (bind c (fun _ => k))
  (at level 100, right associativity).

(** [try: body except Exception as exc: handler exc] *)
Definition try_except {A} (body : M A) (handler : string -> M A) : M A :=
  fun w =>
    match body w with
    | (Raised exc, w') => handler exc w'
    | r => r
    end.

(** [try: body finally: fin] *)
Definition try_finally {A} (body : M A) (fin : M unit) : M A :=
  fun w =>
    match body w with
    | (r, w') =>
        match fin w' with
        | (Done _, w'') => (r, w'')
        | (Returned, w'') => (Returned, w'')
        | (Raised exc, w'') => (Raised exc, w'')
        end
    end.

(** The body of a function that returns [None]: a [return] ends it. *)
Definition def (body : M unit) : M unit :=
  fun w =>
    match body w with
    | (Returned, w') => (Done tt, w')
    | r => r
    end.

(** A change of the state of this thread alone. *)
Definition local (f : World -> World) : M unit := fun w => (Done tt, f w).

(** An access to the state the threads share: the others move first. *)
Definition shared {A} (f : World -> A * World) : M A :=
  fun w => match f (interfere w) with (a, w') => (Done a, w') end.

(** A [with sqlite3.connect(DB_PATH) as conn:] block of the run: the other
    threads move first, then the block takes the next outcome of
    [db_faults] and either runs or raises the exception of the store. *)
Definition store {A} (f : World -> A * World) : M A :=
  fun w =>
    match next_fault (interfere w) with
    | (Some flt, w1) => (Raised (fault_text flt), w1)
    | (None, w1) => match f w1 with (a, w') => (Done a, w') end
    end.

(** ** The objects of a run *)

(** [job_logger.log(levelno, msg)]: the logger is at level INFO, and its
    handlers are the file handler and the watcher. *)
Definition job_logger_log (levelno : Z) (msg : string) : M unit :=
  local (fun w =>
           if Watcher.INFO <=? levelno then
             let record := Watcher.mkRecord levelno msg in
             set_watcher (Watcher.handle record (watcher w))
                         (set_job_log (job_log w ++ [record]) w)
           else w).

Definition info (msg : string) : M unit := job_logger_log Watcher.INFO msg.
Definition warning (msg : string) : M unit :=
  job_logger_log Watcher.WARNING msg.
Definition error_ (msg : string) : M unit := job_logger_log Watcher.ERROR msg.
(** [job_logger.exception(msg)] logs [msg] at level ERROR. *)
Definition exception (msg : string) : M unit :=
  job_logger_log Watcher.ERROR msg.

(** [update_status_safe(job_id=..., status=..., error=...)], with the default
    [retries] and [backoff]; every attempt is an access to the store. *)
Definition update (job_id status_ : string) (error_ : option string)
  : M unit :=
  local (update_status_safe job_id status_ error_ default_retries
                            default_backoff).

Definition is_set (cancel_event : nat) : M bool :=
  shared (fun w => (event_is_set cancel_event w, w)).

(** What a step of the engine hands back under the key [errors]. *)
Inductive Errors :=
| EAbsent                         (* no such key *)
| EStr (s : string)               (* a str *)
| EList (l : list string)         (* a list of str *)
| EBadList (join_exc : string)    (* a list that "; ".join rejects, with the
                                     text of the TypeError *)
| EOther (str_ : string).         (* any other object, with its str() *)

(** The result dict of a step: the truth value of [.get("success", False)],
    [.get("data")], and the value under [errors]. *)
Record StepDict := mkStepDict {
  success : bool;
  data : option string;
  errors : Errors
}.

Inductive StepReturn :=
| NotADict
| Dict (d : StepDict).

(** A call of a step of the engine: what it logs on [job_logger] while it
    runs, then the exception it raises or the value it returns. *)
Record StepOutcome := mkStep {
  emitted : list Watcher.LogRecord;
  outcome : string + StepReturn
}.

(** The outcome of everything a run asks of its environment. *)
Record Env := mkEnv {
  setup_exc : option string;
    (* an exception of lines 652-660: build_job_logger, the glob and stat of
       the log directory, the construction of the watcher *)
  latest_log : option string;
  read_pre_start : string + string;
  read_after_step1 : string + string;
  read_before_zip : string + string;
    (* what read_text gives to each scan_file_once *)
  db_fetch : option (option string);
    (* None: no fetch of LUTAssetTypes; Some None: it succeeds;
       Some (Some exc): it raises *)
  build_logger_exc : option string;     (* build_job_logger at line 709 *)
  config_exc : option string;
    (* the exception that leaves lines 711-724: validation of survey_type,
       get_config, model_dump *)
  processor_exc : option string;        (* SurveyMapper(...) raises *)
  step1 : StepOutcome;                  (* processor._process_grid_sheet() *)
  step2 : StepOutcome;                  (* processor.export_feature_collections *)
  zip_exc : option string;              (* clear_locks or zip_directory raises *)
  zip_exists : bool;                    (* FSPath(zip_location).exists() *)
  zip_still_exists : bool;              (* src_zip.exists(), asked next *)
  fspath : string -> string
    (* str(FSPath(s)): the text of the path that pathlib makes of [s] on the
       platform of the run *)
}.

Definition raise_if (exc : option string) : M unit :=
  match exc with
  | Some e => raise e
  | None => ret tt
  end.

Definition call_step (c : Call) (s : StepOutcome) : M StepReturn :=
  local (fun w => set_invoked (invoked w ++ [c]) w) ;;
  local (fun w =>
           fold_left (fun w r =>
                        match job_logger_log (Watcher.levelno r)
                                             (Watcher.getMessage r) w with
                        | (_, w') => w'
                        end) (emitted s) w) ;;
  match outcome s with
  | inl exc => raise exc
  | inr v => ret v
  end.

(** [watcher.scan_file_once()] *)
Definition scan (read : string + string) : M unit :=
  local (fun w => set_watcher (Watcher.scan_file_once read (watcher w)) w).

(** The nested function [_abort_if_error(prefix)]. *)
Definition _abort_if_error (job_id prefix : string) (read : string + string)
  : M bool :=
  scan read ;;
  fun w =>
    match Watcher.error_message (watcher w) with
    | Some m =>
        if Py.truthy m then
          let msg := prefix ++ "Fail-fast due to error in logs: " ++ m in
          (update job_id "failed" (Some msg) ;;
           error_ msg ;;
           ret true) w
        else ret false w
    | None => ret false w
    end.

(** [if cancel_event.is_set(): update_status_safe(... "canceled" ...);
    job_logger.warning(...); return] *)
Definition cancel_check (job_id : string) (cancel_event : nat)
           (err log_msg : string) : M unit :=
  c <- is_set cancel_event ;;
  if c then
    update job_id "canceled" (Some err) ;;
    warning log_msg ;;
    return_
  else ret tt.

(** ** save_final_zip_location *)

(** [str(HTTPException(status_code, detail))] *)
Definition http_text (status_code detail : string) : string :=
  status_code ++ ": " ++ detail.

Definition save_final_zip_location (job_id zip_location : string) (env : Env)
  : M unit :=
  row <- store (fun w => (jobs w !! job_id, w)) ;;
  match row with
  | None => raise (http_text "404" "Job not found")
  | Some row =>
      running_ev <- shared (fun w => (RUNNING_JOBS w !! job_id, w)) ;;
      if bool_decide (is_Some running_ev)
         && one_of (status row) ["queued"; "processing"; "cancelling"]
      then raise (http_text "409" "Job is not finished yet")
      else if negb (Py.truthy zip_location && zip_exists env)
      then raise "No active exception to reraise"
      else if negb (zip_still_exists env)
      then raise (http_text "409" "Final ZIP not found for this job")
      else if negb (Py.truthy_opt (output_dir row))
      then raise (http_text "409" "Job has no output_dir recorded")
      else
        let dest_zip := fspath env zip_location in
        store (fun w => (tt, sql_update_zip job_id dest_zip (clock w) w))
  end.

(** ** run_survey_mapper *)

Definition RESULTS_ZIP_FOLDER : string := "results".
Definition RESULTS_ZIP_FILENAME : string := "results.zip".

(** Lines 652-660, before the [try]. *)
Definition setup (env : Env) : M unit :=
  raise_if (setup_exc env) ;;
  local (set_job_log []) ;;
  local (set_watcher (Watcher.init (latest_log env) true)).

(** "; ".join(errors) after the normalisation of lines 774-778. *)
Definition join_errors (e : Errors) : M string :=
  match e with
  | EAbsent => ret (Py.join "; " ["Export failed"])
  | EStr s => ret (Py.join "; " [s])
  | EList l => ret (Py.join "; " l)
  | EBadList exc => raise exc
  | EOther s => ret (Py.join "; " [s])
  end.

(** The body of the [try], lines 673-813. *)
Definition run_body (job_id output_dir : string) (cancel_event : nat)
           (env : Env) : M unit :=
  update job_id "processing" None ;;
  info "Job started" ;;
  aborted <- _abort_if_error job_id "pre-start: " (read_pre_start env) ;;
  (if aborted : bool then return_ else ret tt) ;;
  cancel_check job_id cancel_event "Canceled before start"
               "Cancellation flag set before start" ;;
  match db_fetch env with
  | None => ret tt
  | Some fetched =>
      info "Attempting database fetch for LUTAssetTypes" ;;
      match fetched with
      | None => info "Database fetch succeeded"
      | Some exc =>
          let msg := "Warning: could not load LUTAssetTypes from DB - " ++ exc in
          update job_id "processing" (Some msg) ;;
          warning msg
      end
  end ;;
  cancel_check job_id cancel_event "Canceled before processing"
               "Cancellation before processing" ;;
  raise_if (build_logger_exc env) ;;
  raise_if (config_exc env) ;;
  raise_if (processor_exc env) ;;
  cancel_check job_id cancel_event "Canceled before grid processing"
               "Cancellation before grid processing" ;;
  info "Step 1: process grid and clipping - start" ;;
  step1 <- call_step C_process_grid_sheet (step1 env) ;;
  match step1 with
  | NotADict | Dict {| success := false |} =>
      update job_id "failed" (Some "Grid processing failed") ;;
      error_ "Step 1 failed" ;;
      aborted <- _abort_if_error job_id "after step1: "
                                 (read_after_step1 env) ;;
      (if aborted : bool then return_ else ret tt) ;;
      return_
  | Dict step1 =>
      info "Step 1: completed successfully" ;;
      let export_input_folder := data step1 in
      cancel_check job_id cancel_event "Canceled before export"
                   "Cancellation before export" ;;
      info "Step 2: export feature collections - start" ;;
      step2 <- call_step (C_export_feature_collections export_input_folder)
                         (step2 env) ;;
      match step2 with
      | NotADict =>
          update job_id "failed"
            (Some "Internal error - export_feature_collections did not return a dict") ;;
          error_ "Step 2 failed: invalid return type" ;;
          return_
      | Dict step2 =>
          (if success step2 then ret tt
           else
             msg <- join_errors (errors step2) ;;
             update job_id "failed" (Some msg) ;;
             error_ ("Step 2 failed: " ++ msg) ;;
             return_) ;;
          info "Step 2: completed successfully" ;;
          cancel_check job_id cancel_event "Canceled before zip"
                       "Cancellation before zip" ;;
          let output_base :=
            fspath env (output_dir ++ "/" ++ RESULTS_ZIP_FOLDER) in
          let zip_dest :=
            fspath env (output_dir ++ "/" ++ RESULTS_ZIP_FILENAME) in
          info ("Step 3: zipping output from '" ++ output_base ++ "' to '"
                ++ zip_dest ++ "'") ;;
          aborted <- _abort_if_error job_id "before zip: "
                                     (read_before_zip env) ;;
          (if aborted : bool then return_ else ret tt) ;;
          try_except
            (info "Clearing caches before zipping" ;;
             local (fun w => set_invoked (invoked w ++ [C_zip_directory]) w) ;;
             raise_if (zip_exc env) ;;
             info ("Zipping output completed: " ++ zip_dest))
            (fun xc =>
               let msg := "Zipping failed: " ++ xc in
               update job_id "failed" (Some msg) ;;
               exception msg ;;
               return_) ;;
          info "Zipping completed" ;;
          update job_id "complete" None ;;
          save_final_zip_location job_id zip_dest env ;;
          info "Job completed successfully"
      end
  end.

Definition run_survey_mapper (job_id output_dir : string)
           (cancel_event : nat) (env : Env) : M unit :=
  def
    (setup env ;;
     try_finally
       (try_except
          (run_body job_id output_dir cancel_event env)
          (fun exc =>
             update job_id "failed" (Some exc) ;;
             exception "Unhandled error in job"))
       (shared (fun w => (tt, set_RUNNING_JOBS
                                (delete job_id (RUNNING_JOBS w)) w)) ;;
        info "Job finalizer finished")).

(** ** Scenarios *)

(** A step that logs nothing and returns [v]. *)
Definition quiet (v : StepReturn) : StepOutcome := mkStep [] (inr v).

(** An environment in which nothing fails and nothing is logged from
    outside: both steps succeed, the log file has no text of its own, the
    archive is written, and pathlib prints the paths of the scenario as
    they are written (they are relative POSIX paths in normal form). *)
Definition smooth_env : Env :=
  {| setup_exc := None; latest_log := Some "log_20250101_000000.txt";
     read_pre_start := inl ""; read_after_step1 := inl "";
     read_before_zip := inl "";
     db_fetch := None; build_logger_exc := None; config_exc := None;
     processor_exc := None;
     step1 := quiet (Dict (mkStepDict true (Some "output/job-1/_export_temp")
                                      (EList [])));
     step2 := quiet (Dict (mkStepDict true (Some "output/job-1/results")
                                      (EList [])));
     zip_exc := None; zip_exists := true; zip_still_exists := true;
     fspath := fun s => s |}.

Definition with_step1 (s : StepOutcome) (env : Env) : Env :=
  {| setup_exc := setup_exc env; latest_log := latest_log env;
     read_pre_start := read_pre_start env;
     read_after_step1 := read_after_step1 env;
     read_before_zip := read_before_zip env;
     db_fetch := db_fetch env; build_logger_exc := build_logger_exc env;
     config_exc := config_exc env; processor_exc := processor_exc env;
     step1 := s; step2 := step2 env; zip_exc := zip_exc env;
     zip_exists := zip_exists env; zip_still_exists := zip_still_exists env;
     fspath := fspath env |}.

Definition with_setup_exc (exc : option string) (env : Env) : Env :=
  {| setup_exc := exc; latest_log := latest_log env;
     read_pre_start := read_pre_start env;
     read_after_step1 := read_after_step1 env;
     read_before_zip := read_before_zip env;
     db_fetch := db_fetch env; build_logger_exc := build_logger_exc env;
     config_exc := config_exc env; processor_exc := processor_exc env;
     step1 := step1 env; step2 := step2 env; zip_exc := zip_exc env;
     zip_exists := zip_exists env; zip_still_exists := zip_still_exists env;
     fspath := fspath env |}.

(** The first checkpoint of the scenario of the specification: it returns
    {success: False, errors: ["grid failed"]}. *)
Definition grid_failed : StepOutcome :=
  quiet (Dict (mkStepDict false None (EList ["grid failed"]))).

(** A job as [process_data_async] records it in an empty world, and the
    world after that. *)
Definition submitted (job_id : string) : nat * World :=
  record_job job_id ("output/" ++ job_id) (empty_world "2025-01-01T00:00:00").

(** ** The invariant of the status of a job

    The row of the job exists and has an output directory; its status is not
    terminal, or is one of the terminal statuses [T] that the run has
    written so far; the statuses written for the job form a path of the
    graph of the source, and the last of them is the stored one. *)
Definition Inv (job_id : string) (T : list string) (w : World) : Prop :=
  exists row : Job,
    jobs w !! job_id = Some row
    /\ Py.truthy_opt (output_dir row) = true
    /\ (nonterminal (status row) = true \/ In (status row) T)
    /\ path_ok code_edge (job_history job_id w) = true
    /\ last (job_history job_id w) = Some (status row).

Definition InvAny (job_id : string) (w : World) : Prop :=
  Inv job_id ["canceled"; "failed"; "complete"] w.

(** A statement started where [P] holds ends normally where [R] holds,
    returns from the function where the invariant holds for some terminal
    statuses, or raises where no terminal status but complete was
    written. *)
Definition triple {A} (job_id : string) (P : World -> Prop) (c : M A)
           (R : A -> World -> Prop) : Prop :=
  forall w, P w ->
    match c w with
    | (Done a, w') => R a w'
    | (Returned, w') => InvAny job_id w'
    | (Raised _, w') => Inv job_id ["complete"] w'
    end.

(** ** Assertions about the job of a run

    [hoare P c Qd Qr Qx]: a statement started where [P] holds ends normally
    where [Qd] holds of its value, returns from the function where [Qr]
    holds, or raises an exception of which [Qx] holds. *)
Definition hoare {A} (P : World -> Prop) (c : M A) (Qd : A -> World -> Prop)
           (Qr : World -> Prop) (Qx : string -> World -> Prop) : Prop :=
  forall w, P w ->
    match c w with
    | (Done a, w') => Qd a w'
    | (Returned, w') => Qr w'
    | (Raised exc, w') => Qx exc w'
    end.

(** The store accepts every statement, and the row of the job satisfies
    [R]. *)
Definition Stored (job_id : string) (R : Job -> Prop) (w : World) : Prop :=
  db_faults w = [] /\ exists row, jobs w !! job_id = Some row /\ R row.

(** A property of a row that the UPDATE of the cancellation handlers
    keeps. *)
Definition cancel_stable (R : Job -> Prop) : Prop :=
  forall now_ row, R row -> R (cancelled_row now_ row).

(** A property of the world that the other threads keep and that does not
    read the store, the registry or the clock. *)
Definition frame_ok (F : World -> Prop) : Prop :=
  (forall w, F w -> F (interfere w))
  /\ (forall w w', events w' = events w -> pending w' = pending w ->
                   watcher w' = watcher w -> invoked w' = invoked w ->
                   F w -> F w').

Definition At (job_id : string) (R : Job -> Prop) (F : World -> Prop)
           (w : World) : Prop :=
  Stored job_id R w /\ F w.

Definition anything : World -> Prop := fun _ => True.
Definition any_row : Job -> Prop := fun _ => True.

(** The token [ev] is not set, and no other thread is going to set it. *)
Definition not_cancelled (ev : nat) (w : World) : Prop :=
  event_is_set ev w = false
  /\ Forall (Forall (fun i => i <> ISetEvent ev)) (pending w).

(** The token [ev] is set. *)
Definition cancelled (ev : nat) (w : World) : Prop :=
  event_is_set ev w = true.

(** A property of the tokens that the other threads keep. *)
Definition token_ok (tok : World -> Prop) : Prop :=
  (forall w, tok w -> tok (interfere w))
  /\ (forall w w', events w' = events w -> pending w' = pending w ->
                   tok w -> tok w').

(** What a run has seen and done so far: the state of the token, of the
    watcher, and the external calls made. *)
Definition Frame (tok : World -> Prop)
           (hp : Watcher.FailFastLogWatcher -> Prop) (iv : list Call)
           (w : World) : Prop :=
  tok w /\ hp (watcher w) /\ invoked w = iv.

(** A read of the log file in which [scan_file_once] finds nothing. *)
Definition quiet_read (read : string + string) : bool :=
  match read with
  | inl txt => negb (Watcher.file_detects txt)
  | inr _ => true
  end.

(** A record that does not set off the watcher. *)
Definition quiet_record (r : Watcher.LogRecord) : bool :=
  negb (Watcher.detects r).

(** What the fetch of LUTAssetTypes logs does not set off the watcher. *)
Definition quiet_fetch (env : Env) : bool :=
  match db_fetch env with
  | Some (Some exc) =>
      quiet_record
        (Watcher.mkRecord Watcher.WARNING
           ("Warning: could not load LUTAssetTypes from DB - " ++ exc))
  | _ => true
  end.

(** Nothing fails and nothing sets off the watcher before the first step
    of the engine returns. *)
Definition quiet_until_step1 (env : Env) : Prop :=
  setup_exc env = None
  /\ quiet_read (read_pre_start env) = true
  /\ quiet_fetch env = true
  /\ build_logger_exc env = None
  /\ config_exc env = None
  /\ processor_exc env = None
  /\ Forall (fun r => quiet_record r = true) (emitted (step1 env)).

(** Nothing raises before the first step of the engine is called, and the
    one checkpoint on the way, "pre-start", finds nothing in the log
    file. *)
Definition clean_start (env : Env) : Prop :=
  setup_exc env = None
  /\ quiet_read (read_pre_start env) = true
  /\ build_logger_exc env = None
  /\ config_exc env = None
  /\ processor_exc env = None.

(** The error text of a job whose export step reports failure. *)
Definition export_error_text (e : Errors) : string :=
  match e with
  | EAbsent => "Export failed"
  | EStr s => s
  | EList l => Py.join "; " l
  | EBadList join_exc => join_exc
  | EOther str_ => str_
  end.

(** Nothing fails and nothing sets off the watcher from the return of the
    first step to the return of the second. *)
Definition quiet_until_step2 (env : Env) : Prop :=
  quiet_until_step1 env
  /\ Forall (fun r => quiet_record r = true) (emitted (step2 env)).

(** The record of the third step, which names the output directory. *)
Definition step3_record (env : Env) (output_dir : string)
  : Watcher.LogRecord :=
  Watcher.mkRecord Watcher.INFO
    ("Step 3: zipping output from '"
     ++ fspath env (output_dir ++ "/" ++ RESULTS_ZIP_FOLDER)
     ++ "' to '"
     ++ fspath env (output_dir ++ "/" ++ RESULTS_ZIP_FILENAME) ++ "'").

(** The text stored as result_zip_path: [str(dest_zip)], the path of
    [str(zip_dest)], itself the path of "output_dir/results.zip". *)
Definition stored_zip (env : Env) (output_dir : string) : string :=
  fspath env (fspath env (output_dir ++ "/" ++ RESULTS_ZIP_FILENAME)).

(** The record of a job that a run has finished with: complete with the
    archive and without error text, or failed or canceled with an error
    text. *)
Definition settled (zip : string) (row : Job) : Prop :=
  (status row = "complete" /\ error row = None
   /\ result_zip_path row = Some zip)
  \/ (status row = "failed" /\ is_Some (error row))
  \/ (status row = "canceled"
      /\ exists where_, error row = Some ("Canceled before " ++ where_)).

(** A row with the given status and error text. *)
Definition row_is (status_ : string) (error_ : option string) (row : Job)
  : Prop :=
  status row = status_ /\ error row = error_.

(** The columns that no UPDATE of the application writes. *)
Definition same_origin (row0 row : Job) : Prop :=
  created_at row = created_at row0 /\ output_dir row = output_dir row0.

Definition with_step2 (s : StepOutcome) (env : Env) : Env :=
  {| setup_exc := setup_exc env; latest_log := latest_log env;
     read_pre_start := read_pre_start env;
     read_after_step1 := read_after_step1 env;
     read_before_zip := read_before_zip env;
     db_fetch := db_fetch env; build_logger_exc := build_logger_exc env;
     config_exc := config_exc env; processor_exc := processor_exc env;
     step1 := step1 env; step2 := s; zip_exc := zip_exc env;
     zip_exists := zip_exists env; zip_still_exists := zip_still_exists env;
     fspath := fspath env |}.

Definition with_read_pre_start (read : string + string) (env : Env) : Env :=
  {| setup_exc := setup_exc env; latest_log := latest_log env;
     read_pre_start := read;
     read_after_step1 := read_after_step1 env;
     read_before_zip := read_before_zip env;
     db_fetch := db_fetch env; build_logger_exc := build_logger_exc env;
     config_exc := config_exc env; processor_exc := processor_exc env;
     step1 := step1 env; step2 := step2 env; zip_exc := zip_exc env;
     zip_exists := zip_exists env; zip_still_exists := zip_still_exists env;
     fspath := fspath env |}.

(** The row of a job as [process_data_async] records it. *)
Definition queued_row (job_id now_ : string) : Job :=
  {| status := "queued"; created_at := now_; updated_at := now_;
     error := None; output_dir := Some ("output/" ++ job_id);
     result_zip_path := None |}.

(** No other thread is at work, and what does not belong to the job is as
    it is in [w0]: the tokens, the registry, the rows and the written
    statuses of the other jobs. *)
Definition Others (job_id : string) (w0 w : World) : Prop :=
  pending w = []
  /\ events w = events w0
  /\ RUNNING_JOBS w = RUNNING_JOBS w0
  /\ (forall j, j <> job_id -> jobs w !! j = jobs w0 !! j)
  /\ (forall j, j <> job_id -> job_history j w = job_history j w0).

End Orchestrator.

(* ===================================================================== *)
(** * async_routes.py: get_job_status and get_all_jobs *)
(* ===================================================================== *)

Module Status.
Import Jobs.

(** [JobStatus] of response_models.py *)
Record JobStatus := mkJobStatus {
  js_job_id : string;
  js_status : string;
  js_created_at : string;
  js_updated_at : string;
  js_error : option string;
  js_download_url : option string;
  js_logs_summary : option Classifier.LogsByLevel
}.

(** The HTTPException of [get_job_status]; its detail is the dict
    {"status": ..., "message": ...}. *)
Record StatusError := mkStatusError {
  se_status_code : Z;
  se_status : string;
  se_message : string
}.

(** What [collect_logs_grouped_all(output_dir)] meets on disk, for each
    output directory: an exception of the listing of the log directory or
    of the [stat] of a file, or the log directory as it is. *)
Definition Disk : Type := string -> string + option Classifier.LogsDir.

(** The two variables that the handlers set under [if output_dir:]. *)
Record Carried := mkCarried {
  logs_summary_filtered : option Classifier.LogsByLevel;
  results_download_filepath : option string
}.

Definition nothing_carried : Carried := mkCarried None None.

(** The [try] under [if output_dir:], with its handler. *)
Definition collect_for (disk : Disk) (now : string)
           (level : Classifier.LogLevelFilter) (dir : string) (c : Carried)
  : Carried :=
  match disk dir with
  | inr logs_dir =>
      let logs_all :=
        Classifier.collect_logs_grouped_all
          logs_dir Classifier.default_max_files now in
      {| logs_summary_filtered :=
           Some (Classifier.filter_logs_by_level logs_all level);
         results_download_filepath :=
           Some ("/" ++ dir ++ "/" ++ Orchestrator.RESULTS_ZIP_FILENAME) |}
  | inl e =>
      {| logs_summary_filtered :=
           Some {| Classifier.info := []; Classifier.warning := [];
                   Classifier.error := [];
                   Classifier.note := Some ("Log collection error: " ++ e) |};
         results_download_filepath := results_download_filepath c |}
  end.

(** [if output_dir: ...] *)
Definition if_output_dir (disk : Disk) (now : string)
           (level : Classifier.LogLevelFilter) (dir : option string)
           (c : Carried) : Carried :=
  match dir with
  | Some d => if Py.truthy d then collect_for disk now level d c else c
  | None => c
  end.

(** [x or None] *)
Definition or_none (o : option string) : option string :=
  if Py.truthy_opt o then o else None.

Definition get_job_status (disk : Disk) (now : string) (job_id : string)
           (level : Classifier.LogLevelFilter) (w : World)
  : StatusError + JobStatus :=
  match jobs w !! job_id with
  | None => inl (mkStatusError 404 "error" "Job ID not found")
  | Some row =>
      let c := if_output_dir disk now level (output_dir row) nothing_carried in
      inr {| js_job_id := job_id;
             js_status := status row;
             js_created_at := created_at row;
             js_updated_at := updated_at row;
             js_error := or_none (error row);
             js_download_url :=
               if String.eqb (status row) "complete"
                  && Py.truthy_opt (results_download_filepath c)
               then results_download_filepath c else None;
             js_logs_summary :=
               if Py.truthy_opt (output_dir row)
               then logs_summary_filtered c else None |}
  end.

(** SELECT ... FROM jobs ORDER BY created_at DESC *)
Fixpoint insert_desc (x : string * Job) (l : list (string * Job))
  : list (string * Job) :=
  match l with
  | [] => [x]
  | y :: l' =>
      if String.ltb (created_at (snd y)) (created_at (snd x)) then x :: l
      else y :: insert_desc x l'
  end.

Definition sql_select_all (w : World) : list (string * Job) :=
  fold_right insert_desc [] (map_to_list (jobs w)).

(** The loop of [get_all_jobs] over the fetched rows. *)
Fixpoint get_all_jobs_loop (disk : Disk) (now : string)
         (level : Classifier.LogLevelFilter) (rows : list (string * Job))
         (c : Carried) : list JobStatus :=
  match rows with
  | [] => []
  | (job_id, row) :: rest =>
      let c' := if_output_dir disk now level (output_dir row) c in
      {| js_job_id := job_id;
         js_status := status row;
         js_created_at := created_at row;
         js_updated_at := updated_at row;
         js_error := or_none (error row);
         js_download_url :=
           if String.eqb (status row) "complete"
           then results_download_filepath c' else None;
         js_logs_summary :=
           if Py.truthy_opt (output_dir row)
           then logs_summary_filtered c' else None |}
      :: get_all_jobs_loop disk now level rest c'
  end.

Definition get_all_jobs (disk : Disk) (now : string)
           (level : Classifier.LogLevelFilter) (w : World) : list JobStatus :=
  get_all_jobs_loop disk now level (sql_select_all w) nothing_carried.

(** The address under which the archive of an output directory is
    offered. *)
Definition download_path (dir : string) : string :=
  "/" ++ dir ++ "/" ++ Orchestrator.RESULTS_ZIP_FILENAME.

(** The logs of the output directory [dir] can be collected. *)
Definition collectable (disk : Disk) (dir : option string) : Prop :=
  exists d logs_dir, dir = Some d /\ Py.truthy d = true
                     /\ disk d = inr logs_dir.

(** The rows are in the order of the SELECT: no row is older than the one
    after it. *)
Fixpoint newest_first (l : list string) : bool :=
  match l with
  | a :: ((b :: _) as l') => negb (String.ltb a b) && newest_first l'
  | _ => true
  end.

(** What [get_job_status] answers for a row. *)
Definition answer (disk : Disk) (now : string)
           (level : Classifier.LogLevelFilter) (w : World) (job_id : string)
  : option JobStatus :=
  match get_job_status disk now job_id level w with
  | inr resp => Some resp
  | inl _ => None
  end.

(** A disk on which every output directory has no log directory. *)
Definition bare_disk : Disk := fun _ => inr None.

End Status.

(* ===================================================================== *)
(** * Properties of the fail-fast watcher *)
(* ===================================================================== *)

Module WatcherFacts.
Import Watcher.

Lemma or_else_truthy (a : option string) (b : string) :
  Py.truthy_opt a = true -> Py.or_else a b = a.
Proof. intros H. unfold Py.or_else. now rewrite H. Qed.

Lemma or_else_fresh (a : option string) (b : string) :
  Py.truthy_opt a = false -> Py.or_else a b = Some b.
Proof. intros H. unfold Py.or_else. now rewrite H. Qed.

Lemma set_error_msg_same (h : FailFastLogWatcher) :
  set_error_msg (_error_msg h) h = h.
Proof. now destruct h. Qed.

Lemma emit_latched (record : LogRecord) (h : FailFastLogWatcher) :
  latched h = true -> emit record h = h.
Proof.
  unfold latched, error_message, emit. intros H.
  destruct (detects record); [|reflexivity].
  rewrite (or_else_truthy _ _ H). apply set_error_msg_same.
Qed.

Lemma scan_latched (read : string + string) (h : FailFastLogWatcher) :
  latched h = true -> scan_file_once read h = h.
Proof.
  unfold latched, error_message, scan_file_once. intros H.
  destruct (negb (poll_file h) || negb (bool_decide (is_Some (log_file h))));
    [reflexivity|].
  destruct read as [txt|e]; [|reflexivity].
  destruct (file_detects txt); [|reflexivity].
  rewrite (or_else_truthy _ _ H). apply set_error_msg_same.
Qed.

Lemma step_latched (e : Event) (h : FailFastLogWatcher) :
  latched h = true -> step h e = h.
Proof. destruct e; simpl; [apply emit_latched | apply scan_latched]. Qed.

Lemma steps_latched (l : list Event) (h : FailFastLogWatcher) :
  latched h = true -> steps h l = h.
Proof.
  unfold steps. induction l as [|e l IH]; intros H; simpl; [reflexivity|].
  rewrite (step_latched e h H). now apply IH.
Qed.

Lemma scan_twice (read : string + string) (h : FailFastLogWatcher) :
  scan_file_once read (scan_file_once read h) = scan_file_once read h.
Proof.
  unfold scan_file_once at 2.
  destruct (negb (poll_file h) || negb (bool_decide (is_Some (log_file h))))
    eqn:Hoff.
  - unfold scan_file_once. now rewrite Hoff.
  - destruct read as [txt|e].
    + destruct (file_detects txt) eqn:Hd.
      * unfold scan_file_once. simpl. rewrite Hoff, Hd.
        unfold Py.or_else at 1.
        destruct (Py.truthy_opt (_error_msg h)) eqn:Ht; simpl.
        -- unfold Py.or_else. rewrite Ht. simpl. now rewrite Ht.
        -- unfold Py.or_else. rewrite Ht. reflexivity.
      * unfold scan_file_once. now rewrite Hoff, Hd.
    + unfold scan_file_once. now rewrite Hoff.
Qed.

(** C4, as the claim states it, fails: an event of level ERROR whose message
    is the empty string is detected and stored, so [error_message] is no
    longer [None], and the next detection replaces the stored message. *)
Lemma C4_first_message_replaced :
  let first := mkRecord ERROR "" in
  let later := mkRecord ERROR "boom" in
  let h1 := steps (init (Some "log_1.txt") true) [Emit first] in
  detects first = true
  /\ error_message h1 = Some (getMessage first)
  /\ error_message (steps h1 [Emit later]) = Some "boom"
  /\ error_message (steps h1 [Emit later]) <> error_message h1.
Proof. vm_compute. repeat split; congruence. Qed.

(** C4, amended: once the watcher holds a non-empty message, no sequence of
    logger events and rescans changes the watcher; a detected non-empty
    message enters a watcher that holds none verbatim; [scan_file_once] is
    idempotent; and a read failure during [scan_file_once] leaves the
    watcher as it was. *)
Theorem C4_latch_is_terminal :
  (forall (h : FailFastLogWatcher) (l : list Event),
      latched h = true ->
      steps h l = h /\ error_message (steps h l) = error_message h)
  /\ (forall (h : FailFastLogWatcher) (record : LogRecord),
         latched h = false -> detects record = true ->
         Py.truthy (getMessage record) = true ->
         error_message (emit record h) = Some (getMessage record)
         /\ latched (emit record h) = true)
  /\ (forall (h : FailFastLogWatcher) (read : string + string),
         scan_file_once read (scan_file_once read h) = scan_file_once read h)
  /\ (forall (h : FailFastLogWatcher) (exc : string),
         scan_file_once (inr exc) h = h).
Proof.
  split; [|split; [|split]].
  - intros h l H. now rewrite (steps_latched l h H).
  - intros h record Hl Hd Ht. unfold emit. rewrite Hd.
    unfold latched, error_message in *. simpl.
    rewrite (or_else_fresh _ _ Hl). simpl. auto.
  - intros h read. apply scan_twice.
  - intros h exc. unfold scan_file_once.
    now destruct (negb (poll_file h) || negb (bool_decide (is_Some (log_file h)))).
Qed.

Lemma C4_latch_is_terminal_witness :
  let h := emit (mkRecord ERROR "grid failed") (init (Some "log_1.txt") true) in
  let l := [Emit (mkRecord CRITICAL "later"); Scan (inl "ERROR 000732: x");
            Scan (inr "locked")] in
  latched h = true
  /\ steps h l = h
  /\ error_message (steps h l) = Some "grid failed".
Proof.
  split; [reflexivity|].
  destruct (proj1 C4_latch_is_terminal
              (emit (mkRecord ERROR "grid failed") (init (Some "log_1.txt") true))
              [Emit (mkRecord CRITICAL "later"); Scan (inl "ERROR 000732: x");
               Scan (inr "locked")] eq_refl) as [H1 H2].
  split; [exact H1 | rewrite H2; reflexivity].
Defined.

End WatcherFacts.

(* ===================================================================== *)
(** * Properties of the log classifier *)
(* ===================================================================== *)

Module ClassifierFacts.
Import Classifier.

Lemma wf_empty : wf empty_collector.
Proof. split; simpl; [constructor | exact I]. Qed.

Lemma deref_cons (c : Collector) (r : nat) (refs : list nat) :
  deref c (r :: refs)
  = match objects c !! r with
    | Some e => e :: deref c refs
    | None => deref c refs
    end.
Proof. reflexivity. Qed.

Lemma deref_ext (c c' : Collector) (refs : list nat) :
  Forall (fun r => objects c' !! r = objects c !! r) refs ->
  deref c' refs = deref c refs.
Proof.
  induction 1 as [|r refs Hr _ IH]; [reflexivity|].
  rewrite !deref_cons, Hr, IH. reflexivity.
Qed.

Lemma deref_snoc (c : Collector) (refs : list nat) (r : nat) (e : LogEntry) :
  objects c !! r = Some e ->
  deref c (refs ++ [r]) = (deref c refs ++ [e])%list.
Proof.
  intros H. unfold deref. rewrite omap_app. simpl. now rewrite H.
Qed.

Lemma Forall_lt_lookup_app (objs : list LogEntry) (e : LogEntry)
      (refs : list nat) :
  Forall (fun r => (r < length objs)%nat) refs ->
  Forall (fun r => (objs ++ [e])%list !! r = objs !! r) refs.
Proof.
  intros H. eapply Forall_impl; [exact H|].
  intros r Hr. cbv beta in Hr. now apply lookup_app_l.
Qed.

Lemma Forall_lt_lookup_insert (objs : list LogEntry) (e : LogEntry)
      (i : nat) (refs : list nat) :
  Forall (fun r => (r < i)%nat) refs ->
  Forall (fun r => <[i := e]> objs !! r = objs !! r) refs.
Proof.
  intros H. eapply Forall_impl; [exact H|].
  intros r Hr. cbv beta in Hr. apply list_lookup_insert_ne. lia.
Qed.

(** What appending a new entry does to the view. *)
Lemma view_append (b : Bucket) (e : LogEntry) (keep : bool) (c : Collector)
      (n : option string) :
  wf c ->
  let c' := append_entry b e keep c in
  info (view c' n)
  = (info (view c n) ++ match b with BInfo => [e] | _ => [] end)%list
  /\ warning (view c' n)
     = (warning (view c n) ++ match b with BWarning => [e] | _ => [] end)%list
  /\ error (view c' n)
     = (error (view c n) ++ match b with BError => [e] | _ => [] end)%list.
Proof.
  intros [Hrefs _]. simpl.
  apply Forall_app in Hrefs as [Hi Hrefs].
  apply Forall_app in Hrefs as [Hw He].
  assert (Hnew : (objects c ++ [e])%list !! length (objects c) = Some e).
  { rewrite lookup_app_r by lia. now rewrite Nat.sub_diag. }
  assert (Hold : forall refs,
             Forall (fun r => (r < length (objects c))%nat) refs ->
             deref (append_entry b e keep c) refs = deref c refs).
  { intros refs H. apply deref_ext. simpl.
    now apply Forall_lt_lookup_app. }
  destruct b; simpl;
    rewrite ?app_nil_r;
    repeat match goal with
           | |- _ /\ _ => split
           | |- deref _ (_ ++ [_]) = _ =>
               rewrite (deref_snoc _ _ _ e) by exact Hnew; f_equal
           | |- deref _ _ = deref _ _ => now apply Hold
           end.
Qed.

Lemma wf_append (b : Bucket) (e : LogEntry) (keep : bool) (c : Collector) :
  wf c -> wf (append_entry b e keep c).
Proof.
  intros [Hrefs Hlast]. split.
  - simpl. rewrite length_app. simpl.
    assert (Hold : Forall (fun r => (r < length (objects c) + 1)%nat)
                          (info_refs c ++ warning_refs c ++ error_refs c)%list).
    { eapply Forall_impl; [exact Hrefs|]. simpl. intros; lia. }
    apply Forall_app in Hold as [Hi Hold].
    apply Forall_app in Hold as [Hw He].
    assert (Hn : Forall (fun r => (r < length (objects c) + 1)%nat)
                        [length (objects c)]).
    { constructor; [lia | constructor]. }
    destruct b; repeat (apply Forall_app; split); assumption.
  - simpl. rewrite length_app. simpl.
    destruct keep; [lia|]. destruct (last_entry c); [lia | exact I].
Qed.

Lemma wf_extend_msg (r : nat) (line : string) (c : Collector) :
  wf c -> wf (extend_msg r line c).
Proof.
  intros Hwf. unfold extend_msg. destruct (objects c !! r); [|exact Hwf].
  destruct Hwf as [Hrefs Hlast]. split; simpl; now rewrite length_insert.
Qed.

Lemma wf_process_line (path : LogFile) (c : Collector) (raw : string) :
  wf c -> wf (process_line path c raw).
Proof.
  intros Hwf. unfold process_line.
  destruct (_parse_structured raw); [now apply wf_append|].
  destruct (negb (Py.truthy (Py.strip (Py.rstrip_crlf raw)))); [exact Hwf|].
  destruct (Py.contains "error" _); [now apply wf_append|].
  destruct (Py.contains "warning" _); [now apply wf_append|].
  destruct (last_entry c); [now apply wf_extend_msg | now apply wf_append].
Qed.

Lemma wf_process_lines (path : LogFile) (l : list string) (c : Collector) :
  wf c -> wf (fold_left (process_line path) l c).
Proof.
  revert c. induction l as [|raw l IH]; intros c Hwf; simpl; [exact Hwf|].
  now apply IH, wf_process_line.
Qed.

Lemma wf_process_file (now : string) (c : Collector) (path : LogFile) :
  wf c -> wf (process_file now c path).
Proof.
  intros [Hrefs _]. unfold process_file.
  assert (H : wf (fold_left (process_line path) (lines path)
                            (set_last_entry None c))).
  { apply wf_process_lines. split; [exact Hrefs | exact I]. }
  destruct (read_error path); [now apply wf_append | exact H].
Qed.

(** Every collector that the classifier reaches is well formed: after any
    files, and after any lines of the file being read. *)
Lemma wf_reachable (now : string) (before : list LogFile) (path : LogFile)
      (pre : list string) :
  wf (fold_left (process_line path) pre
        (set_last_entry None
           (fold_left (process_file now) before empty_collector))).
Proof.
  apply wf_process_lines.
  assert (H : wf (fold_left (process_file now) before empty_collector)).
  { generalize wf_empty. generalize empty_collector.
    induction before as [|f before IH]; intros c Hwf; simpl; [exact Hwf|].
    now apply IH, wf_process_file. }
  destruct H as [Hrefs _]. split; [exact Hrefs | exact I].
Qed.

(** C9, as the claim states it, fails: when [<output_dir>/logs] is not a
    directory the result carries no note at all. *)
Lemma C9_missing_directory_has_no_note :
  collect_logs_grouped_all None default_max_files "2025-01-01T00:00:00"
  = {| info := []; warning := []; error := []; note := None |}.
Proof. reflexivity. Qed.

(** C9, amended: when the log directory exists and holds no candidate file,
    [collect_logs_grouped_all] returns three empty lists and the note
    "No log files found"; when the log directory does not exist it returns
    three empty lists and no note; in both cases it returns. *)
Theorem C9_no_candidates :
  forall (max_files : Z) (now : string),
    collect_logs_grouped_all (Some (mkDir [] [])) max_files now
    = {| info := []; warning := []; error := [];
         note := Some "No log files found" |}
    /\ Py.truthy "No log files found" = true
    /\ collect_logs_grouped_all None max_files now
       = {| info := []; warning := []; error := []; note := None |}.
Proof. intros. repeat split. Qed.

Lemma process_line_raw_error (path : LogFile) (c : Collector) (raw : string) :
  _parse_structured raw = None ->
  Py.truthy (Py.strip (Py.rstrip_crlf raw)) = true ->
  Py.contains "error" (Py.lower (Py.rstrip_crlf raw)) = true ->
  process_line path c raw
  = append_entry BError (raw_error_entry path raw) true c.
Proof.
  intros Hp Hb He. unfold process_line. rewrite Hp, Hb. simpl.
  rewrite He. reflexivity.
Qed.

(** C8: a non-blank line that matches neither grammar and contains "error"
    in any case becomes one new entry at the end of the error list, with
    level ERROR, logger "raw" and the line (without its line terminator) as
    message; the info and warning lists stay as they are, whether or not the
    line also contains "warning" and whether or not an entry precedes it. *)
Theorem C8_raw_error_line :
  forall (path : LogFile) (c : Collector) (raw : string) (n : option string),
    wf c ->
    _parse_structured raw = None ->
    Py.truthy (Py.strip (Py.rstrip_crlf raw)) = true ->
    Py.contains "error" (Py.lower (Py.rstrip_crlf raw)) = true ->
    let c' := process_line path c raw in
    error (view c' n) = (error (view c n) ++ [raw_error_entry path raw])%list
    /\ info (view c' n) = info (view c n)
    /\ warning (view c' n) = warning (view c n)
    /\ logger (raw_error_entry path raw) = "raw"
    /\ msg (raw_error_entry path raw) = Py.rstrip_crlf raw.
Proof.
  intros path c raw n Hwf Hp Hb He c'. subst c'.
  rewrite (process_line_raw_error path c raw Hp Hb He).
  destruct (view_append BError (raw_error_entry path raw) true c n Hwf)
    as (Hi & Hw & Herr).
  rewrite Hi, Hw, Herr, !app_nil_r. repeat split.
Qed.

Lemma C8_raw_error_line_witness :
  let path := mkFile "log_1.txt" 7 [] None in
  let raw := "WARNING: arcpy raised an ERROR" ++ Py.nl in
  error (view (process_line path empty_collector raw) None)
  = [{| ts := TsMtime 7; level := "ERROR"; logger := "raw";
        msg := "WARNING: arcpy raised an ERROR"; file := Some "log_1.txt" |}].
Proof.
  exact (proj1 (C8_raw_error_line (mkFile "log_1.txt" 7 [] None) empty_collector
                  ("WARNING: arcpy raised an ERROR" ++ Py.nl) None
                  wf_empty eq_refl eq_refl eq_refl)).
Defined.

Lemma collect_single_file (f : LogFile) (max_files : Z) (now : string) :
  1 <= max_files ->
  collect_logs_grouped_all (Some (mkDir [f] [])) max_files now
  = view (process_file now empty_collector f) None.
Proof.
  intros Hmax. unfold collect_logs_grouped_all.
  change (glob_txt (mkDir [f] []) ++ glob_log (mkDir [f] []))%list with [f].
  change (sort_by_mtime [f]) with [f].
  assert (Hslice : slice_to max_files [f] = [f]).
  { unfold slice_to. destruct (0 <=? max_files) eqn:H0; [|lia].
    apply take_ge. simpl. lia. }
  rewrite Hslice. reflexivity.
Qed.

Lemma parse_hello_line :
  _parse_structured hello_line
  = Some {| ts := TsLine "2025-01-01 00:00:00,000"; level := "INFO";
            logger := "x "; msg := "hello"; file := None |}.
Proof. vm_compute. reflexivity. Qed.

Lemma process_hello_line (path : LogFile) (c : Collector) :
  process_line path c hello_line
  = append_entry BInfo (hello_entry path "hello") true c.
Proof. unfold process_line. rewrite parse_hello_line. reflexivity. Qed.

Lemma process_continued_line (path : LogFile) (c : Collector) (t : bool)
      (r : nat) :
  last_entry c = Some r ->
  process_line path c (continued_line t) = extend_msg r "continued" c.
Proof.
  intros H. unfold process_line.
  assert (Hp : _parse_structured (continued_line t) = None)
    by (destruct t; vm_compute; reflexivity).
  assert (Hl : Py.rstrip_crlf (continued_line t) = "continued")
    by (destruct t; vm_compute; reflexivity).
  rewrite Hp, Hl, H. reflexivity.
Qed.

(** C7: after the structured line and the line "continued" that follows it,
    the info list has exactly one more entry, whose message is "hello",
    a newline, "continued", and the other two lists are as they were: the
    second line is joined to the entry of the first and makes no entry of
    its own.  A file of these two lines alone classifies to that one entry. *)
Theorem C7_continuation_joined :
  forall (path : LogFile) (c : Collector) (n : option string) (t : bool),
    wf c ->
    let merged := hello_entry path ("hello" ++ Py.nl ++ "continued") in
    let c' := fold_left (process_line path) [hello_line; continued_line t] c in
    info (view c' n) = (info (view c n) ++ [merged])%list
    /\ warning (view c' n) = warning (view c n)
    /\ error (view c' n) = error (view c n)
    /\ (forall (mtime max_files : Z) (now : string),
           1 <= max_files ->
           collect_logs_grouped_all
             (Some (mkDir [mkFile (name path) mtime
                                  [hello_line; continued_line t] None] []))
             max_files now
           = {| info := [merged]; warning := []; error := []; note := None |}).
Proof.
  intros path c n t Hwf merged c'.
  assert (Hrun : forall (p : LogFile) (c0 : Collector),
             name p = name path -> wf c0 ->
             let c1 := fold_left (process_line p)
                                 [hello_line; continued_line t] c0 in
             info (view c1 n) = (info (view c0 n) ++ [merged])%list
             /\ warning (view c1 n) = warning (view c0 n)
             /\ error (view c1 n) = error (view c0 n)).
  { intros p c0 Hname [Hrefs Hlast]. simpl.
    rewrite process_hello_line.
    rewrite (process_continued_line p _ t (length (objects c0)))
      by reflexivity.
    unfold extend_msg. simpl.
    assert (Hnew : (objects c0 ++ [hello_entry p "hello"])%list
                     !! length (objects c0)
                   = Some (hello_entry p "hello")).
    { rewrite lookup_app_r by lia. now rewrite Nat.sub_diag. }
    rewrite Hnew.
    apply Forall_app in Hrefs as [Hi Hrefs].
    apply Forall_app in Hrefs as [Hw He].
    set (objs := <[length (objects c0) :=
                     set_msg ("hello" ++ Py.nl ++ "continued")
                             (hello_entry p "hello")]>
                   (objects c0 ++ [hello_entry p "hello"])%list).
    assert (Hold : forall refs,
               Forall (fun r => (r < length (objects c0))%nat) refs ->
               Forall (fun r => objs !! r = objects c0 !! r) refs).
    { intros refs H. eapply Forall_impl; [exact H|].
      intros r Hr. cbv beta in Hr. unfold objs.
      rewrite list_lookup_insert_ne by lia. now apply lookup_app_l. }
    assert (Hmerged : objs !! length (objects c0) = Some merged).
    { unfold objs. rewrite list_lookup_insert_eq.
      - unfold merged, hello_entry, set_msg. simpl. now rewrite Hname.
      - rewrite length_app. simpl. lia. }
    unfold view, deref. simpl. fold objs.
    rewrite omap_app. simpl. rewrite Hmerged.
    repeat split.
    - f_equal. apply (deref_ext c0 (mkCollector objs [] [] [] None)).
      now apply Hold.
    - apply (deref_ext c0 (mkCollector objs [] [] [] None)). now apply Hold.
    - apply (deref_ext c0 (mkCollector objs [] [] [] None)). now apply Hold. }
  destruct (Hrun path c eq_refl Hwf) as (Hi & Hw & He).
  repeat split; try assumption.
  intros mtime max_files now Hmax.
  rewrite collect_single_file by exact Hmax.
  unfold process_file. cbn [lines read_error].
  destruct (Hrun (mkFile (name path) mtime [hello_line; continued_line t] None)
                 (set_last_entry None empty_collector) eq_refl)
    as (Hi' & Hw' & He').
  { split; simpl; [constructor | exact I]. }
  simpl in Hi', Hw', He'. unfold view. f_equal; assumption.
Qed.

Lemma C7_continuation_joined_witness :
  collect_logs_grouped_all
    (Some (mkDir [mkFile "log_1.txt" 7 [hello_line; continued_line true] None]
                 []))
    default_max_files "2025-01-01T00:00:01"
  = {| info := [hello_entry (mkFile "log_1.txt" 7 [] None)
                            ("hello" ++ Py.nl ++ "continued")];
       warning := []; error := []; note := None |}.
Proof.
  refine (proj2 (proj2 (proj2
            (C7_continuation_joined (mkFile "log_1.txt" 7 [] None)
               empty_collector None true wf_empty)))
            7 default_max_files "2025-01-01T00:00:01" _).
  unfold default_max_files. lia.
Defined.

End ClassifierFacts.

(* ===================================================================== *)
(** * Properties of the status store and of the cancellation handlers *)
(* ===================================================================== *)

Module JobsFacts.
Import Jobs.

(** What no other thread touches. *)
Lemma apply_interference_frame (w : World) (i : Interference) :
  let w' := apply_interference w i in
  RUNNING_JOBS w' = RUNNING_JOBS w /\ db_faults w' = db_faults w
  /\ pending w' = pending w /\ app_log w' = app_log w /\ slept w' = slept w
  /\ watcher w' = watcher w /\ job_log w' = job_log w
  /\ invoked w' = invoked w.
Proof.
  destruct i as [j|ev|now]; simpl; try (repeat split; reflexivity).
  unfold sql_cancel_update. destruct (jobs w !! j) as [row|];
    [|repeat split; reflexivity].
  destruct (one_of (status row) ["queued"; "processing"]);
    repeat split; reflexivity.
Qed.

Lemma fold_interference_frame (l : list Interference) (w : World) :
  let w' := fold_left apply_interference l w in
  RUNNING_JOBS w' = RUNNING_JOBS w /\ db_faults w' = db_faults w
  /\ pending w' = pending w /\ app_log w' = app_log w /\ slept w' = slept w
  /\ watcher w' = watcher w /\ job_log w' = job_log w
  /\ invoked w' = invoked w.
Proof.
  revert w. induction l as [|i l IH]; intros w; simpl.
  - repeat split; reflexivity.
  - destruct (IH (apply_interference w i)) as (H1&H2&H3&H4&H5&H6&H7&H8).
    destruct (apply_interference_frame w i) as (G1&G2&G3&G4&G5&G6&G7&G8).
    simpl in *.
    rewrite H1, H2, H3, H4, H5, H6, H7, H8. repeat split; assumption.
Qed.

Lemma interfere_frame (w : World) :
  RUNNING_JOBS (interfere w) = RUNNING_JOBS w
  /\ db_faults (interfere w) = db_faults w
  /\ app_log (interfere w) = app_log w /\ slept (interfere w) = slept w
  /\ watcher (interfere w) = watcher w /\ job_log (interfere w) = job_log w
  /\ invoked (interfere w) = invoked w.
Proof.
  unfold interfere. destruct (pending w) as [|batch later].
  - repeat split; reflexivity.
  - destruct (fold_interference_frame batch (set_pending later w))
      as (H1&H2&H3&H4&H5&H6&H7&H8).
    simpl in *. repeat split; assumption.
Qed.

Lemma sql_update_status_frame (job_id status_ now_ : string)
      (error_ : option string) (w : World) :
  let w' := sql_update_status job_id status_ now_ error_ w in
  RUNNING_JOBS w' = RUNNING_JOBS w /\ events w' = events w
  /\ db_faults w' = db_faults w /\ pending w' = pending w
  /\ app_log w' = app_log w /\ slept w' = slept w
  /\ watcher w' = watcher w /\ job_log w' = job_log w
  /\ invoked w' = invoked w.
Proof.
  unfold sql_update_status. destruct (jobs w !! job_id);
    repeat split; reflexivity.
Qed.

Lemma sql_update_status_slept (job_id status_ now_ : string)
      (error_ : option string) (w : World) :
  slept (sql_update_status job_id status_ now_ error_ w) = slept w.
Proof. apply sql_update_status_frame. Qed.

Lemma sql_update_status_app_log (job_id status_ now_ : string)
      (error_ : option string) (w : World) :
  app_log (sql_update_status job_id status_ now_ error_ w) = app_log w.
Proof. apply sql_update_status_frame. Qed.

Lemma linear_delays_cons (backoff : Q) (first : Z) (k : nat) :
  linear_delays backoff first (S k)
  = ((backoff * inject_Z (first + 1))%Q :: linear_delays backoff (first + 1) k).
Proof.
  unfold linear_delays. rewrite <- cons_seq. simpl map. f_equal.
  rewrite <- seq_shift, map_map. apply map_ext. intros i.
  do 2 f_equal. lia.
Qed.

(** What a call of the retry loop does, whatever the store and the other
    threads do: it ends, after [k] sleeps of [backoff * (attempt + 1)], ...,
    [backoff * (attempt + k)], having logged the failed attempts [fs]; either
    the UPDATE was executed, or the cap was reached and nothing was raised. *)
Lemma update_loop_spec (job_id status_ : string) (error_ : option string)
      (retries : Z) (backoff : Q) (now_ : string) :
  forall (fuel : nat) (attempt : Z) (w : World),
    (Z.to_nat (retries - attempt - 1) < fuel)%nat ->
    exists (w' : World) (k : nat) (fs : list Fault),
      update_loop fuel job_id status_ error_ retries backoff now_ attempt w
      = Some w'
      /\ (k <= Z.to_nat (retries - attempt - 1))%nat
      /\ slept w' = (slept w ++ linear_delays backoff attempt k)%list
      /\ app_log w'
         = (app_log w ++ warnings_from attempt job_id status_ fs)%list
      /\ (exists later, db_faults w = (map Some fs ++ later)%list)
      /\ ((length fs = k
           /\ exists w1, w' = sql_update_status job_id status_ now_ error_ w1)
          \/ (length fs = S k /\ retries <= attempt + Z.of_nat (S k))).
Proof.
  induction fuel as [|fuel IH]; intros attempt w Hfuel; [lia|].
  destruct (interfere_frame w) as (_ & Hf & Hlog & Hslept & _).
  simpl. unfold next_fault. rewrite Hf.
  destruct (db_faults w) as [|[f|] later] eqn:Hw.
  - exists (sql_update_status job_id status_ now_ error_ (interfere w)), 0%nat, [].
    rewrite sql_update_status_slept, sql_update_status_app_log.
    rewrite Hlog, Hslept, !app_nil_r.
    repeat split; try lia; eauto.
  - destruct (retries <=? attempt + 1) eqn:Hcap.
    + exists (log_attempt (attempt + 1) job_id status_ f
                          (set_db_faults later (interfere w))), 0%nat, [f].
      unfold log_attempt. simpl.
      destruct (fault_log_raises f); simpl;
        rewrite ?Hlog, ?Hslept, ?app_nil_r;
        (split; [reflexivity|]); (split; [lia|]); (split; [reflexivity|]);
        (split; [reflexivity|]); (split; [exists later; reflexivity|]);
        right; (split; [reflexivity|lia]).
    + destruct (IH (attempt + 1)
                   (sleep (backoff * inject_Z (attempt + 1))
                          (log_attempt (attempt + 1) job_id status_ f
                                       (set_db_faults later (interfere w)))))
        as (w' & k & fs & Hrun & Hk & Hs & Hl & [later' Hd] & Hend);
        [lia|].
      exists w', (S k), (f :: fs). rewrite Hrun.
      assert (Hlog' : app_log (log_attempt (attempt + 1) job_id status_ f
                                 (set_db_faults later (interfere w)))
                      = (app_log w ++
                         (if fault_log_raises f then []
                          else [mkAppWarning (attempt + 1) job_id status_
                                             (fault_text f)]))%list).
      { unfold log_attempt. destruct (fault_log_raises f); simpl;
          rewrite Hlog, ?app_nil_r; reflexivity. }
      assert (Hslept' : slept (log_attempt (attempt + 1) job_id status_ f
                                 (set_db_faults later (interfere w)))
                        = slept w).
      { unfold log_attempt. destruct (fault_log_raises f); simpl;
          exact Hslept. }
      assert (Hfaults' : db_faults (log_attempt (attempt + 1) job_id status_ f
                                 (set_db_faults later (interfere w)))
                        = later).
      { unfold log_attempt. destruct (fault_log_raises f); reflexivity. }
      split; [reflexivity|]. split; [lia|].
      split.
      { rewrite Hs. simpl. rewrite Hslept', linear_delays_cons, <- app_assoc.
        reflexivity. }
      split.
      { rewrite Hl. simpl app_log. rewrite Hlog'. simpl warnings_from.
        rewrite <- app_assoc. reflexivity. }
      split.
      { exists later'. simpl in Hd. rewrite Hfaults' in Hd. rewrite Hd.
        reflexivity. }
      destruct Hend as [[Hlen Hw1]|[Hlen Hcap']].
      * left. split; [simpl; lia | exact Hw1].
      * right. split; [simpl; lia | lia].
  - exists (sql_update_status job_id status_ now_ error_
              (set_db_faults later (interfere w))), 0%nat, [].
    rewrite sql_update_status_slept, sql_update_status_app_log. simpl.
    rewrite Hlog, Hslept, !app_nil_r.
    repeat split; try lia; eauto.
Qed.


Lemma inject_Z_nonneg (z : Z) : 0 <= z -> (0 <= inject_Z z)%Q.
Proof. intros H. unfold Qle. simpl. lia. Qed.

(** The lengths slept after the failed attempts [first + 1], ...,
    [first + k] are lengths that [time.sleep] accepts when the backoff is
    not negative, and none exceeds [backoff * (first + k)]. *)
Lemma linear_delays_bounds (backoff : Q) (first : Z) (k : nat) :
  (0 <= backoff)%Q -> 0 <= first ->
  List.Forall
    (fun d => (0 <= d)%Q /\ (d <= backoff * inject_Z (first + Z.of_nat k))%Q)
    (linear_delays backoff first k).
Proof.
  intros Hb Hf. unfold linear_delays. apply List.Forall_forall.
  intros d Hd. apply List.in_map_iff in Hd as (i & <- & Hi).
  apply List.in_seq in Hi. split.
  - apply Qmult_le_0_compat; [exact Hb|]. apply inject_Z_nonneg. lia.
  - rewrite !(Qmult_comm backoff). apply Qmult_le_compat_r; [|exact Hb].
    unfold Qle. simpl. lia.
Qed.



Lemma sql_update_status_lookup (job_id status_ now_ : string)
      (error_ : option string) (w : World) (j : string) :
  jobs (sql_update_status job_id status_ now_ error_ w) !! j
  = if decide (j = job_id)
    then updated_row status_ now_ error_ <$> jobs w !! job_id
    else jobs w !! j.
Proof.
  unfold sql_update_status. destruct (jobs w !! job_id) as [row|] eqn:Hrow.
  - simpl. destruct (decide (j = job_id)) as [->|Hne].
    + now rewrite lookup_insert_eq.
    + now rewrite lookup_insert_ne by congruence.
  - destruct (decide (j = job_id)) as [->|Hne]; [now rewrite Hrow|reflexivity].
Qed.

(** C10: the UPDATE of [update_status_safe] puts the status, the time and
    the error of the call in the row of the job, the error column taking
    exactly the argument of the call (NULL for None) whatever it held, and
    leaves created_at, output_dir and result_zip_path of that row and every
    other row as they were; a call whose first attempt succeeds is that
    UPDATE; so a write without error text after one with error text leaves
    the error column empty. *)
Theorem C10_update_overwrites_error :
  forall (job_id status_ : string) (error_ : option string) (w : World),
    (forall (now_ j : string),
        jobs (sql_update_status job_id status_ now_ error_ w) !! j
        = if decide (j = job_id)
          then updated_row status_ now_ error_ <$> jobs w !! job_id
          else jobs w !! j)
    /\ (forall (now_ : string) (row : Job),
           error (updated_row status_ now_ error_ row) = error_
           /\ status (updated_row status_ now_ error_ row) = status_
           /\ updated_at (updated_row status_ now_ error_ row) = now_
           /\ created_at (updated_row status_ now_ error_ row) = created_at row
           /\ output_dir (updated_row status_ now_ error_ row) = output_dir row
           /\ result_zip_path (updated_row status_ now_ error_ row)
              = result_zip_path row)
    /\ update_status_safe job_id status_ error_ default_retries
                          default_backoff (calm w)
       = sql_update_status job_id status_ (clock w) error_ (calm w)
    /\ (forall (earlier : string) (text : string),
           error <$> jobs (update_status_safe job_id status_ None
                             default_retries default_backoff
                             (calm (update_status_safe job_id earlier
                                      (Some text) default_retries
                                      default_backoff (calm w)))) !! job_id
           = (fun _ => None) <$> jobs w !! job_id).
Proof.
  intros job_id status_ error_ w.
  assert (Hcalm : forall st er w0,
             update_status_safe job_id st er default_retries default_backoff
                                (calm w0)
             = sql_update_status job_id st (clock w0) er (calm w0)).
  { intros st er w0. reflexivity. }
  split; [intros; apply sql_update_status_lookup|].
  split; [intros; repeat split|].
  split; [apply Hcalm|].
  intros earlier text. rewrite !Hcalm.
  rewrite sql_update_status_lookup.
  destruct (decide (job_id = job_id)) as [_|Hne]; [|congruence].
  assert (Hjobs : forall w0, jobs (calm w0) = jobs w0) by reflexivity.
  rewrite Hjobs, sql_update_status_lookup.
  destruct (decide (job_id = job_id)) as [_|Hne]; [|congruence].
  rewrite Hjobs. destruct (jobs w !! job_id); reflexivity.
Qed.

Lemma next_fault_frame (w : World) :
  let w' := snd (next_fault w) in
  jobs w' = jobs w /\ RUNNING_JOBS w' = RUNNING_JOBS w
  /\ events w' = events w /\ clock w' = clock w /\ pending w' = pending w
  /\ history w' = history w.
Proof.
  unfold next_fault. destruct (db_faults w); repeat split; reflexivity.
Qed.

(** C6, as the claim states it, fails: the job has a stored record and no
    registered token, and the store is locked when the handler reads the
    record.  The exception of the SELECT leaves [cancel_job]: the handler
    raises, and what it raises is not the 404. *)
Lemma C6_store_error_raises :
  let w := snd (record_job "job-1" "output/job-1"
                           (empty_world "2025-01-01T00:00:00")) in
  let finished := set_RUNNING_JOBS (delete "job-1" (RUNNING_JOBS w)) w in
  RUNNING_JOBS finished !! "job-1" = None
  /\ (status <$> jobs finished !! "job-1") = Some "queued"
  /\ fst (cancel_job "job-1" (busy 1 finished))
     = inl (StoreError "database is locked").
Proof. vm_compute. repeat split. Qed.

(** C6, amended: for a job without a registered token, [cancel_job] reads
    the record of the job.  When the store answers, it raises the 404
    "Job not found" if there is no record and otherwise returns the stored
    status, raising nothing; when the store fails, the exception of the
    store leaves the handler.  In every case the rows, the registry, the
    tokens and the written statuses are left as they were.  The lookup of
    the token never raises: whatever the registry holds, an HTTP error of
    [cancel_job] is the 404, and it is raised only for a job that has
    neither token nor record. *)
Theorem C6_cancel_unknown_job :
  forall (job_id : string) (w : World),
    (RUNNING_JOBS w !! job_id = None ->
     cancel_job job_id w
     = (match fst (next_fault w) with
        | Some f => inl (StoreError (fault_text f))
        | None =>
            match jobs w !! job_id with
            | None => inl (HTTP (mkHTTP 404 "Job not found"))
            | Some row =>
                inr (mkCancelResponse job_id (status row)
                                      "Job not running; no cancel needed")
            end
        end, snd (next_fault w))
     /\ jobs (snd (cancel_job job_id w)) = jobs w
     /\ RUNNING_JOBS (snd (cancel_job job_id w)) = RUNNING_JOBS w
     /\ events (snd (cancel_job job_id w)) = events w
     /\ history (snd (cancel_job job_id w)) = history w)
    /\ (forall (exc : HTTPException) (w' : World),
           cancel_job job_id w = (inl (HTTP exc), w') ->
           RUNNING_JOBS w !! job_id = None /\ jobs w !! job_id = None
           /\ fst (next_fault w) = None
           /\ status_code exc = 404 /\ detail exc = "Job not found").
Proof.
  intros job_id w. unfold cancel_job.
  destruct (next_fault_frame w) as (Hj & Hr & He & _ & _ & Hh).
  destruct (next_fault w) as [[f|] w1] eqn:Hnext; cbn [fst snd] in *.
  - split.
    + intros ->. cbn [snd]. auto.
    + intros exc w'. destruct (RUNNING_JOBS w !! job_id); discriminate.
  - split.
    + intros ->. rewrite Hj.
      destruct (jobs w !! job_id); cbn [snd]; auto.
    + intros exc w'. destruct (RUNNING_JOBS w !! job_id); [discriminate|].
      rewrite Hj. destruct (jobs w !! job_id); [discriminate|].
      intros [= <- <-]. repeat split.
Qed.

Lemma C6_cancel_unknown_job_witness :
  let w := snd (record_job "job-1" "output/job-1"
                           (empty_world "2025-01-01T00:00:00")) in
  let finished := set_RUNNING_JOBS (delete "job-1" (RUNNING_JOBS w)) w in
  cancel_job "job-1" finished
  = (inr (mkCancelResponse "job-1" "queued"
                           "Job not running; no cancel needed"), finished)
  /\ fst (cancel_job "job-2" finished)
     = inl (HTTP (mkHTTP 404 "Job not found")).
Proof.
  split.
  - exact (proj1 (proj1 (C6_cancel_unknown_job "job-1"
             (set_RUNNING_JOBS
                (delete "job-1"
                   (RUNNING_JOBS
                      (snd (record_job "job-1" "output/job-1"
                              (empty_world "2025-01-01T00:00:00")))))
                (snd (record_job "job-1" "output/job-1"
                        (empty_world "2025-01-01T00:00:00")))))
             eq_refl)).
  - vm_compute. reflexivity.
Defined.

End JobsFacts.

(* ===================================================================== *)
(** * Properties of run_survey_mapper *)
(* ===================================================================== *)

Module OrchestratorFacts.
Import Jobs Orchestrator.

(** C3, evaluated on the scenario of the specification: the first
    checkpoint returns {success: False, errors: ["grid failed"]} and logs
    nothing.  The run ends, the job is failed and the second checkpoint is
    never called, but the error text is first "Grid processing failed" and
    then the fail-fast text set off by the orchestrator's own record
    "Step 1 failed"; the error list of the step is not in it. *)
Theorem C3_grid_failed_text_is_lost :
  let job := submitted "job-1" in
  let r := run_survey_mapper "job-1" "output/job-1" (fst job)
                             (with_step1 grid_failed smooth_env) (snd job) in
  fst r = Done tt
  /\ (status <$> jobs (snd r) !! "job-1") = Some "failed"
  /\ (error <$> jobs (snd r) !! "job-1")
     = Some (Some "after step1: Fail-fast due to error in logs: Step 1 failed")
  /\ Py.contains "grid failed"
       "after step1: Fail-fast due to error in logs: Step 1 failed" = false
  /\ Py.contains "grid failed" "Grid processing failed" = false
  /\ invoked (snd r) = [C_process_grid_sheet]
  /\ job_history "job-1" (snd r) = ["queued"; "processing"; "failed"; "failed"].
Proof. vm_compute. repeat split. Qed.

(** C5, evaluated where it fails: an exception of the lines before the
    [try] (the construction of the job logger, the search of the log file,
    the construction of the watcher) leaves [run_survey_mapper] as it is,
    with the world untouched: the status is not written and the token stays
    in the registry. *)
Theorem C5_setup_exception_escapes :
  forall (job_id output_dir exc : string) (cancel_event : nat) (env : Env)
         (w : World),
    run_survey_mapper job_id output_dir cancel_event
                      (with_setup_exc (Some exc) env) w
    = (Raised exc, w)
    /\ (let job := submitted "job-1" in
        let r := run_survey_mapper "job-1" "output/job-1" (fst job)
                   (with_setup_exc
                      (Some "[Errno 13] Permission denied: 'output/job-1/logs'")
                      smooth_env) (snd job) in
        (status <$> jobs (snd r) !! "job-1") = Some "queued"
        /\ RUNNING_JOBS (snd r) !! "job-1" = Some (fst job)).
Proof.
  intros. split; [reflexivity|]. vm_compute. repeat split.
Qed.

(** The part of C5 that holds: when the lines before the [try] raise
    nothing, the run raises nothing, whatever happens inside the [try], and
    the token of the job is out of the registry when it ends. *)
Lemma setup_ok (env : Env) (w : World) :
  setup_exc env = None ->
  setup env w
  = (Done tt, set_watcher (Watcher.init (latest_log env) true)
                          (set_job_log [] w)).
Proof. intros H. unfold setup, raise_if. now rewrite H. Qed.

Lemma handler_never_raises (job_id : string) (exc : string) (w : World) :
  exists w', (update job_id "failed" (Some exc) ;;
              exception "Unhandled error in job") w = (Done tt, w').
Proof. eexists. reflexivity. Qed.

Lemma finalizer_pops (job_id : string) (w : World) :
  exists w',
    (shared (fun w => (tt, set_RUNNING_JOBS (delete job_id (RUNNING_JOBS w)) w)) ;;
     info "Job finalizer finished") w = (Done tt, w')
    /\ RUNNING_JOBS w' !! job_id = None
    /\ jobs w' = jobs (interfere w) /\ history w' = history (interfere w).
Proof.
  eexists. split; [reflexivity|]. simpl.
  split; [apply lookup_delete_eq|]. split; reflexivity.
Qed.

Lemma run_inside_try_never_raises (job_id output_dir : string)
      (cancel_event : nat) (env : Env) (w : World) :
  setup_exc env = None ->
  let r := run_survey_mapper job_id output_dir cancel_event env w in
  fst r = Done tt /\ RUNNING_JOBS (snd r) !! job_id = None.
Proof.
  intros Hsetup. cbv zeta.
  assert (Hrun : run_survey_mapper job_id output_dir cancel_event env w
                 = def (try_finally
                          (try_except
                             (run_body job_id output_dir cancel_event env)
                             (fun exc =>
                                update job_id "failed" (Some exc) ;;
                                exception "Unhandled error in job"))
                          (shared (fun w => (tt, set_RUNNING_JOBS
                                                   (delete job_id (RUNNING_JOBS w)) w)) ;;
                           info "Job finalizer finished"))
                       (set_watcher (Watcher.init (latest_log env) true)
                                    (set_job_log [] w))).
  { unfold run_survey_mapper, def. unfold bind at 1.
    now rewrite (setup_ok env w Hsetup). }
  rewrite Hrun. unfold def.
  unfold try_finally, try_except.
  destruct (run_body job_id output_dir cancel_event env _) as [[[]| |e] w1].
  - destruct (finalizer_pops job_id w1) as (w' & -> & Hpop & _).
    split; [reflexivity | exact Hpop].
  - destruct (finalizer_pops job_id w1) as (w' & -> & Hpop & _).
    split; [reflexivity | exact Hpop].
  - destruct (handler_never_raises job_id e w1) as (w2 & ->).
    destruct (finalizer_pops job_id w2) as (w' & -> & Hpop & _).
    split; [reflexivity | exact Hpop].
Qed.

(** ** The status of a job under every interleaving *)

Lemma path_ok_snoc (edge : string -> string -> bool) (h : list string)
      (t : string) :
  path_ok edge (h ++ [t])
  = path_ok edge h
    && match last h with Some s => edge s t | None => true end.
Proof.
  induction h as [|a h IH]; [reflexivity|].
  destruct h as [|b h]; [simpl; now rewrite andb_true_r|].
  change (path_ok edge ((a :: b :: h) ++ [t]))
    with (edge a b && path_ok edge ((b :: h) ++ [t])).
  rewrite IH. change (last (a :: b :: h)) with (last (b :: h)).
  change (path_ok edge (a :: b :: h)) with (edge a b && path_ok edge (b :: h)).
  now rewrite andb_assoc.
Qed.

Lemma job_history_snoc (job_id j t : string) (w w' : World) :
  history w' = (history w ++ [(j, t)])%list ->
  job_history job_id w'
  = if String.eqb j job_id then (job_history job_id w ++ [t])%list
    else job_history job_id w.
Proof.
  intros H. unfold job_history. rewrite H, List.filter_app, map_app. simpl.
  destruct (String.eqb j job_id); simpl; [reflexivity|apply app_nil_r].
Qed.

Lemma job_history_same (job_id : string) (w w' : World) :
  history w' = history w -> job_history job_id w' = job_history job_id w.
Proof. unfold job_history. now intros ->. Qed.

Lemma Inv_ext (job_id : string) (T : list string) (w w' : World) :
  jobs w' = jobs w -> history w' = history w ->
  Inv job_id T w -> Inv job_id T w'.
Proof.
  intros Hj Hh (row & H1 & H2 & H3 & H4 & H5). exists row.
  rewrite Hj, (job_history_same job_id w w' Hh). auto.
Qed.

Lemma Inv_mono (job_id : string) (T T' : list string) (w : World) :
  (forall s, In s T -> In s T') -> Inv job_id T w -> Inv job_id T' w.
Proof.
  intros Hsub (row & H1 & H2 & H3 & H4 & H5). exists row.
  repeat split; try assumption. destruct H3; auto.
Qed.

Lemma Inv_any (job_id : string) (T : list string) (w : World) :
  (forall s, In s T -> terminal s = true) ->
  Inv job_id T w -> InvAny job_id w.
Proof.
  intros HT (row & H1 & H2 & H3 & H4 & H5). exists row.
  repeat split; try assumption. destruct H3 as [H3|H3]; [now left|right].
  apply HT in H3. unfold terminal, one_of in H3. simpl in H3.
  rewrite orb_false_r in H3.
  apply orb_true_iff in H3 as [H3|H3];
    [|apply orb_true_iff in H3 as [H3|H3]];
    apply String.eqb_eq in H3; subst; simpl; auto.
Qed.

Lemma Inv_drop (job_id t : string) (T : list string) (w : World) :
  nonterminal t = true -> Inv job_id (t :: T) w -> Inv job_id T w.
Proof.
  intros Ht (row & H1 & H2 & H3 & H4 & H5). exists row.
  repeat split; try assumption.
  destruct H3 as [H3|[H3|H3]]; [now left | left; now rewrite <- H3 | now right].
Qed.

(** An UPDATE of the status of the job extends the path when the graph has
    an edge from every status that may be stored. *)
Lemma Inv_write (job_id t now_ : string) (e : option string)
      (T : list string) (w : World) :
  (forall s, nonterminal s = true \/ In s T -> code_edge s t = true) ->
  Inv job_id T w ->
  Inv job_id (t :: T) (sql_update_status job_id t now_ e w).
Proof.
  intros Hedge (row & H1 & H2 & H3 & H4 & H5).
  exists (updated_row t now_ e row).
  assert (Hh : history (sql_update_status job_id t now_ e w)
               = (history w ++ [(job_id, t)])%list).
  { unfold sql_update_status. now rewrite H1. }
  rewrite (job_history_snoc job_id job_id t w _ Hh), String.eqb_refl.
  rewrite JobsFacts.sql_update_status_lookup, H1.
  destruct (decide (job_id = job_id)) as [_|Hne]; [|congruence].
  repeat split.
  - exact H2.
  - right. now left.
  - rewrite path_ok_snoc, H4, H5. simpl. now apply Hedge.
  - apply last_snoc.
Qed.

Lemma Inv_cancel_update (job_id j now_ : string) (T : list string)
      (w : World) :
  Inv job_id T w -> Inv job_id T (sql_cancel_update j now_ w).
Proof.
  intros HI. unfold sql_cancel_update.
  destruct (jobs w !! j) as [r|] eqn:Hr; [|exact HI].
  destruct (one_of (status r) ["queued"; "processing"]) eqn:Hs; [|exact HI].
  destruct HI as (row & H1 & H2 & H3 & H4 & H5).
  destruct (String.eqb j job_id) eqn:Hj.
  - apply String.eqb_eq in Hj. subst j. rewrite H1 in Hr.
    injection Hr as <-.
    eexists. simpl. rewrite lookup_insert_eq. split; [reflexivity|].
    simpl. split; [exact H2|]. split; [now left|].
    unfold job_history. simpl.
    rewrite List.filter_app, map_app. simpl. rewrite String.eqb_refl. simpl.
    fold (job_history job_id w). rewrite path_ok_snoc, H4, H5. simpl.
    split; [|apply last_snoc].
    unfold code_edge. rewrite Hs. simpl. rewrite !andb_false_r. reflexivity.
  - exists row. simpl.
    rewrite lookup_insert_ne
      by (intros ->; now rewrite String.eqb_refl in Hj).
    split; [exact H1|]. split; [exact H2|]. split; [exact H3|].
    unfold job_history. simpl.
    rewrite List.filter_app, map_app. simpl. rewrite Hj. simpl.
    rewrite app_nil_r. fold (job_history job_id w). auto.
Qed.

Lemma Inv_interference (job_id : string) (T : list string) (w : World)
      (i : Interference) :
  Inv job_id T w -> Inv job_id T (apply_interference w i).
Proof.
  destruct i as [j|ev|now]; simpl.
  - apply Inv_cancel_update.
  - now apply Inv_ext.
  - now apply Inv_ext.
Qed.

Lemma Inv_interfere (job_id : string) (T : list string) (w : World) :
  Inv job_id T w -> Inv job_id T (interfere w).
Proof.
  intros HI. unfold interfere. destruct (pending w) as [|batch later];
    [exact HI|].
  assert (H0 : Inv job_id T (set_pending later w)) by now apply (Inv_ext _ _ w).
  revert H0. generalize (set_pending later w).
  induction batch as [|i batch IH]; intros w0 H0; simpl; [exact H0|].
  apply IH. now apply Inv_interference.
Qed.

Lemma update_loop_inv (job_id t : string) (e : option string) (retries : Z)
      (backoff : Q) (now_ : string) (T : list string) :
  (forall s, nonterminal s = true \/ In s T -> code_edge s t = true) ->
  forall (fuel : nat) (attempt : Z) (w w' : World),
    update_loop fuel job_id t e retries backoff now_ attempt w = Some w' ->
    Inv job_id T w -> Inv job_id (t :: T) w'.
Proof.
  intros Hedge. induction fuel as [|fuel IH]; intros attempt w w' Hrun HI;
    [discriminate|].
  simpl in Hrun. apply Inv_interfere in HI.
  unfold next_fault in Hrun.
  destruct (db_faults (interfere w)) as [|[f|] later].
  - injection Hrun as <-. now apply Inv_write.
  - assert (HI' : Inv job_id T
                    (log_attempt (attempt + 1) job_id t f
                                 (set_db_faults later (interfere w)))).
    { unfold log_attempt. destruct (fault_log_raises f);
        now apply (Inv_ext _ _ (interfere w)). }
    destruct (retries <=? attempt + 1).
    + injection Hrun as <-. eapply Inv_mono; [|exact HI']. intros; now right.
    + eapply IH; [exact Hrun|]. now apply (Inv_ext _ _ _ _ eq_refl eq_refl).
  - injection Hrun as <-. apply Inv_write; [exact Hedge|].
    now apply (Inv_ext _ _ (interfere w)).
Qed.

Lemma update_inv (job_id t : string) (e : option string) (T : list string)
      (w : World) :
  (forall s, nonterminal s = true \/ In s T -> code_edge s t = true) ->
  Inv job_id T w ->
  Inv job_id (t :: T)
      (update_status_safe job_id t e default_retries default_backoff w).
Proof.
  intros Hedge HI. unfold update_status_safe.
  destruct (update_loop _ _ _ _ _ _ _ _ _) as [w'|] eqn:Hrun; simpl.
  - eapply update_loop_inv; eauto.
  - eapply Inv_mono; [|exact HI]. intros; now right.
Qed.

(** ** Rules for [triple] *)

Section Triples.
Variable job_id : string.

Lemma triple_bind {A B} (P : World -> Prop) (c : M A) (k : A -> M B)
      (R : A -> World -> Prop) (R' : B -> World -> Prop) :
  triple job_id P c R ->
  (forall a, triple job_id (R a) (k a) R') ->
  triple job_id P (bind c k) R'.
Proof.
  intros Hc Hk w HP. unfold bind. specialize (Hc w HP).
  destruct (c w) as [[a| |e] w']; auto. now apply Hk.
Qed.

Lemma triple_ret {A} (P : World -> Prop) (a : A) (R : A -> World -> Prop) :
  (forall w, P w -> R a w) -> triple job_id P (ret a) R.
Proof. intros H w HP. simpl. auto. Qed.

Lemma triple_return {A} (P : World -> Prop) (R : A -> World -> Prop) :
  (forall w, P w -> InvAny job_id w) -> triple job_id P return_ R.
Proof. intros H w HP. simpl. auto. Qed.

Lemma Inv_nil_complete (w : World) :
  Inv job_id [] w -> Inv job_id ["complete"] w.
Proof. apply Inv_mono. intros s []. Qed.

Lemma triple_raise {A} (P : World -> Prop) (exc : string)
      (R : A -> World -> Prop) :
  (forall w, P w -> Inv job_id [] w) -> triple job_id P (raise exc) R.
Proof. intros H w HP. simpl. auto using Inv_nil_complete. Qed.

Lemma triple_raise_complete {A} (exc : string) (R : A -> World -> Prop) :
  triple job_id (Inv job_id ["complete"]) (raise exc) R.
Proof. intros w HP. exact HP. Qed.

Lemma triple_post {A} (P : World -> Prop) (c : M A)
      (R R' : A -> World -> Prop) :
  triple job_id P c R -> (forall a w, R a w -> R' a w) ->
  triple job_id P c R'.
Proof.
  intros Hc HR w HP. specialize (Hc w HP).
  destruct (c w) as [[a| |e] w']; auto.
Qed.

Lemma triple_pre {A} (P P' : World -> Prop) (c : M A)
      (R : A -> World -> Prop) :
  (forall w, P w -> P' w) -> triple job_id P' c R -> triple job_id P c R.
Proof. intros HP Hc w Hw. apply Hc. now apply HP. Qed.

Lemma triple_local (P : World -> Prop) (f : World -> World)
      (R : unit -> World -> Prop) :
  (forall w, P w -> R tt (f w)) -> triple job_id P (local f) R.
Proof. intros H w HP. simpl. auto. Qed.

Lemma triple_store {A} (f : World -> A * World) (R : A -> World -> Prop) :
  (forall w, Inv job_id ["complete"] w -> R (fst (f w)) (snd (f w))) ->
  triple job_id (Inv job_id ["complete"]) (store f) R.
Proof.
  intros H w HP. unfold store. apply Inv_interfere in HP.
  unfold next_fault. destruct (db_faults (interfere w)) as [|[flt|] later].
  - specialize (H _ HP). now destruct (f (interfere w)).
  - now apply (Inv_ext _ _ (interfere w)).
  - assert (HP' : Inv job_id ["complete"]
                      (set_db_faults later (interfere w)))
      by now apply (Inv_ext _ _ (interfere w)).
    specialize (H _ HP'). now destruct (f (set_db_faults later (interfere w))).
Qed.

Lemma triple_shared {A} (P : World -> Prop) (f : World -> A * World)
      (R : A -> World -> Prop) :
  (forall w, P w -> R (fst (f (interfere w))) (snd (f (interfere w)))) ->
  triple job_id P (shared f) R.
Proof.
  intros H w HP. unfold shared. specialize (H w HP).
  now destruct (f (interfere w)).
Qed.

Lemma triple_try_except {A} (P : World -> Prop) (body : M A)
      (handler : string -> M A) (R : A -> World -> Prop) :
  triple job_id P body R ->
  (forall exc, triple job_id (Inv job_id ["complete"]) (handler exc) R) ->
  triple job_id P (try_except body handler) R.
Proof.
  intros Hb Hh w HP. unfold try_except. specialize (Hb w HP).
  destruct (body w) as [[a| |e] w']; auto. now apply Hh.
Qed.

(** *** The statements of the run *)

Lemma code_edge_from_nonterminal (s t : string) :
  one_of t ["processing"; "canceled"; "failed"; "complete"] = true ->
  nonterminal s = true -> code_edge s t = true.
Proof. intros Ht Hs. unfold code_edge. now rewrite Hs, Ht. Qed.

Lemma t_log (T : list string) (levelno : Z) (msg : string) :
  triple job_id (Inv job_id T) (job_logger_log levelno msg)
         (fun _ => Inv job_id T).
Proof.
  apply triple_local. intros w HI.
  destruct (Watcher.INFO <=? levelno); [|exact HI].
  now apply (Inv_ext _ _ w).
Qed.

Lemma t_scan (T : list string) (read : string + string) :
  triple job_id (Inv job_id T) (scan read) (fun _ => Inv job_id T).
Proof. apply triple_local. intros w HI. now apply (Inv_ext _ _ w). Qed.

Lemma t_is_set (T : list string) (ev : nat) :
  triple job_id (Inv job_id T) (is_set ev) (fun _ => Inv job_id T).
Proof. apply triple_shared. intros w HI. simpl. now apply Inv_interfere. Qed.

Lemma t_update (T : list string) (t : string) (e : option string) :
  (forall s, nonterminal s = true \/ In s T -> code_edge s t = true) ->
  triple job_id (Inv job_id T) (update job_id t e)
         (fun _ => Inv job_id (t :: T)).
Proof.
  intros Hedge. apply triple_local. intros w HI. now apply update_inv.
Qed.

Lemma t_update_processing (e : option string) :
  triple job_id (Inv job_id []) (update job_id "processing" e)
         (fun _ => Inv job_id []).
Proof.
  eapply triple_post.
  - apply (t_update [] "processing").
    intros s [Hs|[]]. now apply code_edge_from_nonterminal.
  - intros ? w. now apply Inv_drop.
Qed.

Lemma t_update_terminal (t : string) (e : option string) :
  one_of t ["canceled"; "failed"; "complete"] = true ->
  triple job_id (Inv job_id []) (update job_id t e) (fun _ => InvAny job_id).
Proof.
  intros Ht. eapply triple_post.
  - apply (t_update [] t).
    intros s [Hs|[]]. apply code_edge_from_nonterminal; [|exact Hs].
    unfold one_of in *. simpl in *.
    destruct (String.eqb t "processing"); [reflexivity|exact Ht].
  - intros ? w. apply Inv_any. intros s [<-|[]]. exact Ht.
Qed.

(** The write of a handler: failed, over a status that is not terminal or
    over the complete that the run wrote. *)
Lemma t_update_handler (e : option string) :
  triple job_id (Inv job_id ["complete"]) (update job_id "failed" e)
         (fun _ => InvAny job_id).
Proof.
  eapply triple_post.
  - apply (t_update ["complete"] "failed").
    intros s [Hs|[<-|[]]]; [|reflexivity].
    now apply code_edge_from_nonterminal.
  - intros ? w. apply Inv_any. intros s [<-|[<-|[]]]; reflexivity.
Qed.

Lemma t_update_failed (e : option string) :
  triple job_id (fun w => Inv job_id [] w \/ Inv job_id ["failed"] w)
         (update job_id "failed" e) (fun _ => Inv job_id ["failed"]).
Proof.
  intros w [HI|HI].
  - apply (t_update [] "failed" e); [|exact HI].
    intros s [Hs|[]]. now apply code_edge_from_nonterminal.
  - generalize (t_update ["failed"] "failed" e). intros Ht.
    unfold triple in Ht. specialize (Ht
      ltac:(intros s [Hs|[<-|[]]];
            [now apply code_edge_from_nonterminal|reflexivity]) w HI).
    unfold update, local in *. eapply Inv_mono; [|exact Ht].
    intros s [<-|H]; [now left|exact H].
Qed.

Lemma t_raise_if (exc : option string) :
  triple job_id (Inv job_id []) (raise_if exc) (fun _ => Inv job_id []).
Proof.
  destruct exc; [now apply triple_raise | now apply triple_ret].
Qed.

Lemma fold_log_frame (l : list Watcher.LogRecord) (w : World) :
  let w' := fold_left
              (fun w r =>
                 match job_logger_log (Watcher.levelno r)
                                      (Watcher.getMessage r) w with
                 | (_, w') => w'
                 end) l w in
  jobs w' = jobs w /\ history w' = history w.
Proof.
  revert w. induction l as [|r l IH]; intros w; simpl; [now split|].
  destruct (IH (let (_, w') := job_logger_log (Watcher.levelno r)
                                              (Watcher.getMessage r) w in w'))
    as [H1 H2].
  simpl in *. rewrite H1, H2. unfold job_logger_log, local.
  destruct (Watcher.INFO <=? Watcher.levelno r); now split.
Qed.

Lemma t_call_step (c : Call) (s : StepOutcome) :
  triple job_id (Inv job_id []) (call_step c s) (fun _ => Inv job_id []).
Proof.
  unfold call_step.
  eapply triple_bind;
    [apply triple_local with (R := fun _ => Inv job_id [])|intros ?].
  { intros w HI. now apply (Inv_ext _ _ w). }
  eapply triple_bind;
    [apply triple_local with (R := fun _ => Inv job_id [])|intros ?].
  { intros w HI. destruct (fold_log_frame (emitted s) w) as [H1 H2].
    now apply (Inv_ext _ _ w). }
  destruct (outcome s); [now apply triple_raise | now apply triple_ret].
Qed.

Lemma t_cancel_check (ev : nat) (err log_msg : string) :
  triple job_id (Inv job_id []) (cancel_check job_id ev err log_msg)
         (fun _ => Inv job_id []).
Proof.
  unfold cancel_check.
  eapply triple_bind; [apply t_is_set|intros c].
  destruct c; [|now apply triple_ret].
  eapply triple_bind; [now apply (t_update_terminal "canceled")|intros ?].
  eapply triple_bind; [apply t_log|intros ?].
  now apply triple_return.
Qed.

Lemma Inv_failed_any (w : World) : Inv job_id ["failed"] w -> InvAny job_id w.
Proof. apply Inv_any. intros s [<-|[]]. reflexivity. Qed.

Lemma Inv_nil_any (w : World) : Inv job_id [] w -> InvAny job_id w.
Proof. apply Inv_any. intros s []. Qed.

Lemma t_abort (P : World -> Prop) (prefix : string) (read : string + string) :
  (forall w, P w -> Inv job_id [] w \/ Inv job_id ["failed"] w) ->
  (forall w w', jobs w' = jobs w -> history w' = history w -> P w -> P w') ->
  triple job_id P (_abort_if_error job_id prefix read)
         (fun (b : bool) w => if b then InvAny job_id w else P w).
Proof.
  intros HP Hext. unfold _abort_if_error.
  eapply triple_bind with (R := fun _ => P).
  { apply triple_local. intros w Hw. now apply (Hext w). }
  intros ? w Hw.
  destruct (Watcher.error_message (watcher w)) as [m|]; [|exact Hw].
  destruct (Py.truthy m); [|exact Hw].
  revert w Hw. change (triple job_id P
    (update job_id "failed"
            (Some (prefix ++ "Fail-fast due to error in logs: " ++ m)) ;;
     error_ (prefix ++ "Fail-fast due to error in logs: " ++ m) ;;
     ret true)
    (fun (b : bool) w => if b then InvAny job_id w else P w)).
  eapply triple_bind with (R := fun _ => Inv job_id ["failed"]).
  { intros w Hw. apply t_update_failed. now apply HP. }
  intros ?. eapply triple_bind; [apply t_log|intros ?].
  apply triple_ret. intros w. apply Inv_failed_any.
Qed.

Lemma Inv_update_zip (T : list string) (zip now_ : string) (w : World) :
  Inv job_id T w -> Inv job_id T (sql_update_zip job_id zip now_ w).
Proof.
  intros (row & H1 & H2 & H3 & H4 & H5). unfold sql_update_zip.
  rewrite H1. eexists. simpl. rewrite lookup_insert_eq.
  split; [reflexivity|]. simpl. unfold job_history in *. simpl. auto.
Qed.

(** Whatever the store answers and whether the archive is there or not,
    [save_final_zip_location] leaves the status as it is: it ends, or it
    raises, with complete as the only terminal status written. *)
Lemma t_save_final_zip_location (zip_location : string) (env : Env) :
  triple job_id (Inv job_id ["complete"])
         (save_final_zip_location job_id zip_location env)
         (fun _ => Inv job_id ["complete"]).
Proof.
  unfold save_final_zip_location.
  eapply triple_bind with (R := fun _ => Inv job_id ["complete"]).
  { apply triple_store. intros w HI. exact HI. }
  intros [r|]; [|apply triple_raise_complete].
  eapply triple_bind with (R := fun _ => Inv job_id ["complete"]).
  { apply triple_shared. intros w HI. simpl. now apply Inv_interfere. }
  intros running_ev.
  destruct (bool_decide (is_Some running_ev)
            && one_of (status r) ["queued"; "processing"; "cancelling"]);
    [apply triple_raise_complete|].
  destruct (negb (Py.truthy zip_location && zip_exists env));
    [apply triple_raise_complete|].
  destruct (negb (zip_still_exists env)); [apply triple_raise_complete|].
  destruct (negb (Py.truthy_opt (output_dir r)));
    [apply triple_raise_complete|].
  apply triple_store. intros w HI. simpl. now apply Inv_update_zip.
Qed.

End Triples.

Section Run.
Variable job_id : string.

Ltac neutral :=
  first [ apply t_log | apply t_scan | apply t_is_set | apply t_raise_if
        | apply t_call_step | apply t_cancel_check
        | apply t_update_processing ].

Ltac next := eapply triple_bind; [neutral|intros ?].

Ltac fail_and_return :=
  eapply triple_bind; [now apply (t_update_terminal job_id "failed")|intros ?];
  eapply triple_bind; [apply t_log|intros ?];
  now apply triple_return.

Lemma t_exit_if_aborted (P : World -> Prop) (aborted : bool)
      (R : unit -> World -> Prop) :
  (forall w, P w -> R tt w) ->
  triple job_id (fun w => if aborted then InvAny job_id w else P w)
         (if aborted then return_ else ret tt) R.
Proof.
  intros H. destruct aborted; [now apply triple_return|now apply triple_ret].
Qed.

Lemma t_step1_failed (env : Env) :
  @triple unit job_id (Inv job_id [])
         (update job_id "failed" (Some "Grid processing failed") ;;
          error_ "Step 1 failed" ;;
          aborted <- _abort_if_error job_id "after step1: "
                                     (read_after_step1 env) ;;
          (if aborted : bool then return_ else ret tt) ;;
          return_)
         (fun _ => InvAny job_id).
Proof.
  eapply triple_bind with (R := fun _ => Inv job_id ["failed"]).
  { intros w HI. apply (t_update_failed job_id). now left. }
  intros ?. eapply triple_bind; [apply t_log|intros ?].
  eapply triple_bind.
  { apply (t_abort job_id (Inv job_id ["failed"])).
    - intros w; now right.
    - intros w w' Hj Hh. now apply Inv_ext. }
  intros aborted.
  eapply triple_bind.
  { apply (t_exit_if_aborted (Inv job_id ["failed"]) aborted
                             (fun _ => Inv job_id ["failed"])). auto. }
  intros ?. apply triple_return. apply Inv_failed_any.
Qed.

Ltac abort_check :=
  eapply triple_bind;
  [ apply (t_abort job_id (Inv job_id []));
    [ intros w; now left | intros w w' Hj Hh; now apply Inv_ext ]
  | let b := fresh "aborted" in
    intros b;
    eapply triple_bind;
    [ apply (t_exit_if_aborted (Inv job_id []) b (fun _ => Inv job_id []));
      auto
    | intros ? ] ].

(** The body of the [try]: where it ends or returns, the statuses written
    for the job are a path of the graph of the source; where it raises, no
    terminal status but complete has been written. *)
Lemma t_run_body (output_dir : string) (cancel_event : nat) (env : Env) :
  triple job_id (Inv job_id [])
         (run_body job_id output_dir cancel_event env)
         (fun _ => InvAny job_id).
Proof.
  unfold run_body.
  next. next.
  abort_check.
  next.
  eapply triple_bind with (R := fun _ => Inv job_id []).
  { destruct (db_fetch env) as [[exc|]|].
    - next. next. neutral.
    - next. neutral.
    - now apply triple_ret. }
  intros ?. next. next. next. next. next. next.
  eapply triple_bind; [neutral|intros step1].
  destruct step1 as [|[[] d1 e1]]; try apply t_step1_failed.
  next. next. next.
  eapply triple_bind; [neutral|intros step2].
  destruct step2 as [|step2]; [fail_and_return|].
  eapply triple_bind with (R := fun _ => Inv job_id []).
  { destruct (success step2); [now apply triple_ret|].
    eapply triple_bind with (R := fun _ => Inv job_id []).
    { destruct (errors step2); simpl;
        first [now apply triple_ret | now apply triple_raise]. }
    intros msg. fail_and_return. }
  intros ?. next. next. next.
  abort_check.
  eapply triple_bind with (R := fun _ => Inv job_id []).
  { apply triple_try_except.
    - next. eapply triple_bind; [|intros ?].
      { apply triple_local with (R := fun _ => Inv job_id []).
        intros w HI. now apply (Inv_ext _ _ w). }
      next. neutral.
    - intros xc.
      eapply triple_bind; [apply t_update_handler|intros ?].
      eapply triple_bind; [apply t_log|intros ?].
      now apply triple_return. }
  intros ?. next.
  eapply triple_bind with (R := fun _ => Inv job_id ["complete"]).
  { apply (t_update job_id [] "complete").
    intros s [Hs|[]]. now apply code_edge_from_nonterminal. }
  intros ?.
  eapply triple_bind; [apply t_save_final_zip_location|intros ?].
  eapply triple_post; [apply t_log|].
  intros ? w. apply Inv_any. intros s [<-|[]]. reflexivity.
Qed.

End Run.

Lemma terminal_cases (s : string) :
  terminal s = true -> s = "canceled" \/ s = "failed" \/ s = "complete".
Proof.
  unfold terminal, one_of. simpl. rewrite orb_false_r. intros H.
  apply orb_true_iff in H as [H|H];
    [|apply orb_true_iff in H as [H|H]];
    apply String.eqb_eq in H; auto.
Qed.

Lemma code_edge_terminal (s t : string) :
  terminal s = true -> code_edge s t = true ->
  (s = "failed" \/ s = "complete") /\ t = "failed".
Proof.
  intros Hs He. destruct (terminal_cases s Hs) as [H|[H|H]]; subst s;
    unfold code_edge in He; simpl in He; try discriminate;
    rewrite ?orb_false_r in He; apply String.eqb_eq in He; auto.
Qed.

(** C1, as the claim states it, fails: a job is cancelled while queued and
    the orchestrator then runs.  The handler writes cancelling over queued,
    the orchestrator writes processing over cancelling, sees the token and
    writes canceled over processing; none of the three is an edge of the
    graph of the claim. *)
Lemma C1_cancel_before_start_leaves_graph :
  let job := submitted "job-1" in
  let cancelled := cancel_job "job-1" (snd job) in
  let r := run_survey_mapper "job-1" "output/job-1" (fst job) smooth_env
                             (snd cancelled) in
  fst cancelled
  = inr (mkCancelResponse "job-1" "cancelling" "Cancellation requested")
  /\ job_history "job-1" (snd r)
     = ["queued"; "cancelling"; "processing"; "canceled"]
  /\ spec_edge "cancelling" "processing" = false
  /\ spec_edge "processing" "canceled" = false
  /\ path_ok spec_edge (job_history "job-1" (snd r)) = false.
Proof. vm_compute. repeat split. Qed.

(** The edge from complete to failed of the graph of the source: when
    [FSPath(zip_location).exists()] is false after the zipping,
    [save_final_zip_location] raises, and the handler of the run writes
    failed over the complete it has just written. *)
Lemma complete_overwritten_when_zip_is_missing :
  let job := submitted "job-1" in
  let env := {| setup_exc := None; latest_log := latest_log smooth_env;
                read_pre_start := inl ""; read_after_step1 := inl "";
                read_before_zip := inl ""; db_fetch := None;
                build_logger_exc := None; config_exc := None;
                processor_exc := None; step1 := step1 smooth_env;
                step2 := step2 smooth_env; zip_exc := None;
                zip_exists := false; zip_still_exists := false;
                fspath := fspath smooth_env |} in
  let r := run_survey_mapper "job-1" "output/job-1" (fst job) env (snd job) in
  job_history "job-1" (snd r) = ["queued"; "processing"; "complete"; "failed"]
  /\ (error <$> jobs (snd r) !! "job-1")
     = Some (Some "No active exception to reraise").
Proof. vm_compute. split; reflexivity. Qed.

(** The same edge, taken with the archive in place: the store accepts the
    two writes of the status and is locked when [save_final_zip_location]
    reads the record of the job. *)
Lemma complete_overwritten_when_store_fails :
  let job := submitted "job-1" in
  let w := set_db_faults
             [None; None; Some (mkFault "database is locked" false)]
             (snd job) in
  let r := run_survey_mapper "job-1" "output/job-1" (fst job) smooth_env w in
  job_history "job-1" (snd r) = ["queued"; "processing"; "complete"; "failed"]
  /\ (error <$> jobs (snd r) !! "job-1") = Some (Some "database is locked").
Proof. vm_compute. split; reflexivity. Qed.

(** C1, amended: for a job whose record is in a non-terminal status and has
    an output directory, and whose statuses so far form a path of the graph
    of the source, the statuses after a run of the orchestrator still form
    such a path, whatever the engine, the file system and the store answer
    and however the writes of the cancellation handlers, the settings of
    tokens and the clock interleave with the run.  The graph of the source
    has the edges: from queued, processing and cancelling to processing,
    canceled, failed and complete (the writes of the orchestrator, which
    are unconditional); from queued and processing to cancelling (the
    guarded write of the handlers); from failed to failed; and from
    complete to failed (the write of the handler of the run when the
    recording of the archive raises).  So a canceled job is never written
    again, a failed or complete job only as failed, and the UPDATE of the
    cancellation handlers leaves a job in a terminal status as it is. *)
Theorem C1_status_follows_code_graph :
  forall (job_id dir : string) (cancel_event : nat) (env : Env)
         (w : World) (row : Job),
    jobs w !! job_id = Some row ->
    nonterminal (status row) = true ->
    Py.truthy_opt (output_dir row) = true ->
    path_ok code_edge (job_history job_id w) = true ->
    last (job_history job_id w) = Some (status row) ->
    let w' := snd (run_survey_mapper job_id dir cancel_event env w) in
    path_ok code_edge (job_history job_id w') = true
    /\ (exists row', jobs w' !! job_id = Some row'
                     /\ last (job_history job_id w') = Some (status row'))
    /\ (forall s t, terminal s = true -> code_edge s t = true ->
                    (s = "failed" \/ s = "complete") /\ t = "failed")
    /\ (forall (j now_ : string) (w0 : World) (r : Job),
           jobs w0 !! j = Some r -> terminal (status r) = true ->
           sql_cancel_update j now_ w0 = w0).
Proof.
  intros job_id dir cancel_event env w row Hrow Hnt Hout Hpath Hlast w'.
  assert (HI : Inv job_id [] w) by (exists row; auto).
  assert (Hend : InvAny job_id w').
  { subst w'. unfold run_survey_mapper, def. unfold bind at 1.
    destruct (setup_exc env) as [exc|] eqn:Hsetup.
    - unfold setup, raise_if. rewrite Hsetup. simpl.
      now apply Inv_nil_any.
    - rewrite (setup_ok env w Hsetup). unfold try_finally.
      assert (Htry : triple job_id (Inv job_id [])
                       (try_except
                          (run_body job_id dir cancel_event env)
                          (fun exc =>
                             update job_id "failed" (Some exc) ;;
                             exception "Unhandled error in job"))
                       (fun _ => InvAny job_id)).
      { apply triple_try_except; [now apply t_run_body|].
        intros exc.
        eapply triple_bind; [apply t_update_handler|intros ?].
        apply (t_log job_id ["canceled"; "failed"; "complete"]). }
      specialize (Htry (set_watcher (Watcher.init (latest_log env) true)
                                    (set_job_log [] w))
                       (Inv_ext _ _ w _ eq_refl eq_refl HI)).
      destruct (try_except _ _ _) as [o w1].
      assert (H1 : InvAny job_id w1).
      { destruct o; auto. revert Htry. apply Inv_any.
        intros s [<-|[]]. reflexivity. }
      destruct (finalizer_pops job_id w1) as (w2 & -> & _ & Hj & Hh).
      assert (H2 : InvAny job_id w2).
      { apply (Inv_ext _ _ (interfere w1)); auto. now apply Inv_interfere. }
      now destruct o. }
  destruct Hend as (row' & H1 & H2 & H3 & H4 & H5).
  split; [exact H4|]. split; [exists row'; auto|].
  split; [apply code_edge_terminal|].
  intros j now_ w0 r Hr Ht. unfold sql_cancel_update. rewrite Hr.
  destruct (terminal_cases _ Ht) as [E|[E|E]]; rewrite E; reflexivity.
Qed.

Lemma C1_status_follows_code_graph_witness :
  let job := submitted "job-1" in
  let w := set_pending [[]; [ICancelUpdate "job-1"; ISetEvent (fst job)]]
                       (busy 2 (snd job)) in
  path_ok code_edge
          (job_history "job-1"
             (snd (run_survey_mapper "job-1" "output/job-1" (fst job)
                                     smooth_env w))) = true.
Proof.
  exact (proj1 (C1_status_follows_code_graph "job-1" "output/job-1"
                  (fst (submitted "job-1")) smooth_env
                  (set_pending
                     [[]; [ICancelUpdate "job-1";
                           ISetEvent (fst (submitted "job-1"))]]
                     (busy 2 (snd (submitted "job-1"))))
                  {| status := "queued"; created_at := "2025-01-01T00:00:00";
                     updated_at := "2025-01-01T00:00:00"; error := None;
                     output_dir := Some "output/job-1";
                     result_zip_path := None |}
                  eq_refl eq_refl eq_refl eq_refl eq_refl)).
Defined.

End OrchestratorFacts.

(* ===================================================================== *)
(** * Further properties of the log classifier *)
(* ===================================================================== *)

Module ClassifierMore.
Import Classifier.


Lemma insert_by_mtime_perm (x : LogFile) (l : list LogFile) :
  Permutation (insert_by_mtime x l) (x :: l).
Proof.
  induction l as [|y l IH]; simpl; [reflexivity|].
  destruct (st_mtime x <? st_mtime y); [reflexivity|].
  rewrite IH. apply perm_swap.
Qed.

Lemma sorted_by_mtime_cons (a : LogFile) (l : list LogFile) :
  sorted_by_mtime (a :: l) = true <->
  Forall (fun b => st_mtime a <= st_mtime b) l /\ sorted_by_mtime l = true.
Proof.
  revert a. induction l as [|b l IH]; intros a.
  - simpl. split; [intros _; split; [constructor|reflexivity] | reflexivity].
  - change (sorted_by_mtime (a :: b :: l))
      with ((st_mtime a <=? st_mtime b) && sorted_by_mtime (b :: l)).
    rewrite andb_true_iff, Z.leb_le. split.
    + intros [Hab Hs]. split; [|exact Hs].
      constructor; [exact Hab|].
      apply IH in Hs as [Hb _].
      eapply Forall_impl; [exact Hb|]. intros c Hc. cbv beta in Hc. lia.
    + intros [Ha Hs]. split; [|exact Hs]. now inversion Ha.
Qed.

Lemma insert_by_mtime_sorted (x : LogFile) (l : list LogFile) :
  sorted_by_mtime l = true -> sorted_by_mtime (insert_by_mtime x l) = true.
Proof.
  induction l as [|y l IH]; intros Hs; [reflexivity|].
  simpl insert_by_mtime. destruct (st_mtime x <? st_mtime y) eqn:Hxy.
  - apply sorted_by_mtime_cons. apply Z.ltb_lt in Hxy.
    apply sorted_by_mtime_cons in Hs as Hy. destruct Hy as [Hy _].
    split; [|exact Hs]. constructor; [lia|].
    eapply Forall_impl; [exact Hy|]. intros c Hc. cbv beta in Hc. lia.
  - apply Z.ltb_ge in Hxy.
    apply sorted_by_mtime_cons in Hs as [Hy Hs].
    apply sorted_by_mtime_cons. split; [|now apply IH].
    rewrite (insert_by_mtime_perm x l). now constructor.
Qed.

(** The files of one modification time stay in their order, the new file
    after them. *)
Lemma insert_by_mtime_stable (m : Z) (x : LogFile) (l : list LogFile) :
  sorted_by_mtime l = true ->
  with_mtime m (insert_by_mtime x l) = (with_mtime m l ++ with_mtime m [x])%list.
Proof.
  induction l as [|y l IH]; intros Hs; [reflexivity|].
  simpl insert_by_mtime. destruct (st_mtime x <? st_mtime y) eqn:Hxy.
  - apply Z.ltb_lt in Hxy.
    apply sorted_by_mtime_cons in Hs as [Hy _].
    unfold with_mtime. simpl.
    destruct (st_mtime x =? m) eqn:Hx; [|now rewrite app_nil_r].
    apply Z.eqb_eq in Hx.
    assert (Hy' : (st_mtime y =? m) = false) by (apply Z.eqb_neq; lia).
    rewrite Hy'.
    assert (Hl : List.filter (fun f => st_mtime f =? m) l = []).
    { clear -Hy Hxy Hx. induction Hy as [|z l Hz _ IH]; [reflexivity|].
      simpl. assert (E : (st_mtime z =? m) = false) by (apply Z.eqb_neq; lia).
      now rewrite E. }
    now rewrite Hl.
  - apply sorted_by_mtime_cons in Hs as [_ Hs].
    unfold with_mtime in *. simpl.
    destruct (st_mtime y =? m); rewrite (IH Hs); reflexivity.
Qed.

Lemma sort_fold (l acc : list LogFile) (m : Z) :
  sorted_by_mtime acc = true ->
  let r := fold_left (fun acc x => insert_by_mtime x acc) l acc in
  Permutation r (acc ++ l)
  /\ sorted_by_mtime r = true
  /\ with_mtime m r = (with_mtime m acc ++ with_mtime m l)%list.
Proof.
  revert acc. induction l as [|x l IH]; intros acc Hs; simpl.
  - rewrite !app_nil_r. repeat split; [reflexivity|exact Hs].
  - destruct (IH (insert_by_mtime x acc) (insert_by_mtime_sorted x acc Hs))
      as (Hp & Hsorted & Hst).
    split; [|split; [exact Hsorted|]].
    + simpl in Hp. rewrite Hp, (insert_by_mtime_perm x acc).
      simpl. apply Permutation_middle.
    + simpl in Hst. rewrite Hst, (insert_by_mtime_stable m x acc Hs).
      rewrite <- app_assoc. f_equal.
      unfold with_mtime. simpl. now destruct (st_mtime x =? m).
Qed.

Lemma sort_by_mtime_perm (l : list LogFile) : Permutation (sort_by_mtime l) l.
Proof. now destruct (sort_fold l [] 0 eq_refl) as (Hp & _). Qed.

(** X2: the sort of the candidate files is a stable sort by modification
    time: the result has the same files, oldest first, and the files that
    share a modification time keep the order in which the directory listing
    gave them. *)
Theorem sort_by_mtime_stable_sort :
  forall (l : list LogFile) (m : Z),
    Permutation (sort_by_mtime l) l
    /\ sorted_by_mtime (sort_by_mtime l) = true
    /\ with_mtime m (sort_by_mtime l) = with_mtime m l.
Proof.
  intros l m. destruct (sort_fold l [] m eq_refl) as (Hp & Hs & Hst).
  repeat split; assumption.
Qed.

Lemma lookup_old_after_append (b : Bucket) (e : LogEntry) (keep : bool)
      (c : Collector) (r : nat) :
  (r < length (objects c))%nat ->
  objects (append_entry b e keep c) !! r = objects c !! r.
Proof. intros H. simpl. now apply lookup_app_l. Qed.

Lemma lookup_new_after_append (b : Bucket) (e : LogEntry) (keep : bool)
      (c : Collector) :
  objects (append_entry b e keep c) !! length (objects c) = Some e.
Proof. simpl. rewrite lookup_app_r by lia. now rewrite Nat.sub_diag. Qed.

Lemma refs_of_append (b b' : Bucket) (e : LogEntry) (keep : bool)
      (c : Collector) :
  refs_of b' (append_entry b e keep c)
  = (refs_of b' c
     ++ match b, b' with
        | BInfo, BInfo | BWarning, BWarning | BError, BError =>
            [length (objects c)]
        | _, _ => []
        end)%list.
Proof. destruct b, b'; simpl; now rewrite ?app_nil_r. Qed.

Lemma wf_refs_of (b : Bucket) (c : Collector) :
  wf c -> Forall (fun r => (r < length (objects c))%nat) (refs_of b c).
Proof.
  intros [H _]. apply Forall_app in H as [Hi H].
  apply Forall_app in H as [Hw He]. now destruct b.
Qed.

Lemma all_entries_append (P : LogEntry -> Prop) (b b' : Bucket)
      (e : LogEntry) (keep : bool) (c : Collector) :
  wf c ->
  all_entries P c (refs_of b' c) ->
  (b = b' -> P e) ->
  all_entries P (append_entry b e keep c)
              (refs_of b' (append_entry b e keep c)).
Proof.
  intros Hwf Hall HP. rewrite refs_of_append. apply Forall_app. split.
  - pose proof (wf_refs_of b' c Hwf) as Hlt. unfold all_entries in *.
    rewrite Forall_forall in *. intros r Hr.
    destruct (Hall r Hr) as (e0 & He0 & HP0). exists e0.
    split; [|exact HP0].
    rewrite lookup_old_after_append; [exact He0|]. now apply Hlt.
  - destruct b, b'; try constructor; try constructor;
      exists e; (split; [apply lookup_new_after_append | now apply HP]).
Qed.

Lemma all_entries_extend (P : LogEntry -> Prop) (r : nat) (line : string)
      (c : Collector) (refs : list nat) :
  (forall m e, P e -> P (set_msg m e)) ->
  all_entries P c refs -> all_entries P (extend_msg r line c) refs.
Proof.
  intros Hset Hall. unfold extend_msg.
  destruct (objects c !! r) as [e0|] eqn:He0; [|exact Hall].
  unfold all_entries in *. rewrite Forall_forall in *. intros r' Hr'.
  destruct (Hall r' Hr') as (e & He & HP). simpl.
  destruct (decide (r = r')) as [<-|Hne].
  - eexists. split.
    + apply list_lookup_insert_eq. now apply lookup_lt_Some in He0.
    + rewrite He0 in He. injection He as <-. now apply Hset.
  - exists e. split; [|exact HP]. now rewrite list_lookup_insert_ne.
Qed.

Lemma placed_set_msg (files : list LogFile) (b : Bucket) (m : string)
      (e : LogEntry) :
  placed files b e -> placed files b (set_msg m e).
Proof. intros H. exact H. Qed.

(** The invariant of the collection: the collector is well formed and every
    entry of a bucket is placed there. *)
Lemma placed_process_line (files : list LogFile) (path : LogFile)
      (c : Collector) (raw : string) :
  In path files ->
  wf c /\ (forall b, all_entries (placed files b) c (refs_of b c)) ->
  wf (process_line path c raw)
  /\ (forall b, all_entries (placed files b) (process_line path c raw)
                            (refs_of b (process_line path c raw))).
Proof.
  intros Hin [Hwf Hall].
  split; [now apply ClassifierFacts.wf_process_line|].
  intros b. unfold process_line.
  assert (Hadd : forall b0 e keep,
             bucket_of_level (level e) = b0 ->
             file e = Some (name path) ->
             all_entries (placed files b) (append_entry b0 e keep c)
                         (refs_of b (append_entry b0 e keep c))).
  { intros b0 e keep Hb Hf. apply all_entries_append; auto.
    intros <-. split; [exact Hb|]. exists path. auto. }
  destruct (_parse_structured raw) as [parsed|]; [now apply Hadd|].
  destruct (negb (Py.truthy (Py.strip (Py.rstrip_crlf raw)))); [apply Hall|].
  destruct (Py.contains "error" _); [now apply Hadd|].
  destruct (Py.contains "warning" _); [now apply Hadd|].
  destruct (last_entry c) as [r|]; [|now apply Hadd].
  assert (Hrefs : refs_of b (extend_msg r (Py.rstrip_crlf raw) c)
                  = refs_of b c).
  { unfold extend_msg. destruct (objects c !! r); now destruct b. }
  rewrite Hrefs. apply all_entries_extend; [|apply Hall].
  intros m e. apply placed_set_msg.
Qed.

Lemma placed_process_file (files : list LogFile) (now : string)
      (path : LogFile) (c : Collector) :
  In path files ->
  wf c /\ (forall b, all_entries (placed files b) c (refs_of b c)) ->
  wf (process_file now c path)
  /\ (forall b, all_entries (placed files b) (process_file now c path)
                            (refs_of b (process_file now c path))).
Proof.
  intros Hin [Hwf Hall]. unfold process_file.
  assert (H0 : wf (set_last_entry None c)
               /\ (forall b, all_entries (placed files b)
                                         (set_last_entry None c)
                                         (refs_of b (set_last_entry None c)))).
  { split; [destruct Hwf as [H _]; split; [exact H|exact I]|].
    intros b. specialize (Hall b). now destruct b. }
  assert (H1 : forall l c0,
             wf c0 /\ (forall b, all_entries (placed files b) c0
                                             (refs_of b c0)) ->
             wf (fold_left (process_line path) l c0)
             /\ (forall b, all_entries (placed files b)
                                       (fold_left (process_line path) l c0)
                                       (refs_of b (fold_left (process_line path)
                                                             l c0)))).
  { induction l as [|raw l IH]; intros c0 H; [exact H|].
    simpl. apply IH. now apply placed_process_line. }
  specialize (H1 (lines path) _ H0). destruct H1 as [Hwf1 Hall1].
  destruct (read_error path) as [exc|]; [|now split].
  split; [now apply ClassifierFacts.wf_append|].
  intros b. apply all_entries_append; auto.
  intros <-. split; [reflexivity|]. exists path. auto.
Qed.

Lemma view_all_entries (P : LogEntry -> Prop) (c : Collector)
      (refs : list nat) :
  all_entries P c refs -> Forall P (deref c refs).
Proof.
  unfold all_entries. induction 1 as [|r refs (e & He & HP) _ IH];
    [constructor|].
  rewrite ClassifierFacts.deref_cons, He. now constructor.
Qed.

Lemma take_subset {A} (n : nat) (l : list A) (x : A) :
  In x (take n l) -> In x l.
Proof.
  revert n. induction l as [|a l IH]; intros [|n]; simpl; try tauto.
  intros [H|H]; [now left | right; now apply (IH n)].
Qed.

Lemma slice_to_subset {A} (n : Z) (l : list A) (x : A) :
  In x (slice_to n l) -> In x l.
Proof. unfold slice_to. destruct (0 <=? n); apply take_subset. Qed.

(** X3: in the result of [collect_logs_grouped_all] every entry lies in the
    list that its level selects (ERROR and CRITICAL in the error list,
    WARNING in the warning list, every other level in the info list), and
    names as its file one of the candidate files of the directory, whatever
    the files hold and whichever of them fail to be read. *)
Theorem collected_entries_are_placed :
  forall (logs_dir : option LogsDir) (max_files : Z) (now : string),
    let v := collect_logs_grouped_all logs_dir max_files now in
    in_its_bucket v
    /\ every_entry
         (fun e => exists f d, logs_dir = Some d
                               /\ In f (glob_txt d ++ glob_log d)
                               /\ file e = Some (name f)) v.
Proof.
  intros [d|] max_files now; [|repeat split; constructor].
  unfold collect_logs_grouped_all.
  destruct (glob_txt d ++ glob_log d)%list as [|f0 l0] eqn:Hc;
    [repeat split; constructor|].
  set (files := slice_to max_files (sort_by_mtime (f0 :: l0))).
  assert (Hfiles : forall f, In f files -> In f (f0 :: l0)).
  { intros f Hf. apply slice_to_subset in Hf.
    rewrite <- list_elem_of_In in *.
    now rewrite (sort_by_mtime_perm (f0 :: l0)) in Hf. }
  assert (Hinv : forall l c,
             (forall f, In f l -> In f files) ->
             wf c /\ (forall b, all_entries (placed files b) c (refs_of b c)) ->
             wf (fold_left (process_file now) l c)
             /\ (forall b, all_entries (placed files b)
                                       (fold_left (process_file now) l c)
                                       (refs_of b (fold_left (process_file now)
                                                             l c)))).
  { induction l as [|f l IH]; intros c Hl H; [exact H|].
    simpl. apply IH; [intros; apply Hl; now right|].
    apply placed_process_file; [apply Hl; now left | exact H]. }
  destruct (Hinv files empty_collector (fun f H => H)) as [_ Hall].
  { split; [apply ClassifierFacts.wf_empty|]. intros b. destruct b; constructor. }
  assert (Hview : forall b,
             Forall (placed files b)
                    (deref (fold_left (process_file now) files empty_collector)
                           (refs_of b (fold_left (process_file now) files
                                                 empty_collector)))).
  { intros b. apply view_all_entries, Hall. }
  unfold in_its_bucket, every_entry, view. simpl.
  repeat split;
    match goal with
    | |- Forall _ (deref _ (info_refs _)) =>
        generalize (Hview BInfo)
    | |- Forall _ (deref _ (warning_refs _)) =>
        generalize (Hview BWarning)
    | |- Forall _ (deref _ (error_refs _)) =>
        generalize (Hview BError)
    end; simpl; intros H; (eapply Forall_impl; [exact H|]);
    intros e [Hb (f & Hf & He)]; try exact Hb;
    exists f, d; repeat split; auto; rewrite Hc; auto.
Qed.

Lemma process_plain_line (path : LogFile) (c : Collector) (raw : string) :
  plain_line raw ->
  process_line path c raw
  = match last_entry c with
    | Some r => extend_msg r (Py.rstrip_crlf raw) c
    | None => append_entry BInfo (raw_info_entry path raw) true c
    end.
Proof.
  intros (Hp & Hb & He & Hw). unfold process_line.
  rewrite Hp, Hb, He, Hw. reflexivity.
Qed.

Lemma view_set_last_entry (l : option nat) (c : Collector)
      (n : option string) :
  view (set_last_entry l c) n = view c n.
Proof. reflexivity. Qed.

(** X4: a continuation never crosses a file boundary.  When the first line
    of a file matches neither grammar, is not blank and has neither "error"
    nor "warning" in it, it becomes a new INFO entry of source "raw" with
    that file's name, whatever entry the file before ended with; the same
    line after an entry of its own file is joined to that entry instead. *)
Theorem plain_first_line_starts_an_entry :
  forall (now : string) (c : Collector) (path : LogFile) (raw : string)
         (n : option string),
    wf c -> plain_line raw ->
    lines path = [raw] -> read_error path = None ->
    info (view (process_file now c path) n)
    = (info (view c n) ++ [raw_info_entry path raw])%list
    /\ warning (view (process_file now c path) n) = warning (view c n)
    /\ error (view (process_file now c path) n) = error (view c n)
    /\ (forall r, last_entry c = Some r ->
                  process_line path c raw
                  = extend_msg r (Py.rstrip_crlf raw) c).
Proof.
  intros now c path raw n Hwf Hplain Hlines Hread.
  assert (Hstep : process_file now c path
                  = append_entry BInfo (raw_info_entry path raw) true
                                 (set_last_entry None c)).
  { unfold process_file. rewrite Hlines, Hread. cbn [fold_left].
    now rewrite (process_plain_line path _ raw Hplain). }
  rewrite Hstep.
  assert (Hwf0 : wf (set_last_entry None c)).
  { destruct Hwf as [H _]. split; [exact H|exact I]. }
  destruct (ClassifierFacts.view_append BInfo (raw_info_entry path raw) true
              (set_last_entry None c) n Hwf0) as (Hi & Hw & He).
  rewrite Hi, Hw, He, !app_nil_r, view_set_last_entry.
  repeat split. intros r Hr.
  rewrite (process_plain_line path c raw Hplain), Hr. reflexivity.
Qed.

Lemma plain_first_line_starts_an_entry_witness :
  let before := mkFile "log_1.txt" 1 [hello_line] None in
  let path := mkFile "log_2.txt" 2 ["  File x.py, line 3" ++ Py.nl] None in
  let c := process_file "t" empty_collector before in
  info (view (process_file "t" c path) None)
  = [hello_entry before "hello";
     raw_info_entry path ("  File x.py, line 3" ++ Py.nl)].
Proof.
  exact (proj1 (plain_first_line_starts_an_entry "t"
                  (process_file "t" empty_collector
                                (mkFile "log_1.txt" 1 [hello_line] None))
                  (mkFile "log_2.txt" 2 ["  File x.py, line 3" ++ Py.nl] None)
                  ("  File x.py, line 3" ++ Py.nl) None
                  (ClassifierFacts.wf_process_file "t" _ _
                     ClassifierFacts.wf_empty)
                  (conj eq_refl (conj eq_refl (conj eq_refl eq_refl)))
                  eq_refl eq_refl)).
Defined.

(** X5: a file whose reading fails adds exactly one entry, to the error
    list: level ERROR, source "log.reader", the message "Failed reading",
    the name of the file and the text of the exception; the entries that
    its lines gave before the failure, and those of earlier files, stay. *)
Theorem unreadable_file_is_one_error_entry :
  forall (now : string) (c : Collector) (path : LogFile) (exc : string)
         (n : option string),
    wf c -> read_error path = Some exc ->
    let read := fold_left (process_line path) (lines path)
                          (set_last_entry None c) in
    error (view (process_file now c path) n)
    = (error (view read n) ++ [read_failure_entry now path exc])%list
    /\ info (view (process_file now c path) n) = info (view read n)
    /\ warning (view (process_file now c path) n) = warning (view read n)
    /\ (lines path = [] ->
        error (view (process_file now c path) n)
        = (error (view c n) ++ [read_failure_entry now path exc])%list).
Proof.
  intros now c path exc n Hwf Hread read.
  assert (Hwf1 : wf read).
  { apply ClassifierFacts.wf_process_lines. destruct Hwf as [H _].
    split; [exact H|exact I]. }
  unfold process_file. rewrite Hread. fold read.
  destruct (ClassifierFacts.view_append BError
              (read_failure_entry now path exc) false read n Hwf1)
    as (Hi & Hw & He).
  unfold read_failure_entry in *. rewrite Hi, Hw, He, !app_nil_r.
  repeat split. intros Hl. subst read. now rewrite Hl.
Qed.

Lemma unreadable_file_is_one_error_entry_witness :
  let path := mkFile "log_1.txt" 1 [] (Some "[Errno 13] Permission denied") in
  error (view (process_file "t" empty_collector path) None)
  = [read_failure_entry "t" path "[Errno 13] Permission denied"].
Proof.
  exact (proj1 (unreadable_file_is_one_error_entry "t" empty_collector
                  (mkFile "log_1.txt" 1 []
                          (Some "[Errno 13] Permission denied"))
                  "[Errno 13] Permission denied" None
                  ClassifierFacts.wf_empty eq_refl)).
Defined.

End ClassifierMore.

(* ===================================================================== *)
(** * Further properties of the job store and the cancellation handlers *)
(* ===================================================================== *)

Module JobsMore.
Import Jobs.

Lemma sql_cancel_update_lookup (job_id now_ : string) (w : World) (j : string) :
  jobs (sql_cancel_update job_id now_ w) !! j
  = if decide (j = job_id) then cancelled_row now_ <$> jobs w !! job_id
    else jobs w !! j.
Proof.
  unfold sql_cancel_update.
  destruct (jobs w !! job_id) as [row|] eqn:Hrow.
  - destruct (one_of (status row) ["queued"; "processing"]) eqn:Hs;
      destruct (decide (j = job_id)) as [->|Hne]; simpl;
      rewrite ?lookup_insert_eq, ?Hrow; simpl;
      unfold cancelled_row; rewrite ?Hs; try reflexivity.
    now rewrite lookup_insert_ne by congruence.
  - destruct (decide (j = job_id)) as [->|Hne]; [now rewrite Hrow|reflexivity].
Qed.

Lemma sql_cancel_update_frame (job_id now_ : string) (w : World) :
  let w' := sql_cancel_update job_id now_ w in
  RUNNING_JOBS w' = RUNNING_JOBS w /\ events w' = events w
  /\ clock w' = clock w.
Proof.
  unfold sql_cancel_update. destruct (jobs w !! job_id) as [row|];
    [|repeat split; reflexivity].
  destruct (one_of (status row) ["queued"; "processing"]);
    repeat split; reflexivity.
Qed.

Lemma cancelled_row_terminal (now_ : string) (row : Job) :
  terminal (status row) = true -> cancelled_row now_ row = row.
Proof.
  intros H. unfold cancelled_row.
  destruct (OrchestratorFacts.terminal_cases _ H) as [E|[E|E]]; rewrite E;
    reflexivity.
Qed.

Lemma cancelled_row_twice (now_ now' : string) (row : Job) :
  cancelled_row now' (cancelled_row now_ row) = cancelled_row now_ row.
Proof.
  unfold cancelled_row at 2.
  destruct (one_of (status row) ["queued"; "processing"]) eqn:H.
  - unfold cancelled_row. now rewrite H.
  - unfold cancelled_row. now rewrite H.
Qed.

(** X6: [cancel_job] for a job whose token is registered.  The handler
    runs the guarded UPDATE and then sets the token.  When the store
    accepts the UPDATE, the answer is "cancelling" and the token is set;
    the stored status becomes cancelling only when it was queued or
    processing, so for a job that is already canceled, failed or complete
    (its token still registered) the answer names a status the store does
    not hold; of the row of the job only status and updated_at can change.
    When the store fails, its exception leaves the handler before the token
    is set: no token, no row and no written status changes.  In both cases
    no other token and no entry of the registry changes. *)
Theorem cancel_job_registered :
  forall (job_id : string) (ev : nat) (w : World),
    RUNNING_JOBS w !! job_id = Some ev ->
    let r := cancel_job job_id w in
    RUNNING_JOBS (snd r) = RUNNING_JOBS w
    /\ (forall ev', ev' <> ev -> events (snd r) !! ev' = events w !! ev')
    /\ (fst (next_fault w) = None ->
        fst r = inr (mkCancelResponse job_id "cancelling"
                                      "Cancellation requested")
        /\ event_is_set ev (snd r) = true
        /\ (forall j, jobs (snd r) !! j
                      = if decide (j = job_id)
                        then cancelled_row (clock w) <$> jobs w !! job_id
                        else jobs w !! j)
        /\ (forall row, jobs w !! job_id = Some row ->
                        terminal (status row) = true ->
                        jobs (snd r) !! job_id = Some row)
        /\ (forall row, jobs w !! job_id = Some row ->
                        one_of (status row) ["queued"; "processing"] = true ->
                        status <$> jobs (snd r) !! job_id = Some "cancelling"))
    /\ (forall f, fst (next_fault w) = Some f ->
                  fst r = inl (StoreError (fault_text f))
                  /\ events (snd r) = events w
                  /\ jobs (snd r) = jobs w
                  /\ history (snd r) = history w).
Proof.
  intros job_id ev w Hev r. subst r. unfold cancel_job. rewrite Hev.
  destruct (JobsFacts.next_fault_frame w) as (Hj & Hr & He & Hc & _ & Hh).
  destruct (next_fault w) as [[f|] w1]; cbn [fst snd] in *.
  - split; [exact Hr|]. split; [intros ev' _; now rewrite He|].
    split; [discriminate|]. intros f' [= <-]. auto.
  - destruct (sql_cancel_update_frame job_id (clock w) w1) as (Hr' & He' & _).
    cbv zeta in Hr', He'.
    assert (Hjobs : forall j,
               jobs (event_set ev (sql_cancel_update job_id (clock w) w1)) !! j
               = if decide (j = job_id)
                 then cancelled_row (clock w) <$> jobs w !! job_id
                 else jobs w !! j).
    { intros j. etransitivity; [apply sql_cancel_update_lookup|].
      now rewrite Hj. }
    split; [cbn [RUNNING_JOBS event_set set_events]; congruence|].
    split.
    { intros ev' Hne. unfold event_set. simpl.
      rewrite lookup_insert_ne by congruence. now rewrite He', He. }
    split; [|discriminate]. intros _.
    split; [reflexivity|].
    split; [unfold event_is_set, event_set; simpl; now rewrite lookup_insert_eq|].
    split; [exact Hjobs|].
    split.
    + intros row Hrow Ht. rewrite Hjobs.
      destruct (decide (job_id = job_id)) as [_|Hne]; [|congruence].
      rewrite Hrow. simpl. now rewrite cancelled_row_terminal.
    + intros row Hrow Hs. rewrite Hjobs.
      destruct (decide (job_id = job_id)) as [_|Hne]; [|congruence].
      rewrite Hrow. simpl. unfold cancelled_row. now rewrite Hs.
Qed.

Lemma cancel_job_registered_witness :
  let job := record_job "job-1" "output/job-1"
                        (empty_world "2025-01-01T00:00:00") in
  let done := sql_update_status "job-1" "complete" "2025-01-01T00:05:00" None
                                (snd job) in
  (fst (cancel_job "job-1" done)
   = inr (mkCancelResponse "job-1" "cancelling" "Cancellation requested")
   /\ status <$> jobs (snd (cancel_job "job-1" done)) !! "job-1"
      = Some "complete")
  /\ (fst (cancel_job "job-1" (busy 1 done))
      = inl (StoreError "database is locked")
      /\ events (snd (cancel_job "job-1" (busy 1 done))) = events done).
Proof.
  split.
  - pose proof (cancel_job_registered "job-1"
                  (fst (record_job "job-1" "output/job-1"
                                   (empty_world "2025-01-01T00:00:00")))
                  (sql_update_status "job-1" "complete" "2025-01-01T00:05:00"
                     None
                     (snd (record_job "job-1" "output/job-1"
                                      (empty_world "2025-01-01T00:00:00"))))
                  eq_refl) as (_ & _ & Hok & _).
    destruct (Hok eq_refl) as (H1 & _ & _ & H6 & _).
    split; [exact H1|].
    rewrite (H6 _ eq_refl eq_refl). reflexivity.
  - pose proof (cancel_job_registered "job-1"
                  (fst (record_job "job-1" "output/job-1"
                                   (empty_world "2025-01-01T00:00:00")))
                  (busy 1
                     (sql_update_status "job-1" "complete"
                        "2025-01-01T00:05:00" None
                        (snd (record_job "job-1" "output/job-1"
                                         (empty_world "2025-01-01T00:00:00")))))
                  eq_refl) as (_ & _ & _ & Hfail).
    destruct (Hfail _ eq_refl) as (H1 & H2 & _).
    split; [exact H1 | exact H2].
Defined.

Lemma fold_event_set_frame (l : list (string * nat)) (w : World) :
  let w' := fold_left (fun w p => event_set (snd p) w) l w in
  jobs w' = jobs w /\ RUNNING_JOBS w' = RUNNING_JOBS w /\ clock w' = clock w
  /\ history w' = history w.
Proof.
  revert w. induction l as [|p l IH]; intros w; simpl; [repeat split|].
  destruct (IH (event_set (snd p) w)) as (H1 & H2 & H3 & H4).
  simpl in *. repeat split; assumption.
Qed.

Lemma fold_event_set_events (l : list (string * nat)) (w : World) (ev : nat) :
  events (fold_left (fun w p => event_set (snd p) w) l w) !! ev
  = if decide (ev ∈ List.map snd l) then Some true else events w !! ev.
Proof.
  revert w. induction l as [|p l IH]; intros w; simpl.
  - destruct (decide (ev ∈ [])) as [H|H]; [inversion H|reflexivity].
  - rewrite IH. unfold event_set. simpl.
    destruct (decide (ev ∈ List.map snd l)) as [H|H].
    + rewrite decide_True; [reflexivity|now right].
    + destruct (decide (ev = snd p)) as [->|Hne].
      * rewrite decide_True by left. now rewrite lookup_insert_eq.
      * rewrite decide_False.
        -- now rewrite lookup_insert_ne by congruence.
        -- intros Hin. apply elem_of_cons in Hin as [Hin|Hin]; congruence.
Qed.

Lemma fold_cancel_update_frame (l : list string) (now_ : string) (w : World) :
  let w' := fold_left (fun w jid => sql_cancel_update jid now_ w) l w in
  RUNNING_JOBS w' = RUNNING_JOBS w /\ events w' = events w.
Proof.
  revert w. induction l as [|j l IH]; intros w; simpl; [repeat split|].
  destruct (IH (sql_cancel_update j now_ w)) as (H1 & H2).
  destruct (sql_cancel_update_frame j now_ w) as (G1 & G2 & _).
  simpl in *. split; congruence.
Qed.

Lemma fold_cancel_update_lookup (l : list string) (now_ : string) (w : World)
      (j : string) :
  jobs (fold_left (fun w jid => sql_cancel_update jid now_ w) l w) !! j
  = if decide (j ∈ l) then cancelled_row now_ <$> jobs w !! j
    else jobs w !! j.
Proof.
  revert w. induction l as [|i l IH]; intros w; simpl.
  - destruct (decide (j ∈ [])) as [H|H]; [inversion H|reflexivity].
  - rewrite IH, !sql_cancel_update_lookup.
    destruct (decide (j = i)) as [->|Hne].
    + rewrite (decide_True (P := i ∈ i :: l)) by left.
      destruct (decide (i ∈ l)); [|reflexivity].
      destruct (jobs w !! i); simpl; [|reflexivity].
      now rewrite cancelled_row_twice.
    + destruct (decide (j ∈ l)) as [H|H].
      * rewrite decide_True; [reflexivity|now right].
      * rewrite decide_False; [reflexivity|].
        intros Hin. apply elem_of_cons in Hin as [Hin|Hin]; congruence.
Qed.

Lemma fold_event_set_db_faults (l : list (string * nat)) (w : World) :
  db_faults (fold_left (fun w p => event_set (snd p) w) l w) = db_faults w.
Proof.
  revert w. induction l as [|p l IH]; intros w; simpl; [reflexivity|].
  now rewrite IH.
Qed.

(** X7: [cancel_all_jobs] sets the token of every registered job and no
    other token, and leaves the registry as it was, whatever the store
    does.  When no job is registered it does not touch the store and
    answers "ok" with count 0.  Otherwise it runs the guarded UPDATEs in one
    transaction: when the store accepts it, the answer is "ok" with the
    number and the ids of the registered jobs, each once, and exactly the
    registered jobs whose stored status is queued or processing are moved
    to cancelling, every other row and every row in another status being
    left as it was; when the store fails, its exception leaves the handler
    with the tokens set and no row changed. *)
Theorem cancel_all_jobs_reaches_every_registered_job :
  forall (w : World),
    let r := cancel_all_jobs w in
    (forall j ev, RUNNING_JOBS w !! j = Some ev ->
                  event_is_set ev (snd r) = true)
    /\ (forall ev, (forall j, RUNNING_JOBS w !! j <> Some ev) ->
                   events (snd r) !! ev = events w !! ev)
    /\ RUNNING_JOBS (snd r) = RUNNING_JOBS w
    /\ (RUNNING_JOBS w = ∅ \/ fst (next_fault w) = None ->
        exists a : CancelAllResponse,
          fst r = inr a
          /\ ca_status a = "ok"
          /\ ca_count a = size (RUNNING_JOBS w)
          /\ ca_count a = length (ca_job_ids a)
          /\ NoDup (ca_job_ids a)
          /\ (forall j, j ∈ ca_job_ids a <-> is_Some (RUNNING_JOBS w !! j))
          /\ (forall j, jobs (snd r) !! j
                        = if decide (is_Some (RUNNING_JOBS w !! j))
                          then cancelled_row (clock w) <$> jobs w !! j
                          else jobs w !! j))
    /\ (RUNNING_JOBS w = ∅ -> db_faults (snd r) = db_faults w)
    /\ (forall f, RUNNING_JOBS w <> ∅ -> fst (next_fault w) = Some f ->
                  fst r = inl (StoreError (fault_text f))
                  /\ jobs (snd r) = jobs w
                  /\ history (snd r) = history w).
Proof.
  intros w r. subst r. unfold cancel_all_jobs.
  set (items := map_to_list (RUNNING_JOBS w)).
  assert (Hids : forall j, j ∈ List.map fst items <-> is_Some (RUNNING_JOBS w !! j)).
  { intros j. change (List.map fst items) with (fst <$> items).
    rewrite list_elem_of_fmap. split.
    - intros ([j' ev] & -> & Hin). apply elem_of_map_to_list in Hin. eauto.
    - intros [ev Hev]. exists (j, ev). split; [reflexivity|].
      now apply elem_of_map_to_list. }
  assert (Hevs : forall ev, ev ∈ List.map snd items <-> exists j, RUNNING_JOBS w !! j = Some ev).
  { intros ev. change (List.map snd items) with (snd <$> items).
    rewrite list_elem_of_fmap. split.
    - intros ([j ev'] & -> & Hin). apply elem_of_map_to_list in Hin. eauto.
    - intros [j Hev]. exists (j, ev). split; [reflexivity|].
      now apply elem_of_map_to_list. }
  assert (Hempty : List.map fst items = [] <-> RUNNING_JOBS w = ∅).
  { rewrite <- (map_to_list_empty_iff (RUNNING_JOBS w)). fold items.
    destruct items; simpl; split; intros H; try reflexivity; discriminate. }
  assert (Hcount : length (List.map fst items) = size (RUNNING_JOBS w)).
  { rewrite length_map. apply length_map_to_list. }
  assert (Hnodup : NoDup (List.map fst items))
    by apply (NoDup_fst_map_to_list (RUNNING_JOBS w)).
  destruct (fold_event_set_frame items w) as (Hj1 & Hr1 & Hc1 & Hh1).
  cbv zeta in Hj1, Hr1, Hc1, Hh1.
  pose proof (fold_event_set_db_faults items w) as Hd1.
  assert (Hset : forall j ev, RUNNING_JOBS w !! j = Some ev ->
                   events (fold_left (fun w p => event_set (snd p) w) items w)
                     !! ev = Some true).
  { intros j ev Hev. rewrite fold_event_set_events.
    rewrite decide_True; [reflexivity|]. apply Hevs. eauto. }
  assert (Hkeep : forall ev, (forall j, RUNNING_JOBS w !! j <> Some ev) ->
                   events (fold_left (fun w p => event_set (snd p) w) items w)
                     !! ev = events w !! ev).
  { intros ev Hnone. rewrite fold_event_set_events.
    rewrite decide_False; [reflexivity|].
    intros Hin. apply Hevs in Hin as [j Hj]. now apply (Hnone j). }
  set (w1 := fold_left (fun w p => event_set (snd p) w) items w) in *.
  assert (Hjobs : forall w2, jobs w2 = jobs w1 ->
             forall j,
               jobs (fold_left (fun w jid => sql_cancel_update jid (clock w1) w)
                               (List.map fst items) w2) !! j
               = if decide (is_Some (RUNNING_JOBS w !! j))
                 then cancelled_row (clock w) <$> jobs w !! j
                 else jobs w !! j).
  { intros w2 Hw2 j. rewrite fold_cancel_update_lookup, Hw2, Hj1, Hc1.
    destruct (decide (j ∈ List.map fst items)) as [H|H];
      destruct (decide (is_Some (RUNNING_JOBS w !! j))) as [H'|H'];
      try reflexivity; exfalso; apply Hids in H || (apply H; apply Hids); auto. }
  destruct (List.map fst items) as [|j0 ids] eqn:Hl.
  - (* no job is registered *)
    cbn [fst snd].
    split; [intros j ev Hev; unfold event_is_set; now rewrite (Hset j ev Hev)|].
    split; [exact Hkeep|]. split; [exact Hr1|].
    split.
    { intros _. eexists. split; [reflexivity|]. cbn [ca_status ca_count ca_job_ids].
      split; [reflexivity|]. split; [exact Hcount|]. split; [reflexivity|].
      split; [exact Hnodup|]. split; [exact Hids|].
      intros j. rewrite <- (Hjobs w1 eq_refl j). reflexivity. }
    split; [intros _; exact Hd1|].
    intros f Hne. exfalso. apply Hne, Hempty. reflexivity.
  - (* the transaction of the UPDATEs *)
    assert (Hnext : fst (next_fault w1) = fst (next_fault w)).
    { unfold next_fault. rewrite Hd1. now destruct (db_faults w). }
    destruct (JobsFacts.next_fault_frame w1) as (Hj2 & Hr2 & He2 & Hc2 & _ & Hh2).
    destruct (next_fault w1) as [[f|] w2]; cbn [fst snd] in *.
    + split; [intros j ev Hev; unfold event_is_set; rewrite He2;
              now rewrite (Hset j ev Hev)|].
      split; [intros ev Hnone; rewrite He2; now apply Hkeep|].
      split; [congruence|].
      split.
      { intros [Hnil|Hok]; [|congruence].
        apply Hempty in Hnil. discriminate. }
      split; [intros Hnil; apply Hempty in Hnil; discriminate|].
      intros f' _ Hf. rewrite <- Hnext in Hf. injection Hf as <-.
      split; [reflexivity|]. split; congruence.
    + destruct (fold_cancel_update_frame (j0 :: ids) (clock w1) w2)
        as (Hr3 & He3).
      cbv zeta in Hr3, He3.
      split; [intros j ev Hev; unfold event_is_set; rewrite He3, He2;
              now rewrite (Hset j ev Hev)|].
      split; [intros ev Hnone; rewrite He3, He2; now apply Hkeep|].
      split; [congruence|].
      split.
      { intros _. eexists. split; [reflexivity|].
        cbn [ca_status ca_count ca_job_ids].
        split; [reflexivity|]. split; [exact Hcount|]. split; [reflexivity|].
        split; [exact Hnodup|]. split; [exact Hids|].
        exact (Hjobs w2 Hj2). }
      split; [intros Hnil; apply Hempty in Hnil; discriminate|].
      intros f _ Hf. rewrite <- Hnext in Hf. discriminate.
Qed.

Lemma cancel_all_jobs_reaches_every_registered_job_witness :
  let job := record_job "job-1" "output/job-1"
                        (empty_world "2025-01-01T00:00:00") in
  (status <$> jobs (snd (cancel_all_jobs (snd job))) !! "job-1"
   = Some "cancelling"
   /\ event_is_set (fst job) (snd (cancel_all_jobs (snd job))) = true)
  /\ (fst (cancel_all_jobs (busy 1 (snd job)))
      = inl (StoreError "database is locked")
      /\ jobs (snd (cancel_all_jobs (busy 1 (snd job)))) = jobs (snd job)
      /\ event_is_set (fst job) (snd (cancel_all_jobs (busy 1 (snd job))))
         = true).
Proof.
  split.
  - pose proof (cancel_all_jobs_reaches_every_registered_job
                  (snd (record_job "job-1" "output/job-1"
                                   (empty_world "2025-01-01T00:00:00"))))
      as (Hset & _ & _ & Hok & _).
    destruct (Hok (or_intror eq_refl)) as (a & _ & _ & _ & _ & _ & _ & Hj).
    split; [now rewrite Hj | exact (Hset "job-1" _ eq_refl)].
  - pose proof (cancel_all_jobs_reaches_every_registered_job
                  (busy 1 (snd (record_job "job-1" "output/job-1"
                                           (empty_world "2025-01-01T00:00:00")))))
      as (Hset & _ & _ & _ & _ & Hfail).
    assert (Hne : RUNNING_JOBS
                    (busy 1 (snd (record_job "job-1" "output/job-1"
                                    (empty_world "2025-01-01T00:00:00"))))
                  <> ∅).
    { intros E.
      assert (H : RUNNING_JOBS
                    (busy 1 (snd (record_job "job-1" "output/job-1"
                                    (empty_world "2025-01-01T00:00:00"))))
                  !! "job-1" = None) by (rewrite E; apply lookup_empty).
      vm_compute in H. discriminate. }
    destruct (Hfail _ Hne eq_refl) as (H1 & H2 & _).
    split; [exact H1|]. split; [exact H2|].
    exact (Hset "job-1" _ eq_refl).
Defined.

Lemma interfere_quiet (w : World) : pending w = [] -> interfere w = w.
Proof. unfold interfere. now intros ->. Qed.

Section Retry.
Variables (job_id status_ : string) (error_ : option string) (retries : Z)
          (backoff : Q) (now_ : string).

Lemma update_loop_lands (fs : list Fault) :
  forall (fuel : nat) (attempt : Z) (w : World) (rest : list (option Fault)),
    pending w = [] -> db_faults w = (List.map Some fs ++ rest)%list ->
    (length fs < fuel)%nat ->
    fs = [] \/ attempt + Z.of_nat (length fs) < retries ->
    rest = [] \/ (exists later, rest = None :: later) ->
    exists w1,
      update_loop fuel job_id status_ error_ retries backoff now_ attempt w
      = Some (sql_update_status job_id status_ now_ error_ w1)
      /\ jobs w1 = jobs w /\ history w1 = history w
      /\ slept w1 = (slept w ++ linear_delays backoff attempt (length fs))%list
      /\ app_log w1
         = (app_log w ++ warnings_from attempt job_id status_ fs)%list
      /\ db_faults w1 = tail rest.
Proof.
  induction fs as [|f fs IH]; intros fuel attempt w rest Hp Hd Hfuel Hcap Hrest;
    (destruct fuel as [|fuel]; [simpl in Hfuel; lia|]).
  - simpl in Hd. simpl. rewrite (interfere_quiet w Hp). unfold next_fault.
    rewrite Hd. unfold linear_delays. simpl. rewrite !app_nil_r.
    destruct Hrest as [->|[later ->]].
    + exists w. repeat split; auto.
    + exists (set_db_faults later w). repeat split; auto.
  - simpl in Hd. simpl. rewrite (interfere_quiet w Hp). unfold next_fault.
    rewrite Hd.
    destruct Hcap as [Hcap|Hcap]; [discriminate|].
    simpl length in Hcap.
    assert (Hgo : (retries <=? attempt + 1) = false) by (apply Z.leb_gt; lia).
    rewrite Hgo.
    set (w2 := sleep (backoff * inject_Z (attempt + 1))
                     (log_attempt (attempt + 1) job_id status_ f
                        (set_db_faults (List.map Some fs ++ rest)%list w))).
    assert (H2 : pending w2 = [] /\ db_faults w2 = (List.map Some fs ++ rest)%list
                 /\ jobs w2 = jobs w /\ history w2 = history w
                 /\ slept w2 = (slept w ++ [(backoff * inject_Z (attempt + 1))%Q])%list
                 /\ app_log w2
                    = (app_log w ++
                       (if fault_log_raises f then []
                        else [mkAppWarning (attempt + 1) job_id status_
                                           (fault_text f)]))%list).
    { unfold w2, sleep, log_attempt. destruct (fault_log_raises f); simpl;
        rewrite ?app_nil_r; repeat split; auto. }
    destruct H2 as (Hp2 & Hd2 & Hj2 & Hh2 & Hs2 & Hl2).
    destruct (IH fuel (attempt + 1) w2 rest Hp2 Hd2) as
        (w1 & Hrun & Hj & Hh & Hs & Hl & Hf); auto.
    { simpl in Hfuel. lia. }
    { destruct fs; [now left|right]. simpl length in *. lia. }
    exists w1. split; [exact Hrun|].
    split; [congruence|]. split; [congruence|].
    split.
    { rewrite Hs, Hs2. simpl length. rewrite JobsFacts.linear_delays_cons.
      now rewrite <- app_assoc. }
    split; [|exact Hf].
    rewrite Hl, Hl2. simpl warnings_from. now rewrite <- app_assoc.
Qed.

Lemma update_loop_gives_up (fs : list Fault) :
  forall (fuel : nat) (attempt : Z) (w : World) (rest : list (option Fault)),
    pending w = [] -> db_faults w = (List.map Some fs ++ rest)%list ->
    (length fs <= fuel)%nat ->
    Z.of_nat (length fs) = Z.max 1 (retries - attempt) ->
    exists w',
      update_loop fuel job_id status_ error_ retries backoff now_ attempt w
      = Some w'
      /\ jobs w' = jobs w /\ history w' = history w
      /\ slept w'
         = (slept w ++ linear_delays backoff attempt (length fs - 1))%list
      /\ app_log w'
         = (app_log w ++ warnings_from attempt job_id status_ fs)%list
      /\ db_faults w' = rest.
Proof.
  induction fs as [|f fs IH]; intros fuel attempt w rest Hp Hd Hfuel Hcap;
    [simpl in Hcap; lia|].
  destruct fuel as [|fuel]; [simpl in Hfuel; lia|].
  simpl in Hd. simpl update_loop. rewrite (interfere_quiet w Hp).
  unfold next_fault. rewrite Hd.
  set (w1 := log_attempt (attempt + 1) job_id status_ f
               (set_db_faults (List.map Some fs ++ rest)%list w)).
  assert (H1 : pending w1 = [] /\ db_faults w1 = (List.map Some fs ++ rest)%list
               /\ jobs w1 = jobs w /\ history w1 = history w
               /\ slept w1 = slept w
               /\ app_log w1
                  = (app_log w ++
                     (if fault_log_raises f then []
                      else [mkAppWarning (attempt + 1) job_id status_
                                         (fault_text f)]))%list).
  { unfold w1, log_attempt. destruct (fault_log_raises f); simpl;
      rewrite ?app_nil_r; repeat split; auto. }
  destruct H1 as (Hp1 & Hd1 & Hj1 & Hh1 & Hs1 & Hl1).
  destruct fs as [|f' fs].
  - simpl in Hcap.
    assert (Hstop : (retries <=? attempt + 1) = true) by (apply Z.leb_le; lia).
    rewrite Hstop. exists w1. simpl in Hd1. simpl warnings_from.
    unfold linear_delays. simpl. rewrite !app_nil_r.
    repeat split; auto.
  - simpl length in Hcap.
    assert (Hgo : (retries <=? attempt + 1) = false) by (apply Z.leb_gt; lia).
    rewrite Hgo.
    destruct (IH fuel (attempt + 1)
                 (sleep (backoff * inject_Z (attempt + 1)) w1) rest)
      as (w' & Hrun & Hj & Hh & Hs & Hl & Hf); auto.
    { simpl in Hfuel |- *. lia. }
    { simpl length. lia. }
    exists w'. split; [exact Hrun|].
    split; [simpl in Hj; congruence|]. split; [simpl in Hh; congruence|].
    split.
    { rewrite Hs. simpl slept. rewrite Hs1.
      replace (length (f :: f' :: fs) - 1)%nat with (S (length (f' :: fs) - 1))
        by (simpl; lia).
      rewrite JobsFacts.linear_delays_cons. now rewrite <- app_assoc. }
    split; [|exact Hf].
    rewrite Hl. simpl app_log. rewrite Hl1.
    change (warnings_from attempt job_id status_ (f :: f' :: fs))
      with ((if fault_log_raises f then []
             else [mkAppWarning (attempt + 1) job_id status_ (fault_text f)])
            ++ warnings_from (attempt + 1) job_id status_ (f' :: fs))%list.
    now rewrite <- app_assoc.
Qed.

End Retry.







End JobsMore.

(* ===================================================================== *)
(** * Further properties of run_survey_mapper *)
(* ===================================================================== *)

Module OrchestratorMore.
Import Jobs Orchestrator.

(** ** Rules *)

Lemma hoare_bind {A B} (P : World -> Prop) (c : M A) (k : A -> M B)
      (Qd : A -> World -> Prop) (Qd' : B -> World -> Prop)
      (Qr : World -> Prop) (Qx : string -> World -> Prop) :
  hoare P c Qd Qr Qx ->
  (forall a, hoare (Qd a) (k a) Qd' Qr Qx) ->
  hoare P (bind c k) Qd' Qr Qx.
Proof.
  intros Hc Hk w HP. unfold bind. specialize (Hc w HP).
  destruct (c w) as [[a| |e] w']; auto. now apply Hk.
Qed.

Lemma hoare_conseq {A} (P P' : World -> Prop) (c : M A)
      (Qd Qd' : A -> World -> Prop) (Qr Qr' : World -> Prop)
      (Qx Qx' : string -> World -> Prop) :
  hoare P' c Qd' Qr' Qx' ->
  (forall w, P w -> P' w) ->
  (forall a w, Qd' a w -> Qd a w) ->
  (forall w, Qr' w -> Qr w) ->
  (forall e w, Qx' e w -> Qx e w) ->
  hoare P c Qd Qr Qx.
Proof.
  intros Hc HP Hd Hr Hx w Hw. specialize (Hc w (HP w Hw)).
  destruct (c w) as [[a| |e] w']; auto.
Qed.

Lemma hoare_pre {A} (P P' : World -> Prop) (c : M A)
      (Qd : A -> World -> Prop) (Qr : World -> Prop)
      (Qx : string -> World -> Prop) :
  (forall w, P w -> P' w) -> hoare P' c Qd Qr Qx -> hoare P c Qd Qr Qx.
Proof. intros HP Hc w Hw. apply Hc. now apply HP. Qed.

Lemma hoare_ret {A} (P : World -> Prop) (a : A) (Qd : A -> World -> Prop)
      (Qr : World -> Prop) (Qx : string -> World -> Prop) :
  (forall w, P w -> Qd a w) -> hoare P (ret a) Qd Qr Qx.
Proof. intros H w HP. simpl. auto. Qed.

Lemma hoare_return {A} (P : World -> Prop) (Qd : A -> World -> Prop)
      (Qr : World -> Prop) (Qx : string -> World -> Prop) :
  (forall w, P w -> Qr w) -> hoare P return_ Qd Qr Qx.
Proof. intros H w HP. simpl. auto. Qed.

Lemma hoare_raise {A} (P : World -> Prop) (exc : string)
      (Qd : A -> World -> Prop) (Qr : World -> Prop)
      (Qx : string -> World -> Prop) :
  (forall w, P w -> Qx exc w) -> hoare P (raise exc) Qd Qr Qx.
Proof. intros H w HP. simpl. auto. Qed.

Lemma hoare_local (P : World -> Prop) (f : World -> World)
      (Qd : unit -> World -> Prop) (Qr : World -> Prop)
      (Qx : string -> World -> Prop) :
  (forall w, P w -> Qd tt (f w)) -> hoare P (local f) Qd Qr Qx.
Proof. intros H w HP. simpl. auto. Qed.

Lemma hoare_shared {A} (P : World -> Prop) (f : World -> A * World)
      (Qd : A -> World -> Prop) (Qr : World -> Prop)
      (Qx : string -> World -> Prop) :
  (forall w, P w -> Qd (fst (f (interfere w))) (snd (f (interfere w)))) ->
  hoare P (shared f) Qd Qr Qx.
Proof.
  intros H w HP. unfold shared. specialize (H w HP).
  now destruct (f (interfere w)).
Qed.

Lemma hoare_try_except {A} (P : World -> Prop) (body : M A)
      (handler : string -> M A) (Qd : A -> World -> Prop)
      (Qr : World -> Prop) (Qx Qx' : string -> World -> Prop) :
  hoare P body Qd Qr Qx' ->
  (forall exc, hoare (Qx' exc) (handler exc) Qd Qr Qx) ->
  hoare P (try_except body handler) Qd Qr Qx.
Proof.
  intros Hb Hh w HP. unfold try_except. specialize (Hb w HP).
  destruct (body w) as [[a| |e] w']; auto. now apply Hh.
Qed.

(** ** The store under the writes of a run and of the other threads *)

Lemma update_no_fault (job_id t : string) (e : option string) (w : World) :
  db_faults w = [] ->
  update_status_safe job_id t e default_retries default_backoff w
  = sql_update_status job_id t (clock w) e (interfere w).
Proof.
  intros H. destruct (JobsFacts.interfere_frame w) as (_ & Hf & _).
  unfold update_status_safe, update_fuel. simpl update_loop.
  unfold next_fault. rewrite Hf, H. reflexivity.
Qed.

(** A block of the store that the store accepts is an access to the shared
    state. *)
Lemma store_no_fault {A} (f : World -> A * World) (w : World) :
  db_faults w = [] -> store f w = shared f w.
Proof.
  intros H. destruct (JobsFacts.interfere_frame w) as (_ & Hf & _).
  unfold store, shared, next_fault. now rewrite Hf, H.
Qed.

Lemma hoare_store_quiet {A} (P : World -> Prop) (f : World -> A * World)
      (Qd : A -> World -> Prop) (Qr : World -> Prop)
      (Qx : string -> World -> Prop) :
  (forall w, P w -> db_faults w = []) ->
  (forall w, P w -> Qd (fst (f (interfere w))) (snd (f (interfere w)))) ->
  hoare P (store f) Qd Qr Qx.
Proof.
  intros Hq H w HP. rewrite (store_no_fault f w (Hq w HP)).
  now apply (hoare_shared P f Qd Qr Qx H w).
Qed.

Lemma fold_log_db_faults (l : list Watcher.LogRecord) (w : World) :
  db_faults (fold_left
               (fun w r =>
                  match job_logger_log (Watcher.levelno r)
                                       (Watcher.getMessage r) w with
                  | (_, w') => w'
                  end) l w)
  = db_faults w.
Proof.
  revert w. induction l as [|r l IH]; intros w; [reflexivity|].
  cbn [fold_left]. rewrite IH. unfold job_logger_log, local.
  now destruct (Watcher.INFO <=? Watcher.levelno r).
Qed.

Section Store.
Variable job_id : string.

Lemma Stored_ext (R : Job -> Prop) (w w' : World) :
  jobs w' = jobs w -> db_faults w' = db_faults w ->
  Stored job_id R w -> Stored job_id R w'.
Proof. intros Hj Hd [H1 H2]. split; [congruence|]. now rewrite Hj. Qed.

Lemma Stored_weaken (R R' : Job -> Prop) (w : World) :
  (forall r, R r -> R' r) -> Stored job_id R w -> Stored job_id R' w.
Proof. intros H [H1 (r & Hr & HR)]. split; [exact H1|]. eauto. Qed.

Lemma Stored_cancel_update (R : Job -> Prop) (j now_ : string) (w : World) :
  cancel_stable R -> Stored job_id R w ->
  Stored job_id R (sql_cancel_update j now_ w).
Proof.
  intros HR [H1 (r & Hr & Hrow)]. split.
  - unfold sql_cancel_update. destruct (jobs w !! j) as [r'|]; [|exact H1].
    now destruct (one_of (status r') ["queued"; "processing"]).
  - rewrite JobsMore.sql_cancel_update_lookup.
    destruct (decide (job_id = j)) as [<-|Hne]; [|eauto].
    rewrite Hr. simpl. eauto.
Qed.

Lemma Stored_interfere (R : Job -> Prop) (w : World) :
  cancel_stable R -> Stored job_id R w -> Stored job_id R (interfere w).
Proof.
  intros HR HS. unfold interfere. destruct (pending w) as [|batch later];
    [exact HS|].
  assert (H0 : Stored job_id R (set_pending later w))
    by now apply (Stored_ext R w).
  revert H0. generalize (set_pending later w).
  induction batch as [|i batch IH]; intros w0 H0; simpl; [exact H0|].
  apply IH. destruct i as [j|ev|now]; simpl.
  - now apply Stored_cancel_update.
  - now apply (Stored_ext R w0).
  - now apply (Stored_ext R w0).
Qed.

Lemma Stored_update (R R' : Job -> Prop) (t now_ : string)
      (e : option string) (w : World) :
  (forall r, R r -> R' (updated_row t now_ e r)) ->
  Stored job_id R w ->
  Stored job_id R' (sql_update_status job_id t now_ e w).
Proof.
  intros H [H1 (r & Hr & Hrow)]. split.
  - destruct (JobsFacts.sql_update_status_frame job_id t now_ e w)
      as (_ & _ & Hd & _). cbv zeta in Hd. congruence.
  - rewrite JobsFacts.sql_update_status_lookup.
    destruct (decide (job_id = job_id)) as [_|Hne]; [|congruence].
    rewrite Hr. simpl. eauto.
Qed.

Lemma Stored_zip (R R' : Job -> Prop) (zip now_ : string) (w : World) :
  (forall r, R r ->
             R' {| status := status r; created_at := created_at r;
                   updated_at := now_; error := error r;
                   output_dir := output_dir r;
                   result_zip_path := Some zip |}) ->
  Stored job_id R w -> Stored job_id R' (sql_update_zip job_id zip now_ w).
Proof.
  intros H [H1 (r & Hr & Hrow)]. unfold sql_update_zip. rewrite Hr.
  split; [exact H1|]. simpl. rewrite lookup_insert_eq. eauto.
Qed.

(** ** The statements of a run *)

Section Statements.
Variable F : World -> Prop.
Hypothesis HF : frame_ok F.
Variables (Qr : World -> Prop) (Qx : string -> World -> Prop).

Lemma F_store (w w' : World) :
  events w' = events w -> pending w' = pending w ->
  watcher w' = watcher w -> invoked w' = invoked w -> F w -> F w'.
Proof. apply HF. Qed.

Lemma F_update (t now_ : string) (e : option string) (w : World) :
  F w -> F (sql_update_status job_id t now_ e w).
Proof.
  destruct (JobsFacts.sql_update_status_frame job_id t now_ e w)
    as (_ & He & _ & Hp & _ & _ & Hw & _ & Hi).
  cbv zeta in He, Hp, Hw, Hi. now apply F_store.
Qed.

Lemma s_update (R R' : Job -> Prop) (t : string) (e : option string) :
  cancel_stable R ->
  (forall r now_, R r -> R' (updated_row t now_ e r)) ->
  hoare (At job_id R F) (update job_id t e) (fun _ => At job_id R' F) Qr Qx.
Proof.
  intros HR Hup. apply hoare_local. intros w [HS HFw].
  rewrite (update_no_fault job_id t e w (proj1 HS)). split.
  - apply (Stored_update R); [intros; now apply Hup|].
    now apply Stored_interfere.
  - apply F_update. now apply HF.
Qed.

Lemma s_is_set (R : Job -> Prop) (ev : nat) :
  cancel_stable R ->
  hoare (At job_id R F) (is_set ev)
        (fun b w => At job_id R F w /\ b = event_is_set ev w) Qr Qx.
Proof.
  intros HR. apply hoare_shared. intros w [HS HFw]. simpl.
  split; [|reflexivity]. split; [now apply Stored_interfere|now apply HF].
Qed.

Lemma s_raise_if (R : Job -> Prop) (exc : option string) :
  (forall e w, exc = Some e -> At job_id R F w -> Qx e w) ->
  hoare (At job_id R F) (raise_if exc)
        (fun _ w => At job_id R F w /\ exc = None) Qr Qx.
Proof.
  intros H. destruct exc as [e|].
  - apply hoare_raise. intros w Hw. now apply (H e).
  - apply hoare_ret. auto.
Qed.

Lemma s_log (F' : World -> Prop) (R : Job -> Prop) (levelno : Z)
      (msg : string) :
  (forall w, F w -> F' (snd (job_logger_log levelno msg w))) ->
  hoare (At job_id R F) (job_logger_log levelno msg)
        (fun _ => At job_id R F') Qr Qx.
Proof.
  intros H. apply hoare_local. intros w [HS HFw]. split.
  - destruct (Watcher.INFO <=? levelno); [|exact HS].
    now apply (Stored_ext R w).
  - apply (H w HFw).
Qed.

Lemma s_scan (F' : World -> Prop) (R : Job -> Prop) (read : string + string) :
  (forall w, F w -> F' (snd (scan read w))) ->
  hoare (At job_id R F) (scan read) (fun _ => At job_id R F') Qr Qx.
Proof.
  intros H. apply hoare_local. intros w [HS HFw]. split.
  - now apply (Stored_ext R w).
  - apply (H w HFw).
Qed.

End Statements.

(** *** Every way through a run *)

Lemma frame_ok_anything : frame_ok anything.
Proof. split; intros; exact I. Qed.

Lemma cancel_stable_any : cancel_stable any_row.
Proof. intros ? ? ?. exact I. Qed.

Lemma cancel_stable_terminal (R : Job -> Prop) :
  (forall r, R r -> terminal (status r) = true) -> cancel_stable R.
Proof.
  intros H now_ r Hr. now rewrite JobsMore.cancelled_row_terminal by auto.
Qed.

Lemma settled_terminal (zip : string) (r : Job) :
  settled zip r -> terminal (status r) = true.
Proof. intros [(E & _)|[(E & _)|(E & _)]]; now rewrite E. Qed.

Lemma cancel_stable_settled (zip : string) : cancel_stable (settled zip).
Proof. apply cancel_stable_terminal, settled_terminal. Qed.

Lemma cancel_stable_row_is (t : string) (e : option string) :
  terminal t = true -> cancel_stable (row_is t e).
Proof. intros Ht. apply cancel_stable_terminal. now intros r [-> _]. Qed.

Section Settles.
Variables (zip : string).


Lemma Fin_Live (w : World) : At job_id (settled zip) anything w -> At job_id any_row anything w.
Proof.
  intros [H _]. split; [|exact I]. eapply Stored_weaken; [|exact H].
  intros; exact I.
Qed.

Lemma p_log (R : Job -> Prop) (Qr : World -> Prop)
      (Qx : string -> World -> Prop) (levelno : Z) (msg : string) :
  hoare (At job_id R anything) (job_logger_log levelno msg)
        (fun _ => At job_id R anything) Qr Qx.
Proof. apply s_log. intros; exact I. Qed.

Lemma p_update_live (Qr : World -> Prop) (Qx : string -> World -> Prop)
      (R : Job -> Prop) (t : string) (e : option string) :
  cancel_stable R ->
  hoare (At job_id R anything) (update job_id t e) (fun _ => (At job_id any_row anything)) Qr Qx.
Proof.
  intros HR. apply (s_update anything frame_ok_anything); [exact HR|].
  intros; exact I.
Qed.

Lemma p_update_failed (Qr : World -> Prop) (Qx : string -> World -> Prop)
      (R : Job -> Prop) (msg : string) :
  cancel_stable R ->
  hoare (At job_id R anything) (update job_id "failed" (Some msg))
        (fun _ => (At job_id (settled zip) anything)) Qr Qx.
Proof.
  intros HR. apply (s_update anything frame_ok_anything); [exact HR|].
  intros r now_ _. right. left. split; [reflexivity|]. now exists msg.
Qed.

Lemma p_fail_and_return (Qx : string -> World -> Prop) (R : Job -> Prop)
      (msg log_msg : string) (levelno : Z) :
  cancel_stable R ->
  @hoare unit (At job_id R anything)
        (update job_id "failed" (Some msg) ;;
         job_logger_log levelno log_msg ;;
         return_)
        (fun _ => (At job_id (settled zip) anything)) (At job_id (settled zip) anything) Qx.
Proof.
  intros HR.
  eapply hoare_bind; [now apply p_update_failed|intros ?].
  eapply hoare_bind; [apply p_log|intros ?].
  apply hoare_return. auto.
Qed.

Lemma p_abort (Qr : World -> Prop) (Qx : string -> World -> Prop)
      (R : Job -> Prop) (prefix : string) (read : string + string) :
  cancel_stable R ->
  hoare (At job_id R anything) (_abort_if_error job_id prefix read)
        (fun (b : bool) w => if b then At job_id (settled zip) anything w else At job_id R anything w)
        Qr Qx.
Proof.
  intros HR. unfold _abort_if_error.
  eapply hoare_bind with (Qd := fun _ => At job_id R anything).
  { apply s_scan. intros; exact I. }
  intros ? w Hw.
  destruct (Watcher.error_message (watcher w)) as [m|]; [|exact Hw].
  destruct (Py.truthy m); [|exact Hw].
  revert w Hw.
  change (hoare (At job_id R anything)
    (update job_id "failed"
            (Some (prefix ++ "Fail-fast due to error in logs: " ++ m)) ;;
     error_ (prefix ++ "Fail-fast due to error in logs: " ++ m) ;;
     ret true)
    (fun (b : bool) w => if b then At job_id (settled zip) anything w else At job_id R anything w) Qr Qx).
  eapply hoare_bind; [now apply p_update_failed|intros ?].
  eapply hoare_bind; [apply p_log|intros ?].
  apply hoare_ret. auto.
Qed.

Lemma p_exit_if_aborted (P : World -> Prop) (aborted : bool)
      (Qx : string -> World -> Prop) :
  hoare (fun w => if aborted then At job_id (settled zip) anything w else P w)
        (if aborted then return_ else ret tt) (fun _ => P) (At job_id (settled zip) anything) Qx.
Proof. destruct aborted; [now apply hoare_return|now apply hoare_ret]. Qed.

Lemma p_cancel_check (Qx : string -> World -> Prop) (ev : nat)
      (where_ log_msg : string) :
  hoare (At job_id any_row anything)
        (cancel_check job_id ev ("Canceled before " ++ where_) log_msg)
        (fun _ => (At job_id any_row anything)) (At job_id (settled zip) anything) Qx.
Proof.
  unfold cancel_check.
  eapply hoare_bind.
  { apply (s_is_set anything frame_ok_anything). apply cancel_stable_any. }
  intros c. destruct c; [|apply hoare_ret; now intros w [H _]].
  eapply hoare_bind with (Qd := fun _ => (At job_id (settled zip) anything)).
  { eapply hoare_pre; [intros w [H _]; exact H|].
    apply (s_update anything frame_ok_anything); [apply cancel_stable_any|].
    intros r now_ _. right. right. split; [reflexivity|]. now exists where_. }
  intros ?. eapply hoare_bind; [apply p_log|intros ?].
  apply hoare_return. auto.
Qed.

Lemma p_raise_if (Qr : World -> Prop) (exc : option string) :
  hoare (At job_id any_row anything) (raise_if exc) (fun _ => (At job_id any_row anything)) Qr (fun _ => (At job_id any_row anything)).
Proof.
  destruct exc; [now apply hoare_raise | now apply hoare_ret].
Qed.

Lemma p_call_step (Qr : World -> Prop) (c : Call) (s : StepOutcome) :
  hoare (At job_id any_row anything) (call_step c s) (fun _ => (At job_id any_row anything)) Qr (fun _ => (At job_id any_row anything)).
Proof.
  unfold call_step.
  eapply hoare_bind with (Qd := fun _ => (At job_id any_row anything)).
  { apply hoare_local. intros w [HS _]. split; [|exact I].
    now apply (Stored_ext any_row w). }
  intros ?. eapply hoare_bind with (Qd := fun _ => (At job_id any_row anything)).
  { apply hoare_local. intros w [HS _]. split; [|exact I].
    destruct (OrchestratorFacts.fold_log_frame (emitted s) w) as [H1 _].
    cbv zeta in H1. apply (Stored_ext any_row w); [exact H1| |exact HS].
    apply fold_log_db_faults. }
  intros ?. destruct (outcome s); [now apply hoare_raise | now apply hoare_ret].
Qed.

Lemma p_save_final_zip_location (Qr : World -> Prop) (env : Env)
      (zip_location : string) :
  zip = fspath env zip_location ->
  hoare (At job_id (row_is "complete" None) anything)
        (save_final_zip_location job_id zip_location env)
        (fun _ => (At job_id (settled zip) anything)) Qr (fun _ => (At job_id any_row anything)).
Proof.
  intros Hzip.
  assert (Hst : cancel_stable (row_is "complete" None))
    by now apply cancel_stable_row_is.
  assert (Hlive : forall w, At job_id (row_is "complete" None) anything w ->
                            At job_id any_row anything w).
  { intros w [H _]. split; [|exact I]. eapply Stored_weaken; [|exact H].
    intros; exact I. }
  unfold save_final_zip_location.
  eapply hoare_bind
    with (Qd := fun (row : option Job) w =>
                  At job_id (row_is "complete" None) anything w
                  /\ exists r, row = Some r /\ status r = "complete").
  { apply hoare_store_quiet; [intros w [HS _]; apply HS|].
    intros w [HS _]. simpl.
    apply (Stored_interfere _ _ Hst) in HS.
    split; [split; [exact HS|exact I]|].
    destruct HS as [_ (r & Hr & Hs & _)]. exists r. now rewrite Hr. }
  intros [r|]; [|intros w [_ (r & Hr & _)]; discriminate].
  eapply hoare_bind
    with (Qd := fun (_ : option nat) w =>
                  At job_id (row_is "complete" None) anything w
                  /\ status r = "complete").
  { apply hoare_shared. intros w [[HS _] (r' & [= <-] & Hs)]. simpl.
    split; [|exact Hs]. split; [|exact I]. now apply Stored_interfere. }
  intros running_ev w [HA Hs]. rewrite Hs. simpl. rewrite andb_false_r.
  destruct (negb (Py.truthy zip_location && zip_exists env));
    [now apply Hlive|].
  destruct (negb (zip_still_exists env)); [now apply Hlive|].
  destruct (negb (Py.truthy_opt (output_dir r))); [now apply Hlive|].
  rewrite (store_no_fault _ w (proj1 (proj1 HA))).
  unfold shared. simpl. split; [|exact I]. rewrite <- Hzip.
  apply (Stored_zip (row_is "complete" None)).
  - intros r0 [E1 E2]. left. auto.
  - apply Stored_interfere; [exact Hst|apply HA].
Qed.

Ltac p_neutral :=
  first [ apply p_log | apply p_raise_if | apply p_call_step
        | apply p_cancel_check
        | apply p_update_live; apply cancel_stable_any ].

Ltac p_next := eapply hoare_bind; [p_neutral|intros ?].

Ltac p_abort_check :=
  eapply hoare_bind;
  [ apply p_abort; apply cancel_stable_any
  | let b := fresh "aborted" in
    intros b; eapply hoare_bind; [apply p_exit_if_aborted|intros ?] ].

Ltac p_fail :=
  match goal with
  | |- hoare _ _ _ _ ?Qx =>
      apply (p_fail_and_return Qx); apply cancel_stable_any
  end.

(** The body of the [try]: where it ends or returns, the job is settled;
    where it raises, its row is still there. *)
Lemma p_run_body (dir : string) (ev : nat) (env : Env) :
  zip = stored_zip env dir ->
  hoare (At job_id any_row anything) (run_body job_id dir ev env)
        (fun _ => At job_id (settled zip) anything)
        (At job_id (settled zip) anything)
        (fun _ => At job_id any_row anything).
Proof.
  intros Hzip. unfold run_body.
  p_next. p_next. p_abort_check.
  eapply hoare_bind;
    [apply (p_cancel_check _ ev "start")|intros ?].
  eapply hoare_bind with (Qd := fun _ => At job_id any_row anything).
  { destruct (db_fetch env) as [[exc|]|].
    - p_next. p_next. p_neutral.
    - p_next. p_neutral.
    - now apply hoare_ret. }
  intros ?.
  eapply hoare_bind;
    [apply (p_cancel_check _ ev "processing")|intros ?].
  p_next. p_next. p_next.
  eapply hoare_bind;
    [apply (p_cancel_check _ ev "grid processing")|intros ?].
  p_next.
  eapply hoare_bind; [p_neutral|intros step1].
  assert (Hfailed1 :
    @hoare unit (At job_id any_row anything)
      (update job_id "failed" (Some "Grid processing failed") ;;
       error_ "Step 1 failed" ;;
       aborted <- _abort_if_error job_id "after step1: "
                                  (read_after_step1 env) ;;
       (if aborted : bool then return_ else ret tt) ;;
       return_)
      (fun _ => At job_id (settled zip) anything)
      (At job_id (settled zip) anything)
      (fun _ => At job_id any_row anything)).
  { eapply hoare_bind;
      [apply p_update_failed; apply cancel_stable_any|intros ?].
    eapply hoare_bind; [apply p_log|intros ?].
    eapply hoare_bind;
      [apply p_abort; apply cancel_stable_settled|intros b1].
    eapply hoare_bind; [apply p_exit_if_aborted|intros ?].
    now apply hoare_return. }
  destruct step1 as [|[[] d1 e1]]; try exact Hfailed1.
  clear Hfailed1.
  p_next.
  eapply hoare_bind;
    [apply (p_cancel_check _ ev "export")|intros ?].
  p_next.
  eapply hoare_bind; [p_neutral|intros step2].
  destruct step2 as [|step2]; [p_fail|].
  eapply hoare_bind with (Qd := fun _ => At job_id any_row anything).
  { destruct (success step2); [now apply hoare_ret|].
    eapply hoare_bind with (Qd := fun _ => At job_id any_row anything).
    { destruct (errors step2); simpl;
        first [now apply hoare_ret | now apply hoare_raise]. }
    intros msg. p_fail. }
  intros ?. p_next.
  eapply hoare_bind;
    [apply (p_cancel_check _ ev "zip")|intros ?].
  p_next. p_abort_check.
  eapply hoare_bind with (Qd := fun _ => At job_id any_row anything).
  { eapply hoare_try_except with (Qx' := fun _ => At job_id any_row anything).
    - p_next. eapply hoare_bind; [|intros ?].
      { apply hoare_local with (Qd := fun _ => At job_id any_row anything).
        intros w [HS _]. split; [|exact I].
        now apply (Stored_ext any_row w). }
      p_next. p_neutral.
    - intros xc. p_fail. }
  intros ?. p_next.
  eapply hoare_bind with (Qd := fun _ => At job_id (row_is "complete" None)
                                            anything).
  { apply (s_update anything frame_ok_anything); [apply cancel_stable_any|].
    intros r now_ _. split; reflexivity. }
  intros ?.
  eapply hoare_bind; [apply p_save_final_zip_location; exact Hzip|intros ?].
  apply p_log.
Qed.

End Settles.
End Store.

(** A run whose setup raises nothing: the [try] with its handler, then the
    finalizer. *)
Lemma hoare_run (job_id dir : string) (ev : nat) (env : Env)
      (P Qm Q : World -> Prop) (w : World) :
  setup_exc env = None ->
  hoare P
        (try_except
           (run_body job_id dir ev env)
           (fun exc =>
              update job_id "failed" (Some exc) ;;
              exception "Unhandled error in job"))
        (fun _ => Qm) Qm (fun _ _ => False) ->
  hoare Qm
        (shared (fun w => (tt, set_RUNNING_JOBS
                                 (delete job_id (RUNNING_JOBS w)) w)) ;;
         info "Job finalizer finished")
        (fun _ => Q) (fun _ => False) (fun _ _ => False) ->
  P (set_watcher (Watcher.init (latest_log env) true) (set_job_log [] w)) ->
  fst (run_survey_mapper job_id dir ev env w) = Done tt
  /\ Q (snd (run_survey_mapper job_id dir ev env w)).
Proof.
  intros Hsetup Htry Hfin H0.
  assert (Hrun : run_survey_mapper job_id dir ev env w
                 = def (try_finally
                          (try_except
                             (run_body job_id dir ev env)
                             (fun exc =>
                                update job_id "failed" (Some exc) ;;
                                exception "Unhandled error in job"))
                          (shared (fun w => (tt, set_RUNNING_JOBS
                                                   (delete job_id (RUNNING_JOBS w)) w)) ;;
                           info "Job finalizer finished"))
                       (set_watcher (Watcher.init (latest_log env) true)
                                    (set_job_log [] w))).
  { unfold run_survey_mapper, def. unfold bind at 1.
    now rewrite (OrchestratorFacts.setup_ok env w Hsetup). }
  rewrite Hrun. unfold def, try_finally.
  specialize (Htry _ H0).
  destruct (try_except _ _ _) as [o w1].
  assert (H1 : Qm w1) by (destruct o; [exact Htry|exact Htry|contradiction]).
  specialize (Hfin _ H1).
  destruct ((shared _ ;; info _) w1) as [[[]| |e] w2]; try contradiction.
  destruct o as [[]| |e]; [| |contradiction]; split; auto.
Qed.

Section Finalizer.
Variables (job_id : string) (F : World -> Prop).
Hypothesis HF : frame_ok F.

Lemma s_finalizer (R : Job -> Prop) :
  cancel_stable R ->
  hoare (fun w => At job_id R F w)
        (shared (fun w => (tt, set_RUNNING_JOBS
                                 (delete job_id (RUNNING_JOBS w)) w)) ;;
         info "Job finalizer finished")
        (fun _ w => Stored job_id R w /\ RUNNING_JOBS w !! job_id = None
                    /\ exists w0, F w0 /\ events w = events w0
                                  /\ invoked w = invoked w0)
        (fun _ => False) (fun _ _ => False).
Proof.
  intros HR w [HS HFw]. simpl. split.
  - apply (Stored_ext job_id R (interfere w)); try reflexivity.
    now apply Stored_interfere.
  - split; [apply lookup_delete_eq|].
    exists (interfere w). split; [now apply HF|]. split; reflexivity.
Qed.

End Finalizer.

(** ** The token and the watcher of a run *)

Lemma event_is_set_interference (ev : nat) (w : World) (i : Interference) :
  i <> ISetEvent ev ->
  event_is_set ev (apply_interference w i) = event_is_set ev w.
Proof.
  intros Hi. destruct i as [j|ev'|now]; simpl.
  - unfold event_is_set.
    destruct (JobsMore.sql_cancel_update_frame j (clock w) w) as (_ & He & _).
    cbv zeta in He. now rewrite He.
  - unfold event_is_set, event_set. simpl.
    rewrite lookup_insert_ne; [reflexivity|]. intros ->. now apply Hi.
  - reflexivity.
Qed.

Lemma event_stays_set (ev : nat) (w : World) (i : Interference) :
  event_is_set ev w = true ->
  event_is_set ev (apply_interference w i) = true.
Proof.
  intros H. destruct i as [j|ev'|now]; simpl.
  - unfold event_is_set.
    destruct (JobsMore.sql_cancel_update_frame j (clock w) w) as (_ & He & _).
    cbv zeta in He. now rewrite He.
  - unfold event_is_set, event_set in *. simpl.
    destruct (decide (ev' = ev)) as [->|Hne].
    + now rewrite lookup_insert_eq.
    + now rewrite lookup_insert_ne.
  - exact H.
Qed.

Lemma token_ok_not_cancelled (ev : nat) : token_ok (not_cancelled ev).
Proof.
  split.
  - intros w [Hev Hp]. unfold interfere.
    destruct (pending w) as [|batch later] eqn:Hpw;
      [split; [exact Hev|now rewrite Hpw]|].
    apply Forall_cons in Hp as [Hb Hl].
    assert (H0 : not_cancelled ev (set_pending later w)) by now split.
    assert (Hgen : forall w0, not_cancelled ev w0 ->
                              not_cancelled ev
                                (fold_left apply_interference batch w0)).
    { clear -Hb. induction batch as [|i batch IH]; intros w0 H0; [exact H0|].
      apply Forall_cons in Hb as [Hi Hb]. simpl. apply IH; [exact Hb|].
      destruct H0 as [He Hp]. split.
      - now rewrite event_is_set_interference.
      - destruct (JobsFacts.apply_interference_frame w0 i)
          as (_ & _ & Hpe & _). cbv zeta in Hpe. now rewrite Hpe. }
    now apply Hgen.
  - intros w w' He Hp [H1 H2]. split.
    + unfold event_is_set in *. now rewrite He.
    + now rewrite Hp.
Qed.

Lemma token_ok_cancelled (ev : nat) : token_ok (cancelled ev).
Proof.
  split.
  - intros w Hev. unfold interfere.
    destruct (pending w) as [|batch later]; [exact Hev|].
    assert (H0 : cancelled ev (set_pending later w)) by exact Hev.
    revert H0. generalize (set_pending later w).
    induction batch as [|i batch IH]; intros w0 H0; [exact H0|].
    simpl. apply IH. now apply event_stays_set.
  - intros w w' He _ H. unfold cancelled, event_is_set in *.
    now rewrite He.
Qed.

Lemma frame_ok_Frame (tok : World -> Prop)
      (hp : Watcher.FailFastLogWatcher -> Prop) (iv : list Call) :
  token_ok tok -> frame_ok (Frame tok hp iv).
Proof.
  intros [Hi Hs]. split.
  - intros w (Ht & Hh & Hv).
    destruct (JobsFacts.interfere_frame w) as (_ & _ & _ & _ & Hw & _ & Hin).
    split; [now apply Hi|]. split; [now rewrite Hw|now rewrite Hin].
  - intros w w' He Hp Hw Hin (Ht & Hh & Hv).
    split; [now apply (Hs w)|]. split; [now rewrite Hw|now rewrite Hin].
Qed.

Lemma handle_quiet (r : Watcher.LogRecord) (h : Watcher.FailFastLogWatcher) :
  quiet_record r = true -> Watcher.handle r h = h.
Proof.
  unfold quiet_record, Watcher.handle, Watcher.emit. intros H.
  apply negb_true_iff in H. rewrite H. now destruct (Watcher.INFO <=? _).
Qed.

Lemma handle_latched (r : Watcher.LogRecord) (h : Watcher.FailFastLogWatcher) :
  Watcher.latched h = true -> Watcher.handle r h = h.
Proof.
  intros H. unfold Watcher.handle.
  destruct (Watcher.INFO <=? _); [|reflexivity].
  now apply WatcherFacts.emit_latched.
Qed.

Lemma scan_quiet (read : string + string) (h : Watcher.FailFastLogWatcher) :
  quiet_read read = true -> Watcher.scan_file_once read h = h.
Proof.
  unfold quiet_read, Watcher.scan_file_once. intros H.
  destruct (negb (Watcher.poll_file h) || _); [reflexivity|].
  destruct read as [txt|e]; [|reflexivity].
  apply negb_true_iff in H. now rewrite H.
Qed.

Section Frames.
Variables (job_id : string) (tok : World -> Prop).
Hypothesis Htok : token_ok tok.
Variables (Qr : World -> Prop) (Qx : string -> World -> Prop).

Lemma Frame_log (hp hp' : Watcher.FailFastLogWatcher -> Prop)
      (iv : list Call) (levelno : Z) (msg : string) (w : World) :
  (forall h, hp h -> hp' h) ->
  (forall h, hp h -> hp' (Watcher.handle (Watcher.mkRecord levelno msg) h)) ->
  Frame tok hp iv w ->
  Frame tok hp' iv (snd (job_logger_log levelno msg w)).
Proof.
  intros Hsame Hh (Ht & Hw & Hv). unfold job_logger_log, local. cbn [snd].
  destruct (Watcher.INFO <=? levelno).
  - split; [apply (proj2 Htok w); [reflexivity..|exact Ht]|].
    split; [now apply Hh|exact Hv].
  - split; [exact Ht|]. split; [now apply Hsame|exact Hv].
Qed.

(** A record that does not set off the watcher. *)
Lemma f_log (R : Job -> Prop) (h : Watcher.FailFastLogWatcher)
      (iv : list Call) (levelno : Z) (msg : string) :
  Watcher.handle (Watcher.mkRecord levelno msg) h = h ->
  hoare (At job_id R (Frame tok (eq h) iv)) (job_logger_log levelno msg)
        (fun _ => At job_id R (Frame tok (eq h) iv)) Qr Qx.
Proof.
  intros H. apply s_log. intros w. apply Frame_log; [auto|].
  intros h0 <-. now rewrite H.
Qed.

(** A record after the last look at the watcher. *)
Lemma f_log_any (R : Job -> Prop)
      (hp : Watcher.FailFastLogWatcher -> Prop) (iv : list Call)
      (levelno : Z) (msg : string) :
  hoare (At job_id R (Frame tok hp iv)) (job_logger_log levelno msg)
        (fun _ => At job_id R (Frame tok (fun _ => True) iv)) Qr Qx.
Proof. apply s_log. intros w. apply Frame_log; auto. Qed.

Lemma f_update (R R' : Job -> Prop)
      (hp : Watcher.FailFastLogWatcher -> Prop) (iv : list Call)
      (t : string) (e : option string) :
  cancel_stable R ->
  (forall r now_, R r -> R' (updated_row t now_ e r)) ->
  hoare (At job_id R (Frame tok hp iv)) (update job_id t e)
        (fun _ => At job_id R' (Frame tok hp iv)) Qr Qx.
Proof. apply s_update. now apply frame_ok_Frame. Qed.

Lemma f_abort_quiet (R : Job -> Prop) (h : Watcher.FailFastLogWatcher)
      (iv : list Call) (prefix : string) (read : string + string) :
  Watcher.latched h = false -> quiet_read read = true ->
  hoare (At job_id R (Frame tok (eq h) iv))
        (_abort_if_error job_id prefix read)
        (fun b w => b = false /\ At job_id R (Frame tok (eq h) iv) w) Qr Qx.
Proof.
  intros Hl Hq. unfold _abort_if_error.
  eapply hoare_bind with (Qd := fun _ => At job_id R (Frame tok (eq h) iv)).
  { apply s_scan. intros w (Ht & Hw & Hv). unfold scan, local. simpl.
    split; [now apply (proj2 Htok w)|].
    split; [rewrite <- Hw; now rewrite scan_quiet|exact Hv]. }
  intros ? w HA. destruct HA as [HS (Ht & Hw & Hv)].
  unfold Watcher.latched in Hl. rewrite <- Hw.
  destruct (Watcher.error_message h) as [m|]; simpl in Hl.
  - rewrite Hl. split; [reflexivity|]. split; [exact HS|]. now split.
  - split; [reflexivity|]. split; [exact HS|]. now split.
Qed.

Lemma f_abort_latched (R R' : Job -> Prop) (h : Watcher.FailFastLogWatcher)
      (iv : list Call) (prefix m : string) (read : string + string) :
  cancel_stable R ->
  Watcher.error_message (Watcher.scan_file_once read h) = Some m ->
  Py.truthy m = true ->
  (forall r now_,
      R r ->
      R' (updated_row "failed" now_
            (Some (prefix ++ "Fail-fast due to error in logs: " ++ m)) r)) ->
  hoare (At job_id R (Frame tok (eq h) iv))
        (_abort_if_error job_id prefix read)
        (fun b w =>
           b = true /\ At job_id R' (Frame tok (fun _ => True) iv) w)
        Qr Qx.
Proof.
  intros HR Hm Ht Hup. unfold _abort_if_error.
  eapply hoare_bind
    with (Qd := fun _ => At job_id R
                           (Frame tok (eq (Watcher.scan_file_once read h)) iv)).
  { apply s_scan. intros w (Ht' & Hw & Hv). unfold scan, local. simpl.
    split; [now apply (proj2 Htok w)|]. split; [now rewrite Hw|exact Hv]. }
  intros ? w HA.
  assert (Hw : watcher w = Watcher.scan_file_once read h).
  { destruct HA as [_ (_ & Hw & _)]. now rewrite Hw. }
  rewrite Hw, Hm, Ht. revert w HA Hw.
  assert (Hgo : hoare (At job_id R
                          (Frame tok (eq (Watcher.scan_file_once read h)) iv))
    (update job_id "failed"
            (Some (prefix ++ "Fail-fast due to error in logs: " ++ m)) ;;
     error_ (prefix ++ "Fail-fast due to error in logs: " ++ m) ;;
     ret true)
    (fun b w =>
       b = true /\ At job_id R' (Frame tok (fun _ => True) iv) w) Qr Qx).
  { eapply hoare_bind; [now apply f_update with (R' := R')|].
    intros ?. eapply hoare_bind; [apply f_log_any|intros ?].
    apply hoare_ret. auto. }
  intros w HA _. apply (Hgo w HA).
Qed.

Lemma f_check_passes (R : Job -> Prop)
      (hp : Watcher.FailFastLogWatcher -> Prop) (iv : list Call)
      (ev : nat) (err log_msg : string) :
  cancel_stable R ->
  (forall w, tok w -> event_is_set ev w = false) ->
  hoare (At job_id R (Frame tok hp iv)) (cancel_check job_id ev err log_msg)
        (fun _ => At job_id R (Frame tok hp iv)) Qr Qx.
Proof.
  intros HR Hev. unfold cancel_check.
  eapply hoare_bind.
  { apply (s_is_set job_id _ (frame_ok_Frame tok hp iv Htok)). exact HR. }
  intros c w [HA Hc].
  assert (Hc' : c = false).
  { rewrite Hc. apply Hev. apply HA. }
  subst c. rewrite Hc'. exact HA.
Qed.

Lemma f_raise_if_none (R : Job -> Prop) (F : World -> Prop)
      (exc : option string) :
  exc = None ->
  hoare (At job_id R F) (raise_if exc) (fun _ => At job_id R F) Qr Qx.
Proof. intros ->. now apply hoare_ret. Qed.

Lemma fold_log_quiet (l : list Watcher.LogRecord) :
  Forall (fun r => quiet_record r = true) l ->
  forall w,
    let w' := fold_left
                (fun w r =>
                   match job_logger_log (Watcher.levelno r)
                                        (Watcher.getMessage r) w with
                   | (_, w') => w'
                   end) l w in
    events w' = events w /\ pending w' = pending w
    /\ watcher w' = watcher w /\ invoked w' = invoked w.
Proof.
  induction 1 as [|r l Hr _ IH]; intros w; [repeat split|].
  cbn [fold_left]. cbv zeta in IH.
  destruct (IH (let (_, w') := job_logger_log (Watcher.levelno r)
                                              (Watcher.getMessage r) w in w'))
    as (H1 & H2 & H3 & H4).
  rewrite H1, H2, H3, H4. unfold job_logger_log, local.
  destruct (Watcher.INFO <=? Watcher.levelno r); [|repeat split].
  simpl. repeat split.
  destruct r as [lv msg]. now apply handle_quiet.
Qed.

Lemma f_call_step (R : Job -> Prop) (h : Watcher.FailFastLogWatcher)
      (iv : list Call) (c : Call) (s : StepOutcome) :
  Forall (fun r => quiet_record r = true) (emitted s) ->
  hoare (At job_id R (Frame tok (eq h) iv)) (call_step c s)
        (fun v w => outcome s = inr v
                    /\ At job_id R (Frame tok (eq h) (iv ++ [c])) w)
        Qr
        (fun exc w => outcome s = inl exc
                      /\ At job_id R (Frame tok (eq h) (iv ++ [c])) w).
Proof.
  intros Hq. unfold call_step.
  eapply hoare_bind
    with (Qd := fun _ => At job_id R (Frame tok (eq h) (iv ++ [c]))).
  { apply hoare_local. intros w [HS (Ht & Hw & Hv)]. split.
    - now apply (Stored_ext job_id R w).
    - split; [now apply (proj2 Htok w)|]. split; [exact Hw|].
      simpl. now rewrite Hv. }
  intros ?.
  eapply hoare_bind
    with (Qd := fun _ => At job_id R (Frame tok (eq h) (iv ++ [c]))).
  { apply hoare_local. intros w [HS (Ht & Hw & Hv)].
    destruct (fold_log_quiet (emitted s) Hq w) as (H1 & H2 & H3 & H4).
    destruct (OrchestratorFacts.fold_log_frame (emitted s) w) as [H5 _].
    cbv zeta in H1, H2, H3, H4, H5. split.
    - apply (Stored_ext job_id R w); [exact H5| |exact HS].
      apply fold_log_db_faults.
    - split; [now apply (proj2 Htok w)|]. split; congruence. }
  intros ?. destruct (outcome s) as [exc|v].
  - apply hoare_raise. auto.
  - apply hoare_ret. auto.
Qed.

Lemma fold_log_others (l : list Watcher.LogRecord) (w : World) :
  let w' := fold_left
              (fun w r =>
                 match job_logger_log (Watcher.levelno r)
                                      (Watcher.getMessage r) w with
                 | (_, w') => w'
                 end) l w in
  events w' = events w /\ pending w' = pending w /\ invoked w' = invoked w.
Proof.
  revert w. induction l as [|r l IH]; intros w; [repeat split|].
  cbn [fold_left]. cbv zeta in IH.
  destruct (IH (let (_, w') := job_logger_log (Watcher.levelno r)
                                              (Watcher.getMessage r) w in w'))
    as (H1 & H2 & H3).
  rewrite H1, H2, H3. unfold job_logger_log, local.
  destruct (Watcher.INFO <=? Watcher.levelno r); repeat split.
Qed.

(** A step of the engine, whatever it logs: what the watcher holds after it
    is not known. *)
Lemma f_call_step_any (R : Job -> Prop)
      (hp : Watcher.FailFastLogWatcher -> Prop) (iv : list Call) (c : Call)
      (s : StepOutcome) :
  hoare (At job_id R (Frame tok hp iv)) (call_step c s)
        (fun v w => outcome s = inr v
                    /\ At job_id R (Frame tok (fun _ => True) (iv ++ [c])) w)
        Qr
        (fun exc w => outcome s = inl exc
                      /\ At job_id R
                            (Frame tok (fun _ => True) (iv ++ [c])) w).
Proof.
  unfold call_step.
  eapply hoare_bind
    with (Qd := fun _ => At job_id R (Frame tok (fun _ => True) (iv ++ [c]))).
  { apply hoare_local. intros w [HS (Ht & Hw & Hv)]. split.
    - now apply (Stored_ext job_id R w).
    - split; [now apply (proj2 Htok w)|]. split; [exact I|].
      simpl. now rewrite Hv. }
  intros ?.
  eapply hoare_bind
    with (Qd := fun _ => At job_id R (Frame tok (fun _ => True) (iv ++ [c]))).
  { apply hoare_local. intros w [HS (Ht & Hw & Hv)].
    destruct (fold_log_others (emitted s) w) as (H1 & H2 & H4).
    destruct (OrchestratorFacts.fold_log_frame (emitted s) w) as [H5 _].
    cbv zeta in H1, H2, H4, H5. split.
    - apply (Stored_ext job_id R w); [exact H5| |exact HS].
      apply fold_log_db_faults.
    - split; [now apply (proj2 Htok w)|]. split; [exact I|congruence]. }
  intros ?. destruct (outcome s) as [exc|v].
  - apply hoare_raise. auto.
  - apply hoare_ret. auto.
Qed.

End Frames.

Lemma f_pass_checkpoint {B} (job_id : string) (tok : World -> Prop)
      (R : Job -> Prop) (h : Watcher.FailFastLogWatcher) (iv : list Call)
      (prefix : string) (read : string + string) (k : M B)
      (Qd : B -> World -> Prop) (Qr : World -> Prop)
      (Qx : string -> World -> Prop) :
  token_ok tok ->
  Watcher.latched h = false -> quiet_read read = true ->
  hoare (At job_id R (Frame tok (eq h) iv)) k Qd Qr Qx ->
  hoare (At job_id R (Frame tok (eq h) iv))
        (aborted <- _abort_if_error job_id prefix read ;;
         (if aborted : bool then return_ else ret tt) ;;
         k)
        Qd Qr Qx.
Proof.
  intros Htok Hl Hq Hk.
  eapply hoare_bind; [now apply f_abort_quiet|].
  intros b. destruct b; [intros w [Hb _]; discriminate|].
  eapply hoare_bind
    with (Qd := fun _ => At job_id R (Frame tok (eq h) iv));
    [apply hoare_ret; intros w [_ H]; exact H|].
  intros _. exact Hk.
Qed.

Lemma f_check_cancels (job_id : string) (tok : World -> Prop)
      (R R' : Job -> Prop)
      (hp : Watcher.FailFastLogWatcher -> Prop) (iv : list Call)
      (Qd : unit -> World -> Prop) (Qx : string -> World -> Prop)
      (ev : nat) (err log_msg : string) :
  token_ok tok ->
  cancel_stable R ->
  (forall w, tok w -> event_is_set ev w = true) ->
  (forall r now_, R r -> R' (updated_row "canceled" now_ (Some err) r)) ->
  hoare (At job_id R (Frame tok hp iv)) (cancel_check job_id ev err log_msg)
        Qd (At job_id R' (Frame tok (fun _ => True) iv)) Qx.
Proof.
  intros Htok HR Hev Hup. unfold cancel_check.
  eapply hoare_bind.
  { apply (s_is_set job_id _ (frame_ok_Frame tok hp iv Htok)). exact HR. }
  intros c.
  apply hoare_pre
    with (P' := fun w => c = true /\ At job_id R (Frame tok hp iv) w).
  { intros w [HA Hc]. split; [|exact HA]. rewrite Hc. apply Hev. apply HA. }
  destruct c; [|intros w [Hc _]; discriminate].
  eapply hoare_bind.
  { eapply hoare_pre; [intros w [_ HA]; exact HA|].
    now apply f_update with (R' := R'). }
  intros ?. eapply hoare_bind; [now apply f_log_any|intros ?].
  apply hoare_return. auto.
Qed.


(** X11: when the lines before the [try] raise nothing and the store
    accepts every statement, a run of the orchestrator ends without an
    exception, with the token of the job out of the registry and the job
    settled: complete with no error text and, as result_zip_path, the text
    that pathlib gives for the path of the archive, or failed with an error
    text, or canceled with an error text that starts with
    "Canceled before".  This holds for every outcome of the engine, of the
    file system, of pathlib and of the watcher, and however the
    cancellation handlers, the setting of tokens and the clock interleave
    with the run: no job is left queued, processing or cancelling. *)
Theorem run_settles_the_job :
  forall (job_id dir : string) (cancel_event : nat) (env : Env) (w : World),
    setup_exc env = None ->
    db_faults w = [] ->
    is_Some (jobs w !! job_id) ->
    let r := run_survey_mapper job_id dir cancel_event env w in
    fst r = Done tt
    /\ RUNNING_JOBS (snd r) !! job_id = None
    /\ exists row, jobs (snd r) !! job_id = Some row
                   /\ settled (stored_zip env dir) row.
Proof.
  intros job_id dir ev env w Hsetup Hdb [row0 Hrow0] r.
  set (zip := stored_zip env dir).
  destruct (hoare_run job_id dir ev env
              (At job_id any_row anything)
              (At job_id (settled zip) anything)
              (fun w => Stored job_id (settled zip) w
                        /\ RUNNING_JOBS w !! job_id = None
                        /\ exists w0, anything w0 /\ events w = events w0
                                      /\ invoked w = invoked w0)
              w Hsetup) as [Hdone (HS & Hpop & _)].
  - eapply hoare_try_except; [now apply p_run_body|].
    intros exc.
    eapply hoare_bind;
      [apply p_update_failed; apply cancel_stable_any|intros ?].
    apply p_log.
  - apply (s_finalizer job_id anything frame_ok_anything).
    apply cancel_stable_settled.
  - split; [|exact I]. split; [exact Hdb|]. exists row0. now split.
  - split; [exact Hdone|]. split; [exact Hpop|]. apply HS.
Qed.

Lemma cancel_stable_origin (row0 : Job) : cancel_stable (same_origin row0).
Proof.
  intros now_ r H. unfold cancelled_row.
  now destruct (one_of (status r) ["queued"; "processing"]).
Qed.

Lemma cancel_stable_ended (t : string) (e : option string) (row0 : Job) :
  terminal t = true ->
  cancel_stable (fun r => row_is t e r /\ same_origin row0 r).
Proof.
  intros Ht. apply cancel_stable_terminal. now intros r [[-> _] _].
Qed.

Lemma f_step_returns {B} (job_id : string) (tok : World -> Prop)
      (R : Job -> Prop) (h : Watcher.FailFastLogWatcher) (iv : list Call)
      (c : Call) (s : StepOutcome) (v : StepReturn) (k : StepReturn -> M B)
      (Qd : B -> World -> Prop) (Qr : World -> Prop)
      (Qx : string -> World -> Prop) :
  token_ok tok ->
  outcome s = inr v ->
  Forall (fun r => quiet_record r = true) (emitted s) ->
  hoare (At job_id R (Frame tok (eq h) (iv ++ [c]))) (k v) Qd Qr Qx ->
  hoare (At job_id R (Frame tok (eq h) iv)) (bind (call_step c s) k) Qd Qr Qx.
Proof.
  intros Htok Hv Hq Hk.
  eapply hoare_bind
    with (Qd := fun v' w => v' = v
                            /\ At job_id R (Frame tok (eq h) (iv ++ [c])) w).
  - eapply hoare_conseq.
    + apply (f_call_step job_id tok Htok Qr R h iv c s Hq).
    + auto.
    + intros a w [Ha HA]. split; [congruence|exact HA].
    + auto.
    + intros e w [He _]. congruence.
  - intros v' w [-> HA]. now apply Hk.
Qed.

Lemma f_step_returns_any {B} (job_id : string) (tok : World -> Prop)
      (R : Job -> Prop) (hp : Watcher.FailFastLogWatcher -> Prop)
      (iv : list Call) (c : Call) (s : StepOutcome) (v : StepReturn)
      (k : StepReturn -> M B) (Qd : B -> World -> Prop) (Qr : World -> Prop)
      (Qx : string -> World -> Prop) :
  token_ok tok ->
  outcome s = inr v ->
  hoare (At job_id R (Frame tok (fun _ => True) (iv ++ [c]))) (k v) Qd Qr Qx ->
  hoare (At job_id R (Frame tok hp iv)) (bind (call_step c s) k) Qd Qr Qx.
Proof.
  intros Htok Hv Hk.
  eapply hoare_bind
    with (Qd := fun v' w =>
                  v' = v
                  /\ At job_id R (Frame tok (fun _ => True) (iv ++ [c])) w).
  - eapply hoare_conseq.
    + apply (f_call_step_any job_id tok Htok Qr R hp iv c s).
    + auto.
    + intros a w [Ha HA]. split; [congruence|exact HA].
    + auto.
    + intros e w [He _]. congruence.
  - intros v' w [-> HA]. now apply Hk.
Qed.

Lemma f_step_raises {B} (job_id : string) (tok : World -> Prop)
      (R : Job -> Prop) (h : Watcher.FailFastLogWatcher) (iv : list Call)
      (c : Call) (s : StepOutcome) (exc : string) (k : StepReturn -> M B)
      (Qd : B -> World -> Prop) (Qr : World -> Prop) :
  token_ok tok ->
  outcome s = inl exc ->
  Forall (fun r => quiet_record r = true) (emitted s) ->
  hoare (At job_id R (Frame tok (eq h) iv)) (bind (call_step c s) k) Qd Qr
        (fun e w => e = exc
                    /\ At job_id R (Frame tok (eq h) (iv ++ [c])) w).
Proof.
  intros Htok Hv Hq.
  eapply hoare_bind with (Qd := fun _ _ => False); [|intros ? w []].
  eapply hoare_conseq.
  - apply (f_call_step job_id tok Htok Qr R h iv c s Hq).
  - auto.
  - intros a w [Ha _]. congruence.
  - auto.
  - intros e w [He HA]. split; [congruence|exact HA].
Qed.

Lemma f_log_to (job_id : string) (tok : World -> Prop) (R : Job -> Prop)
      (h : Watcher.FailFastLogWatcher) (iv : list Call) (levelno : Z)
      (msg : string) (Qr : World -> Prop) (Qx : string -> World -> Prop) :
  token_ok tok ->
  (Watcher.INFO <=? levelno) = true ->
  hoare (At job_id R (Frame tok (eq h) iv)) (job_logger_log levelno msg)
        (fun _ => At job_id R
                    (Frame tok
                       (eq (Watcher.handle (Watcher.mkRecord levelno msg) h))
                       iv))
        Qr Qx.
Proof.
  intros Htok Hlv. apply s_log. intros w (Ht & Hw & Hv).
  unfold job_logger_log, local. cbn [snd]. rewrite Hlv.
  split; [apply (proj2 Htok w); [reflexivity..|exact Ht]|].
  split; [simpl; now rewrite Hw|exact Hv].
Qed.

Lemma f_invoke (job_id : string) (tok : World -> Prop) (R : Job -> Prop)
      (hp : Watcher.FailFastLogWatcher -> Prop) (iv : list Call) (c : Call)
      (Qr : World -> Prop) (Qx : string -> World -> Prop) :
  token_ok tok ->
  hoare (At job_id R (Frame tok hp iv))
        (local (fun w => set_invoked (invoked w ++ [c]) w))
        (fun _ => At job_id R (Frame tok hp (iv ++ [c]))) Qr Qx.
Proof.
  intros Htok. apply hoare_local. intros w [HS (Ht & Hw & Hv)]. split.
  - now apply (Stored_ext job_id R w).
  - split; [now apply (proj2 Htok w)|]. split; [exact Hw|].
    simpl. now rewrite Hv.
Qed.

Lemma f_save_final_zip_location (job_id : string) (F : World -> Prop)
      (row : Job) (zip_location : string) (env : Env) (Qr : World -> Prop)
      (Qx : string -> World -> Prop) :
  frame_ok F ->
  Py.truthy zip_location = true ->
  zip_exists env = true -> zip_still_exists env = true ->
  Py.truthy_opt (output_dir row) = true ->
  hoare (At job_id (fun r => row_is "complete" None r /\ same_origin row r) F)
        (save_final_zip_location job_id zip_location env)
        (fun _ => At job_id
                    (fun r => row_is "complete" None r /\ same_origin row r
                              /\ result_zip_path r
                                 = Some (fspath env zip_location)) F)
        Qr Qx.
Proof.
  intros HF Hzip Hex Hstill Hout.
  assert (Hst : cancel_stable
                  (fun r => row_is "complete" None r /\ same_origin row r))
    by now apply cancel_stable_ended.
  unfold save_final_zip_location.
  eapply hoare_bind
    with (Qd := fun (o : option Job) w =>
                  At job_id
                     (fun r => row_is "complete" None r /\ same_origin row r)
                     F w
                  /\ exists r, o = Some r /\ status r = "complete"
                               /\ output_dir r = output_dir row).
  { apply hoare_store_quiet; [intros w [HS _]; apply HS|].
    intros w [HS HFw]. simpl.
    apply (Stored_interfere _ _ _ Hst) in HS.
    split; [split; [exact HS|now apply HF]|].
    destruct HS as [_ (r & Hr & [Hs _] & [_ Ho])]. exists r.
    now rewrite Hr. }
  intros [r|]; [|intros w [_ (r & Hr & _)]; discriminate].
  eapply hoare_bind
    with (Qd := fun (_ : option nat) w =>
                  At job_id
                     (fun r => row_is "complete" None r /\ same_origin row r)
                     F w
                  /\ status r = "complete"
                  /\ output_dir r = output_dir row).
  { apply hoare_shared. intros w [[HS HFw] (r' & [= <-] & Hs & Ho)]. simpl.
    split; [|now split]. split; [now apply Stored_interfere|now apply HF]. }
  intros running_ev w [[HS HFw] [Hs Ho]]. rewrite Hs, Ho, Hzip, Hex, Hstill, Hout.
  simpl. rewrite andb_false_r.
  rewrite (store_no_fault _ w (proj1 HS)). unfold shared. simpl. split.
  - apply (Stored_zip job_id
             (fun r => row_is "complete" None r /\ same_origin row r)).
    + intros r0 [[E1 E2] [E3 E4]]. repeat split; auto.
    + now apply Stored_interfere.
  - assert (Hz : forall w0,
               let w1 := sql_update_zip job_id (fspath env zip_location)
                                        (clock w0) w0 in
               events w1 = events w0 /\ pending w1 = pending w0
               /\ watcher w1 = watcher w0 /\ invoked w1 = invoked w0).
    { intros w0. unfold sql_update_zip.
      destruct (jobs w0 !! job_id); repeat split. }
    destruct (Hz (interfere w)) as (H1 & H2 & H3 & H4).
    apply (proj2 HF (interfere w)); auto. now apply (proj1 HF).
Qed.

Lemma hoare_bind_ret {A B} (P : World -> Prop) (a : A) (k : A -> M B)
      (Qd : B -> World -> Prop) (Qr : World -> Prop)
      (Qx : string -> World -> Prop) :
  hoare P (k a) Qd Qr Qx -> hoare P (bind (ret a) k) Qd Qr Qx.
Proof. intros H. exact H. Qed.

Lemma hoare_bind_raise {A B} (P : World -> Prop) (exc : string)
      (k : A -> M B) (Qd : B -> World -> Prop) (Qr : World -> Prop)
      (Qx : string -> World -> Prop) :
  (forall w, P w -> Qx exc w) -> hoare P (bind (raise exc) k) Qd Qr Qx.
Proof. intros H w HP. simpl. auto. Qed.

Lemma f_fail_and_return (job_id : string) (tok : World -> Prop)
      (R R' : Job -> Prop) (hp : Watcher.FailFastLogWatcher -> Prop)
      (iv : list Call) (msg log_msg : string) (levelno : Z)
      (Qd : unit -> World -> Prop) (Qx : string -> World -> Prop) :
  token_ok tok -> cancel_stable R ->
  (forall r now_, R r -> R' (updated_row "failed" now_ (Some msg) r)) ->
  hoare (At job_id R (Frame tok hp iv))
        (update job_id "failed" (Some msg) ;;
         job_logger_log levelno log_msg ;;
         return_)
        Qd (At job_id R' (Frame tok (fun _ => True) iv)) Qx.
Proof.
  intros Htok HR Hup.
  eapply hoare_bind; [now apply f_update with (R' := R')|intros ?].
  eapply hoare_bind; [now apply f_log_any|intros ?].
  apply hoare_return. auto.
Qed.

Lemma not_cancelled_unset (ev : nat) (w : World) :
  not_cancelled ev w -> event_is_set ev w = false.
Proof. now intros [H _]. Qed.

Lemma latched_init (log_file : option string) :
  Watcher.latched (Watcher.init log_file true) = false.
Proof. reflexivity. Qed.

Ltac q_update Htok row :=
  eapply hoare_bind;
  [ apply f_update with (R' := same_origin row);
    [ exact Htok | apply cancel_stable_origin | intros ? ? H; exact H ]
  | intros ? ].

Ltac q_log Htok :=
  eapply hoare_bind;
  [ apply f_log; [ exact Htok | apply handle_quiet; vm_compute; reflexivity ]
  | intros ? ].

Ltac q_abort Htok Hread :=
  apply f_pass_checkpoint; [ exact Htok | apply latched_init | exact Hread | ].

(** The end of a run that has settled the job: the finalizer leaves the row
    and the list of external calls as they are. *)
Lemma run_ends (job_id dir : string) (ev : nat) (env : Env)
      (tok : World -> Prop) (R : Job -> Prop) (iv : list Call) (w : World)
      (row : Job) :
  token_ok tok -> cancel_stable R ->
  setup_exc env = None -> db_faults w = [] ->
  jobs w !! job_id = Some row -> tok w -> invoked w = iv ->
  forall iv',
  hoare (At job_id (same_origin row)
            (Frame tok (eq (Watcher.init (latest_log env) true)) iv))
        (try_except
           (run_body job_id dir ev env)
           (fun exc =>
              update job_id "failed" (Some exc) ;;
              exception "Unhandled error in job"))
        (fun _ => At job_id R (Frame tok (fun _ => True) iv'))
        (At job_id R (Frame tok (fun _ => True) iv'))
        (fun _ _ => False) ->
  fst (run_survey_mapper job_id dir ev env w) = Done tt
  /\ RUNNING_JOBS (snd (run_survey_mapper job_id dir ev env w)) !! job_id
     = None
  /\ invoked (snd (run_survey_mapper job_id dir ev env w)) = iv'
  /\ exists row', jobs (snd (run_survey_mapper job_id dir ev env w)) !! job_id
                  = Some row' /\ R row'.
Proof.
  intros Htok HR Hsetup Hdb Hrow Ht Hiv iv' Htry.
  destruct (hoare_run job_id dir ev env _ _
              (fun w => Stored job_id R w
                        /\ RUNNING_JOBS w !! job_id = None
                        /\ exists w0, Frame tok (fun _ => True) iv' w0
                                      /\ events w = events w0
                                      /\ invoked w = invoked w0)
              w Hsetup Htry) as [Hdone (HS & Hpop & (w0 & HF0 & _ & Hinv))].
  - apply (s_finalizer job_id _ (frame_ok_Frame tok _ iv' Htok)). exact HR.
  - split.
    + split; [exact Hdb|]. exists row. split; [exact Hrow|]. now split.
    + split; [apply (proj2 Htok w); auto|]. split; [reflexivity|exact Hiv].
  - split; [exact Hdone|]. split; [exact Hpop|].
    split; [rewrite Hinv; apply HF0|]. apply HS.
Qed.

(** X12: a job whose token is set when its run starts, and whose log file
    shows no error at the first checkpoint, is canceled: the run ends
    without an exception, the row has status canceled and the error text
    "Canceled before start" and keeps created_at and output_dir, the token
    is out of the registry, and no step of the engine and no zipping was
    called, whatever the other threads do meanwhile. *)
Theorem cancelled_before_start :
  forall (job_id dir : string) (cancel_event : nat) (env : Env) (w : World)
         (row : Job),
    setup_exc env = None ->
    db_faults w = [] ->
    jobs w !! job_id = Some row ->
    event_is_set cancel_event w = true ->
    quiet_read (read_pre_start env) = true ->
    let r := run_survey_mapper job_id dir cancel_event env w in
    fst r = Done tt
    /\ RUNNING_JOBS (snd r) !! job_id = None
    /\ invoked (snd r) = invoked w
    /\ exists row', jobs (snd r) !! job_id = Some row'
                    /\ row_is "canceled" (Some "Canceled before start") row'
                    /\ same_origin row row'.
Proof.
  intros job_id dir ev env w row Hsetup Hdb Hrow Hset Hread r. subst r.
  pose proof (token_ok_cancelled ev) as Htok.
  apply (run_ends job_id dir ev env (cancelled ev)
           (fun r => row_is "canceled" (Some "Canceled before start") r
                     /\ same_origin row r)
           (invoked w) w row); auto.
  { now apply cancel_stable_ended. }
  eapply hoare_try_except with (Qx' := fun _ _ => False);
    [|intros exc w' []].
  unfold run_body.
  q_update Htok row. q_log Htok. q_abort Htok Hread.
  eapply hoare_bind with (Qd := fun _ _ => False); [|intros ? w' []].
  apply f_check_cancels; [exact Htok|apply cancel_stable_origin|auto|].
  intros r0 now_ H. split; [split; reflexivity|exact H].
Qed.

(** X13: when the log file of the run already holds text that the watcher
    detects at the first checkpoint, the job is failed before any work:
    the error text is "pre-start: Fail-fast due to error in logs: Error
    detected in log file", no step of the engine and no zipping was called,
    and the token is out of the registry, whether or not the job was
    cancelled meanwhile. *)
Theorem fail_fast_before_start :
  forall (job_id dir : string) (cancel_event : nat) (env : Env) (w : World)
         (row : Job) (log_file txt : string),
    setup_exc env = None ->
    db_faults w = [] ->
    jobs w !! job_id = Some row ->
    latest_log env = Some log_file ->
    read_pre_start env = inl txt ->
    Watcher.file_detects txt = true ->
    let r := run_survey_mapper job_id dir cancel_event env w in
    fst r = Done tt
    /\ RUNNING_JOBS (snd r) !! job_id = None
    /\ invoked (snd r) = invoked w
    /\ exists row', jobs (snd r) !! job_id = Some row'
                    /\ row_is "failed"
                              (Some ("pre-start: Fail-fast due to error in "
                                     ++ "logs: Error detected in log file"))
                              row'
                    /\ same_origin row row'.
Proof.
  intros job_id dir ev env w row log_file txt Hsetup Hdb Hrow Hlog Hread
         Hdet r.
  subst r.
  assert (Htok : token_ok (fun _ : World => True)).
  { split; intros; exact I. }
  apply (run_ends job_id dir ev env (fun _ => True)
           (fun r => row_is "failed"
                       (Some ("pre-start: Fail-fast due to error in "
                              ++ "logs: Error detected in log file")) r
                     /\ same_origin row r)
           (invoked w) w row); auto.
  { now apply cancel_stable_ended. }
  eapply hoare_try_except with (Qx' := fun _ _ => False);
    [|intros exc w' []].
  unfold run_body.
  q_update Htok row. q_log Htok.
  eapply hoare_bind.
  { apply f_abort_latched
      with (m := "Error detected in log file")
           (R' := fun r =>
                    row_is "failed"
                      (Some ("pre-start: Fail-fast due to error in "
                             ++ "logs: Error detected in log file")) r
                    /\ same_origin row r);
      [exact Htok|apply cancel_stable_origin| |reflexivity|].
    - rewrite Hread, Hlog. unfold Watcher.scan_file_once. simpl.
      now rewrite Hdet.
    - intros r0 now_ H. split; [split; reflexivity|exact H]. }
  intros b.
  apply hoare_pre
    with (P' := fun w1 => b = true
                         /\ At job_id
                              (fun r =>
                                 row_is "failed"
                                   (Some ("pre-start: Fail-fast due to error in "
                                          ++ "logs: Error detected in log file"))
                                   r
                                 /\ same_origin row r)
                              (Frame (fun _ => True) (fun _ => True)
                                     (invoked w)) w1);
    [intros w' H; exact H|].
  destruct b; [|intros w' [Hb _]; discriminate].
  eapply hoare_bind with (Qd := fun _ _ => False); [|intros ? w' []].
  apply hoare_return. now intros w' [_ H].
Qed.

Ltac q_check Htok :=
  eapply hoare_bind;
  [ apply f_check_passes;
    [ exact Htok | apply cancel_stable_origin | apply not_cancelled_unset ]
  | intros ? ].

Ltac q_none Hnone :=
  eapply hoare_bind; [ apply f_raise_if_none; exact Hnone | intros ? ].

Ltac q_same :=
  match goal with
  | |- hoare ?P _ _ _ _ => eapply hoare_bind with (Qd := fun _ => P)
  end.

(** From the start of the [try] to the call of the first step, in a run
    that nothing disturbs. *)
Ltac q_to_step1 Htok row Hread Hfetch Hbl Hcfg Hproc :=
  unfold run_body;
  q_update Htok row; q_log Htok; q_abort Htok Hread; q_check Htok;
  q_same;
  [ unfold quiet_fetch in Hfetch;
    destruct (db_fetch _) as [[?exc|]|];
    [ q_log Htok; q_update Htok row;
      apply f_log; [ exact Htok | apply handle_quiet; exact Hfetch ]
    | q_log Htok;
      apply f_log; [ exact Htok | apply handle_quiet; vm_compute; reflexivity ]
    | apply hoare_ret; auto ]
  | intros ?; q_check Htok; q_none Hbl; q_none Hcfg; q_none Hproc;
    q_check Htok; q_log Htok ].

(** X14: a run that nothing disturbs completes the job.  When nothing
    raises, both steps of the engine report success, nothing that is logged
    or read from the log file before the last checkpoint sets off the
    watcher (the record of the third step, which names the output
    directory, included), the text of the path of the archive is not empty
    and the archive is there when asked for, the row has an output
    directory, the store accepts every statement and no thread sets the
    token, then the run ends with the row complete, without error text and
    with, as result_zip_path, the text that pathlib gives for the path of
    "output_dir/results.zip"; it has called the first step, the second step
    on the data the first returned, and the zipping, in that order, and the
    token is out of the registry.  The UPDATEs of the cancellation handlers
    may interleave freely. *)
Theorem clean_run_completes :
  forall (job_id dir : string) (cancel_event : nat) (env : Env) (w : World)
         (row : Job) (d1 d2 : StepDict),
    quiet_until_step2 env ->
    outcome (step1 env) = inr (Dict d1) -> success d1 = true ->
    outcome (step2 env) = inr (Dict d2) -> success d2 = true ->
    quiet_record (step3_record env dir) = true ->
    quiet_read (read_before_zip env) = true ->
    zip_exc env = None ->
    Py.truthy (fspath env (dir ++ "/" ++ RESULTS_ZIP_FILENAME)) = true ->
    zip_exists env = true -> zip_still_exists env = true ->
    db_faults w = [] ->
    jobs w !! job_id = Some row ->
    Py.truthy_opt (output_dir row) = true ->
    not_cancelled cancel_event w ->
    let r := run_survey_mapper job_id dir cancel_event env w in
    fst r = Done tt
    /\ RUNNING_JOBS (snd r) !! job_id = None
    /\ invoked (snd r)
       = (invoked w ++ [C_process_grid_sheet;
                        C_export_feature_collections (data d1);
                        C_zip_directory])%list
    /\ exists row', jobs (snd r) !! job_id = Some row'
                    /\ row_is "complete" None row'
                    /\ same_origin row row'
                    /\ result_zip_path row' = Some (stored_zip env dir).
Proof.
  intros job_id dir ev env w row d1 d2
         [(Hsetup & Hread & Hfetch & Hbl & Hcfg & Hproc & Hq1) Hq2]
         Hs1 Hok1 Hs2 Hok2 Hq3 Hread3 Hzip Hpath Hex Hstill Hdb Hrow Hout
         Hev r.
  subst r.
  pose proof (token_ok_not_cancelled ev) as Htok.
  replace (invoked w ++ [C_process_grid_sheet;
                         C_export_feature_collections (data d1);
                         C_zip_directory])%list
    with (((invoked w ++ [C_process_grid_sheet])
           ++ [C_export_feature_collections (data d1)])
          ++ [C_zip_directory])%list
    by now rewrite <- !app_assoc.
  apply (run_ends job_id dir ev env (not_cancelled ev)
           (fun r => row_is "complete" None r /\ same_origin row r
                     /\ result_zip_path r = Some (stored_zip env dir))
           (invoked w) w row Htok); auto.
  { apply cancel_stable_terminal. now intros r0 [[-> _] _]. }
  eapply hoare_try_except with (Qx' := fun _ _ => False);
    [|intros exc w' []].
  q_to_step1 Htok row Hread Hfetch Hbl Hcfg Hproc.
  eapply f_step_returns; [exact Htok|exact Hs1|exact Hq1|].
  destruct d1 as [ok1 data1 e1]. simpl in Hok1. subst ok1.
  cbn [data].
  q_log Htok. q_check Htok. q_log Htok.
  eapply f_step_returns; [exact Htok|exact Hs2|exact Hq2|].
  destruct d2 as [ok2 data2 e2]. simpl in Hok2. subst ok2.
  cbn [success].
  q_same; [apply hoare_ret; auto|intros ?].
  q_log Htok. q_check Htok.
  eapply hoare_bind;
    [apply f_log; [exact Htok|apply handle_quiet; exact Hq3]|intros ?].
  apply f_pass_checkpoint; [exact Htok|apply latched_init|exact Hread3|].
  eapply hoare_bind.
  { eapply hoare_try_except with (Qx' := fun _ _ => False);
      [|intros exc w' []].
    q_log Htok.
    eapply hoare_bind; [now apply f_invoke|intros ?].
    q_none Hzip. now apply f_log_any. }
  intros ?.
  eapply hoare_bind; [now apply f_log_any|intros ?].
  eapply hoare_bind.
  { apply f_update
      with (R' := fun r => row_is "complete" None r /\ same_origin row r);
      [exact Htok|apply cancel_stable_origin|].
    intros r0 now_ H. split; [split; reflexivity|exact H]. }
  intros ?.
  eapply hoare_bind.
  { apply f_save_final_zip_location; auto. now apply frame_ok_Frame. }
  intros ?. apply f_log_any. exact Htok.
Qed.

Ltac q_log_any Htok :=
  eapply hoare_bind; [ apply f_log_any; exact Htok | intros ? ].

(** X15: when the second step of the engine reports failure, in a run in
    which nothing raised before the first step, the first checkpoint found
    nothing, the first step reported success and no thread set the token,
    the job is failed and its error text is the error list of the step
    joined with "; ", the string itself when [errors] is a string,
    "Export failed" when the key is missing, str() of any other object, and
    the text of the TypeError when the list cannot be joined; the zipping
    is not called.  What the two steps and the fetch of LUTAssetTypes have
    logged, error records included, is of no consequence: the watcher is
    not consulted between the first checkpoint and the write of the
    status. *)
Theorem export_failure_text :
  forall (job_id dir : string) (cancel_event : nat) (env : Env) (w : World)
         (row : Job) (d1 d2 : StepDict),
    clean_start env ->
    outcome (step1 env) = inr (Dict d1) -> success d1 = true ->
    outcome (step2 env) = inr (Dict d2) -> success d2 = false ->
    db_faults w = [] ->
    jobs w !! job_id = Some row ->
    not_cancelled cancel_event w ->
    let r := run_survey_mapper job_id dir cancel_event env w in
    fst r = Done tt
    /\ RUNNING_JOBS (snd r) !! job_id = None
    /\ invoked (snd r)
       = (invoked w ++ [C_process_grid_sheet;
                        C_export_feature_collections (data d1)])%list
    /\ exists row', jobs (snd r) !! job_id = Some row'
                    /\ row_is "failed"
                              (Some (export_error_text (errors d2))) row'
                    /\ same_origin row row'.
Proof.
  intros job_id dir ev env w row d1 d2
         (Hsetup & Hread & Hbl & Hcfg & Hproc)
         Hs1 Hok1 Hs2 Hok2 Hdb Hrow Hev r.
  subst r.
  pose proof (token_ok_not_cancelled ev) as Htok.
  replace (invoked w ++ [C_process_grid_sheet;
                         C_export_feature_collections (data d1)])%list
    with ((invoked w ++ [C_process_grid_sheet])
          ++ [C_export_feature_collections (data d1)])%list
    by now rewrite <- !app_assoc.
  apply (run_ends job_id dir ev env (not_cancelled ev)
           (fun r => row_is "failed" (Some (export_error_text (errors d2))) r
                     /\ same_origin row r)
           (invoked w) w row Htok); auto.
  { now apply cancel_stable_ended. }
  assert (Hfail : forall msg,
             forall r0 now_,
               same_origin row r0 ->
               msg = export_error_text (errors d2) ->
               row_is "failed" (Some (export_error_text (errors d2)))
                      (updated_row "failed" now_ (Some msg) r0)
               /\ same_origin row (updated_row "failed" now_ (Some msg) r0)).
  { intros msg r0 now_ H ->. split; [split; reflexivity|exact H]. }
  eapply hoare_try_except
    with (Qx' := fun exc w' =>
                   exc = export_error_text (errors d2)
                   /\ At job_id (same_origin row)
                         (Frame (not_cancelled ev) (fun _ => True)
                                ((invoked w ++ [C_process_grid_sheet])
                                 ++ [C_export_feature_collections (data d1)]))
                         w').
  2:{ intros exc w' [He HA]. revert w' HA.
      change (hoare
                (At job_id (same_origin row)
                    (Frame (not_cancelled ev) (fun _ => True)
                       ((invoked w ++ [C_process_grid_sheet])
                        ++ [C_export_feature_collections (data d1)])))
                (update job_id "failed" (Some exc) ;;
                 exception "Unhandled error in job")
                (fun _ => At job_id
                            (fun r => row_is "failed"
                                        (Some (export_error_text (errors d2)))
                                        r
                                      /\ same_origin row r)
                            (Frame (not_cancelled ev) (fun _ => True)
                               ((invoked w ++ [C_process_grid_sheet])
                                ++ [C_export_feature_collections (data d1)])))
                (At job_id
                    (fun r => row_is "failed"
                                (Some (export_error_text (errors d2))) r
                              /\ same_origin row r)
                    (Frame (not_cancelled ev) (fun _ => True)
                       ((invoked w ++ [C_process_grid_sheet])
                        ++ [C_export_feature_collections (data d1)])))
                (fun _ _ => False)).
      eapply hoare_bind.
      { apply f_update
          with (R' := fun r =>
                        row_is "failed"
                               (Some (export_error_text (errors d2))) r
                        /\ same_origin row r);
          [exact Htok|apply cancel_stable_origin|].
        intros r0 now_ H. now apply Hfail. }
      intros ?. now apply f_log_any. }
  unfold run_body.
  q_update Htok row. q_log Htok. q_abort Htok Hread. q_check Htok.
  eapply hoare_bind
    with (Qd := fun _ => At job_id (same_origin row)
                            (Frame (not_cancelled ev) (fun _ => True)
                                   (invoked w))).
  { destruct (db_fetch env) as [[exc|]|].
    - q_log_any Htok. q_update Htok row. apply f_log_any. exact Htok.
    - q_log_any Htok. apply f_log_any. exact Htok.
    - apply hoare_ret. intros w' [HS (Ht & _ & Hv)].
      split; [exact HS|]. split; [exact Ht|]. split; [exact I|exact Hv]. }
  intros ?. q_check Htok. q_none Hbl. q_none Hcfg. q_none Hproc.
  q_check Htok. q_log_any Htok.
  eapply f_step_returns_any; [exact Htok|exact Hs1|].
  destruct d1 as [ok1 data1 e1]. simpl in Hok1. subst ok1.
  cbn [data].
  q_log_any Htok. q_check Htok. q_log_any Htok.
  eapply f_step_returns_any; [exact Htok|exact Hs2|].
  destruct d2 as [ok2 data2 e2]. simpl in Hok2. subst ok2.
  cbn [success errors] in *.
  eapply hoare_bind with (Qd := fun _ _ => False); [|intros ? w' []].
  destruct e2 as [|s2|l2|exc2|s2]; unfold join_errors;
    first [ apply hoare_bind_raise; intros w' HA; split; [reflexivity|exact HA]
          | apply hoare_bind_ret;
            apply f_fail_and_return;
            [ exact Htok | apply cancel_stable_origin
            | intros r0 now_ H; now apply Hfail ] ].
Qed.

(** X16: when the first step of the engine returns something that is not a
    dict, or a dict without a true [success], in a run that nothing
    disturbed until then, the job is failed with the error text
    "after step1: Fail-fast due to error in logs: Step 1 failed", whatever
    the step returned under [errors] and whatever the log file holds at
    that checkpoint: the orchestrator's own record "Step 1 failed" has set
    off the watcher.  The second step and the zipping are not called. *)
Theorem grid_failure_text :
  forall (job_id dir : string) (cancel_event : nat) (env : Env) (w : World)
         (row : Job) (v : StepReturn),
    quiet_until_step1 env ->
    outcome (step1 env) = inr v ->
    (v = NotADict \/ exists d, v = Dict d /\ success d = false) ->
    db_faults w = [] ->
    jobs w !! job_id = Some row ->
    not_cancelled cancel_event w ->
    let r := run_survey_mapper job_id dir cancel_event env w in
    fst r = Done tt
    /\ RUNNING_JOBS (snd r) !! job_id = None
    /\ invoked (snd r) = (invoked w ++ [C_process_grid_sheet])%list
    /\ exists row', jobs (snd r) !! job_id = Some row'
                    /\ row_is "failed"
                              (Some ("after step1: Fail-fast due to error in "
                                     ++ "logs: Step 1 failed")) row'
                    /\ same_origin row row'.
Proof.
  intros job_id dir ev env w row v
         (Hsetup & Hread & Hfetch & Hbl & Hcfg & Hproc & Hq1)
         Hs1 Hv Hdb Hrow Hev r.
  subst r.
  pose proof (token_ok_not_cancelled ev) as Htok.
  apply (run_ends job_id dir ev env (not_cancelled ev)
           (fun r => row_is "failed"
                       (Some ("after step1: Fail-fast due to error in "
                              ++ "logs: Step 1 failed")) r
                     /\ same_origin row r)
           (invoked w) w row Htok); auto.
  { now apply cancel_stable_ended. }
  eapply hoare_try_except with (Qx' := fun _ _ => False);
    [|intros exc w' []].
  q_to_step1 Htok row Hread Hfetch Hbl Hcfg Hproc.
  eapply f_step_returns; [exact Htok|exact Hs1|exact Hq1|].
  assert (Hd : Watcher.detects (Watcher.mkRecord Watcher.ERROR "Step 1 failed")
               = true) by (vm_compute; reflexivity).
  assert (Hh : Watcher.handle (Watcher.mkRecord Watcher.ERROR "Step 1 failed")
                              (Watcher.init (latest_log env) true)
               = Watcher.set_error_msg (Some "Step 1 failed")
                   (Watcher.init (latest_log env) true)).
  { unfold Watcher.handle, Watcher.emit. rewrite Hd. reflexivity. }
  assert (Hgo :
    @hoare unit
      (At job_id (same_origin row)
          (Frame (not_cancelled ev) (eq (Watcher.init (latest_log env) true))
                 (invoked w ++ [C_process_grid_sheet])))
      (update job_id "failed" (Some "Grid processing failed") ;;
       error_ "Step 1 failed" ;;
       aborted <- _abort_if_error job_id "after step1: "
                                  (read_after_step1 env) ;;
       (if aborted : bool then return_ else ret tt) ;;
       return_)
      (fun _ =>
         At job_id
            (fun r => row_is "failed"
                        (Some ("after step1: Fail-fast due to error in "
                               ++ "logs: Step 1 failed")) r
                      /\ same_origin row r)
            (Frame (not_cancelled ev) (fun _ => True)
                   (invoked w ++ [C_process_grid_sheet])))
      (At job_id
          (fun r => row_is "failed"
                      (Some ("after step1: Fail-fast due to error in "
                             ++ "logs: Step 1 failed")) r
                    /\ same_origin row r)
          (Frame (not_cancelled ev) (fun _ => True)
                 (invoked w ++ [C_process_grid_sheet])))
      (fun _ _ => False)).
  { q_update Htok row.
    eapply hoare_bind; [now apply f_log_to|intros ?].
    rewrite Hh.
    eapply hoare_bind.
    { apply f_abort_latched
        with (m := "Step 1 failed")
             (R' := fun r =>
                      row_is "failed"
                        (Some ("after step1: Fail-fast due to error in "
                               ++ "logs: Step 1 failed")) r
                      /\ same_origin row r);
        [exact Htok|apply cancel_stable_origin| |reflexivity|].
      - now rewrite WatcherFacts.scan_latched.
      - intros r0 now_ H. split; [split; reflexivity|exact H]. }
    intros b.
    apply hoare_pre
      with (P' := fun w1 =>
                    b = true
                    /\ At job_id
                          (fun r =>
                             row_is "failed"
                               (Some ("after step1: Fail-fast due to error in "
                                      ++ "logs: Step 1 failed")) r
                             /\ same_origin row r)
                          (Frame (not_cancelled ev) (fun _ => True)
                                 (invoked w ++ [C_process_grid_sheet])) w1);
      [intros w' H; exact H|].
    destruct b; [|intros w' [Hb _]; discriminate].
    eapply hoare_bind with (Qd := fun _ _ => False); [|intros ? w' []].
    apply hoare_return. now intros w' [_ H]. }
  destruct Hv as [->|(d & -> & Hfalse)]; [exact Hgo|].
  destruct d as [ok dt e]. simpl in Hfalse. subst ok. exact Hgo.
Qed.

(** X17: an exception that the first step of the engine raises, in a run
    that nothing disturbed until then, fails the job with str() of the
    exception as error text; the run itself ends without an exception, the
    token is out of the registry, and nothing is called after the step. *)
Theorem engine_exception_fails_the_job :
  forall (job_id dir : string) (cancel_event : nat) (env : Env) (w : World)
         (row : Job) (exc : string),
    quiet_until_step1 env ->
    outcome (step1 env) = inl exc ->
    db_faults w = [] ->
    jobs w !! job_id = Some row ->
    not_cancelled cancel_event w ->
    let r := run_survey_mapper job_id dir cancel_event env w in
    fst r = Done tt
    /\ RUNNING_JOBS (snd r) !! job_id = None
    /\ invoked (snd r) = (invoked w ++ [C_process_grid_sheet])%list
    /\ exists row', jobs (snd r) !! job_id = Some row'
                    /\ row_is "failed" (Some exc) row'
                    /\ same_origin row row'.
Proof.
  intros job_id dir ev env w row exc
         (Hsetup & Hread & Hfetch & Hbl & Hcfg & Hproc & Hq1)
         Hs1 Hdb Hrow Hev r.
  subst r.
  pose proof (token_ok_not_cancelled ev) as Htok.
  apply (run_ends job_id dir ev env (not_cancelled ev)
           (fun r => row_is "failed" (Some exc) r /\ same_origin row r)
           (invoked w) w row Htok); auto.
  { now apply cancel_stable_ended. }
  eapply hoare_try_except
    with (Qx' := fun e w' =>
                   e = exc
                   /\ At job_id (same_origin row)
                         (Frame (not_cancelled ev)
                                (eq (Watcher.init (latest_log env) true))
                                (invoked w ++ [C_process_grid_sheet]))
                         w').
  2:{ intros e w' [-> HA]. revert w' HA.
      change (hoare
                (At job_id (same_origin row)
                    (Frame (not_cancelled ev)
                       (eq (Watcher.init (latest_log env) true))
                       (invoked w ++ [C_process_grid_sheet])))
                (update job_id "failed" (Some exc) ;;
                 exception "Unhandled error in job")
                (fun _ => At job_id
                            (fun r => row_is "failed" (Some exc) r
                                      /\ same_origin row r)
                            (Frame (not_cancelled ev) (fun _ => True)
                               (invoked w ++ [C_process_grid_sheet])))
                (At job_id
                    (fun r => row_is "failed" (Some exc) r
                              /\ same_origin row r)
                    (Frame (not_cancelled ev) (fun _ => True)
                       (invoked w ++ [C_process_grid_sheet])))
                (fun _ _ => False)).
      eapply hoare_bind.
      { apply f_update
          with (R' := fun r => row_is "failed" (Some exc) r
                               /\ same_origin row r);
          [exact Htok|apply cancel_stable_origin|].
        intros r0 now_ H. split; [split; reflexivity|exact H]. }
      intros ?. now apply f_log_any. }
  q_to_step1 Htok row Hread Hfetch Hbl Hcfg Hproc.
  now apply f_step_raises.
Qed.

(** ** The theorems at work *)

Lemma quiet_smooth_env : quiet_until_step2 smooth_env.
Proof. repeat split; constructor. Defined.

Lemma submitted_not_cancelled :
  not_cancelled (fst (submitted "job-1")) (snd (submitted "job-1")).
Proof. split; [reflexivity|constructor]. Defined.

Lemma run_settles_the_job_witness :
  let job := submitted "job-1" in
  let w := set_pending [[]; [ICancelUpdate "job-1"; ISetEvent (fst job)]]
                       (snd job) in
  fst (run_survey_mapper "job-1" "output/job-1" (fst job) smooth_env w)
  = Done tt.
Proof.
  exact (proj1 (run_settles_the_job "job-1" "output/job-1"
                  (fst (submitted "job-1")) smooth_env
                  (set_pending
                     [[]; [ICancelUpdate "job-1";
                           ISetEvent (fst (submitted "job-1"))]]
                     (snd (submitted "job-1")))
                  eq_refl eq_refl
                  (ex_intro _ (queued_row "job-1" "2025-01-01T00:00:00")
                            eq_refl))).
Defined.

Lemma cancelled_before_start_witness :
  let job := submitted "job-1" in
  let w := snd (cancel_job "job-1" (snd job)) in
  invoked (snd (run_survey_mapper "job-1" "output/job-1" (fst job)
                                  smooth_env w)) = [].
Proof.
  exact (proj1 (proj2 (proj2
           (cancelled_before_start "job-1" "output/job-1"
              (fst (submitted "job-1")) smooth_env
              (snd (cancel_job "job-1" (snd (submitted "job-1"))))
              (cancelled_row "2025-01-01T00:00:00"
                             (queued_row "job-1" "2025-01-01T00:00:00"))
              eq_refl eq_refl eq_refl eq_refl eq_refl)))).
Defined.

Lemma fail_fast_before_start_witness :
  let job := submitted "job-1" in
  let env := with_read_pre_start (inl "ERROR 000732: Input does not exist")
                                 smooth_env in
  invoked (snd (run_survey_mapper "job-1" "output/job-1" (fst job) env
                                  (snd job))) = [].
Proof.
  exact (proj1 (proj2 (proj2
           (fail_fast_before_start "job-1" "output/job-1"
              (fst (submitted "job-1"))
              (with_read_pre_start (inl "ERROR 000732: Input does not exist")
                                   smooth_env)
              (snd (submitted "job-1"))
              (queued_row "job-1" "2025-01-01T00:00:00")
              "log_20250101_000000.txt" "ERROR 000732: Input does not exist"
              eq_refl eq_refl eq_refl eq_refl eq_refl eq_refl)))).
Defined.

Lemma clean_run_completes_witness :
  let job := submitted "job-1" in
  let r := run_survey_mapper "job-1" "output/job-1" (fst job) smooth_env
                             (snd job) in
  invoked (snd r)
  = [C_process_grid_sheet;
     C_export_feature_collections (Some "output/job-1/_export_temp");
     C_zip_directory]
  /\ exists row', jobs (snd r) !! "job-1" = Some row'
                  /\ row_is "complete" None row'
                  /\ same_origin (queued_row "job-1" "2025-01-01T00:00:00")
                                 row'
                  /\ result_zip_path row' = Some "output/job-1/results.zip".
Proof.
  exact (proj2 (proj2
           (clean_run_completes "job-1" "output/job-1"
              (fst (submitted "job-1")) smooth_env (snd (submitted "job-1"))
              (queued_row "job-1" "2025-01-01T00:00:00")
              (mkStepDict true (Some "output/job-1/_export_temp") (EList []))
              (mkStepDict true (Some "output/job-1/results") (EList []))
              quiet_smooth_env eq_refl eq_refl eq_refl eq_refl eq_refl
              eq_refl eq_refl eq_refl eq_refl eq_refl eq_refl eq_refl eq_refl
              submitted_not_cancelled))).
Defined.

Lemma export_failure_text_witness :
  let job := submitted "job-1" in
  let msg := "Error during recursive export: disk full" in
  let failed := mkStepDict false None (EList ["layer A: empty"; msg]) in
  let env := with_step2
               (mkStep [Watcher.mkRecord Watcher.ERROR msg]
                       (inr (Dict failed)))
               smooth_env in
  Watcher.detects (Watcher.mkRecord Watcher.ERROR msg) = true
  /\ exists row',
       jobs (snd (run_survey_mapper "job-1" "output/job-1" (fst job) env
                                    (snd job))) !! "job-1" = Some row'
       /\ row_is "failed"
                 (Some ("layer A: empty; "
                        ++ "Error during recursive export: disk full")) row'
       /\ same_origin (queued_row "job-1" "2025-01-01T00:00:00") row'.
Proof.
  split; [reflexivity|].
  exact (proj2 (proj2 (proj2
           (export_failure_text "job-1" "output/job-1"
              (fst (submitted "job-1"))
              (with_step2
                 (mkStep [Watcher.mkRecord Watcher.ERROR
                            "Error during recursive export: disk full"]
                         (inr (Dict (mkStepDict false None
                                       (EList ["layer A: empty";
                                               "Error during recursive export: disk full"])))))
                 smooth_env)
              (snd (submitted "job-1"))
              (queued_row "job-1" "2025-01-01T00:00:00")
              (mkStepDict true (Some "output/job-1/_export_temp") (EList []))
              (mkStepDict false None
                          (EList ["layer A: empty";
                                  "Error during recursive export: disk full"]))
              (conj eq_refl (conj eq_refl (conj eq_refl
                 (conj eq_refl eq_refl))))
              eq_refl eq_refl eq_refl eq_refl
              eq_refl eq_refl submitted_not_cancelled)))).
Defined.

Lemma grid_failure_text_witness :
  let job := submitted "job-1" in
  exists row',
    jobs (snd (run_survey_mapper "job-1" "output/job-1" (fst job)
                                 (with_step1 grid_failed smooth_env)
                                 (snd job))) !! "job-1" = Some row'
    /\ row_is "failed"
              (Some "after step1: Fail-fast due to error in logs: Step 1 failed")
              row'
    /\ same_origin (queued_row "job-1" "2025-01-01T00:00:00") row'.
Proof.
  exact (proj2 (proj2 (proj2
           (grid_failure_text "job-1" "output/job-1"
              (fst (submitted "job-1")) (with_step1 grid_failed smooth_env)
              (snd (submitted "job-1"))
              (queued_row "job-1" "2025-01-01T00:00:00")
              (Dict (mkStepDict false None (EList ["grid failed"])))
              (proj1 quiet_smooth_env) eq_refl
              (or_intror
                 (ex_intro _ (mkStepDict false None (EList ["grid failed"]))
                           (conj eq_refl eq_refl)))
              eq_refl eq_refl submitted_not_cancelled)))).
Defined.

Lemma engine_exception_fails_the_job_witness :
  let job := submitted "job-1" in
  let env := with_step1 (mkStep [] (inl "ExecuteError: ERROR 000732"))
                        smooth_env in
  exists row',
    jobs (snd (run_survey_mapper "job-1" "output/job-1" (fst job) env
                                 (snd job))) !! "job-1" = Some row'
    /\ row_is "failed" (Some "ExecuteError: ERROR 000732") row'
    /\ same_origin (queued_row "job-1" "2025-01-01T00:00:00") row'.
Proof.
  exact (proj2 (proj2 (proj2
           (engine_exception_fails_the_job "job-1" "output/job-1"
              (fst (submitted "job-1"))
              (with_step1 (mkStep [] (inl "ExecuteError: ERROR 000732"))
                          smooth_env)
              (snd (submitted "job-1"))
              (queued_row "job-1" "2025-01-01T00:00:00")
              "ExecuteError: ERROR 000732"
              (proj1 quiet_smooth_env) eq_refl eq_refl eq_refl
              submitted_not_cancelled)))).
Defined.

Section Alone.
Variables (job_id : string) (w0 : World).

Lemma Others_ext (w w' : World) :
  pending w' = pending w -> events w' = events w ->
  RUNNING_JOBS w' = RUNNING_JOBS w -> jobs w' = jobs w ->
  history w' = history w ->
  Others job_id w0 w -> Others job_id w0 w'.
Proof.
  intros Hp He Hr Hj Hh (H1 & H2 & H3 & H4 & H5).
  unfold Others, job_history in *. rewrite Hp, He, Hr, Hj, Hh. auto.
Qed.

Lemma Others_update (t now_ : string) (e : option string) (w : World) :
  Others job_id w0 w -> Others job_id w0 (sql_update_status job_id t now_ e w).
Proof.
  intros (H1 & H2 & H3 & H4 & H5).
  destruct (JobsFacts.sql_update_status_frame job_id t now_ e w)
    as (Hr & He & _ & Hp & _).
  cbv zeta in Hr, He, Hp.
  split; [congruence|]. split; [congruence|]. split; [congruence|].
  split.
  - intros j Hne. rewrite JobsFacts.sql_update_status_lookup.
    destruct (decide (j = job_id)); [contradiction|]. now apply H4.
  - intros j Hne. rewrite <- (H5 j Hne). unfold sql_update_status.
    destruct (jobs w !! job_id); [|reflexivity].
    unfold job_history. simpl. rewrite List.filter_app, map_app. simpl.
    destruct (String.eqb job_id j) eqn:E;
      [apply String.eqb_eq in E; congruence|].
    simpl. apply app_nil_r.
Qed.

Lemma update_loop_others (t : string) (e : option string) (retries : Z)
      (backoff : Q) (now_ : string) :
  forall (fuel : nat) (attempt : Z) (w w' : World),
    update_loop fuel job_id t e retries backoff now_ attempt w = Some w' ->
    Others job_id w0 w -> Others job_id w0 w'.
Proof.
  induction fuel as [|fuel IH]; intros attempt w w' Hrun HO; [discriminate|].
  simpl in Hrun.
  rewrite (JobsMore.interfere_quiet w (proj1 HO)) in Hrun.
  unfold next_fault in Hrun.
  destruct (db_faults w) as [|[f|] later].
  - injection Hrun as <-. now apply Others_update.
  - assert (HO' : Others job_id w0
                    (log_attempt (attempt + 1) job_id t f
                                 (set_db_faults later w))).
    { unfold log_attempt. destruct (fault_log_raises f);
        now apply (Others_ext w). }
    destruct (retries <=? attempt + 1).
    + now injection Hrun as <-.
    + eapply IH; [exact Hrun|]. now apply (Others_ext _ _ eq_refl).
  - injection Hrun as <-. apply Others_update. now apply (Others_ext w).
Qed.

Lemma k_update (Qr : World -> Prop) (Qx : string -> World -> Prop)
      (t : string) (e : option string) :
  hoare (Others job_id w0) (update job_id t e) (fun _ => Others job_id w0)
        Qr Qx.
Proof.
  apply hoare_local. intros w HO. unfold update_status_safe.
  destruct (update_loop _ _ _ _ _ _ _ _ _) as [w'|] eqn:Hrun; simpl;
    [|exact HO].
  eapply update_loop_others; eauto.
Qed.

Lemma k_log (Qr : World -> Prop) (Qx : string -> World -> Prop)
      (levelno : Z) (msg : string) :
  hoare (Others job_id w0) (job_logger_log levelno msg)
        (fun _ => Others job_id w0) Qr Qx.
Proof.
  apply hoare_local. intros w HO.
  destruct (Watcher.INFO <=? levelno); [|exact HO].
  now apply (Others_ext w).
Qed.

Lemma k_scan (Qr : World -> Prop) (Qx : string -> World -> Prop)
      (read : string + string) :
  hoare (Others job_id w0) (scan read) (fun _ => Others job_id w0) Qr Qx.
Proof. apply hoare_local. intros w HO. now apply (Others_ext w). Qed.

Lemma k_raise_if (Qr : World -> Prop) (exc : option string) :
  hoare (Others job_id w0) (raise_if exc) (fun _ => Others job_id w0) Qr
        (fun _ => Others job_id w0).
Proof. destruct exc; [now apply hoare_raise|now apply hoare_ret]. Qed.

Lemma k_abort (Qr : World -> Prop) (Qx : string -> World -> Prop)
      (prefix : string) (read : string + string) :
  hoare (Others job_id w0) (_abort_if_error job_id prefix read)
        (fun _ => Others job_id w0) Qr Qx.
Proof.
  unfold _abort_if_error.
  eapply hoare_bind; [apply k_scan|].
  intros ? w HO.
  destruct (Watcher.error_message (watcher w)) as [m|]; [|exact HO].
  destruct (Py.truthy m); [|exact HO].
  revert w HO.
  change (hoare (Others job_id w0)
    (update job_id "failed"
            (Some (prefix ++ "Fail-fast due to error in logs: " ++ m)) ;;
     error_ (prefix ++ "Fail-fast due to error in logs: " ++ m) ;;
     ret true)
    (fun _ => Others job_id w0) Qr Qx).
  eapply hoare_bind; [apply k_update|intros ?].
  eapply hoare_bind; [apply k_log|intros ?].
  now apply hoare_ret.
Qed.

Lemma k_exit (Qx : string -> World -> Prop) (aborted : bool) :
  hoare (Others job_id w0) (if aborted then return_ else ret tt)
        (fun _ => Others job_id w0) (Others job_id w0) Qx.
Proof. destruct aborted; [now apply hoare_return|now apply hoare_ret]. Qed.

Lemma k_cancel_check (Qx : string -> World -> Prop) (ev : nat)
      (err log_msg : string) :
  hoare (Others job_id w0) (cancel_check job_id ev err log_msg)
        (fun _ => Others job_id w0) (Others job_id w0) Qx.
Proof.
  unfold cancel_check.
  eapply hoare_bind with (Qd := fun _ => Others job_id w0).
  { apply hoare_shared. intros w HO. simpl.
    now rewrite (JobsMore.interfere_quiet w (proj1 HO)). }
  intros c. destruct c; [|now apply hoare_ret].
  eapply hoare_bind; [apply k_update|intros ?].
  eapply hoare_bind; [apply k_log|intros ?].
  now apply hoare_return.
Qed.

Lemma k_call_step (Qr : World -> Prop) (c : Call) (s : StepOutcome) :
  hoare (Others job_id w0) (call_step c s) (fun _ => Others job_id w0) Qr
        (fun _ => Others job_id w0).
Proof.
  unfold call_step.
  eapply hoare_bind with (Qd := fun _ => Others job_id w0).
  { apply hoare_local. intros w HO. now apply (Others_ext w). }
  intros ?. eapply hoare_bind with (Qd := fun _ => Others job_id w0).
  { apply hoare_local. intros w HO.
    assert (Hf : forall l w1,
               let w2 := fold_left
                           (fun w r =>
                              match job_logger_log (Watcher.levelno r)
                                      (Watcher.getMessage r) w with
                              | (_, w') => w'
                              end) l w1 in
               pending w2 = pending w1 /\ events w2 = events w1
               /\ RUNNING_JOBS w2 = RUNNING_JOBS w1 /\ jobs w2 = jobs w1
               /\ history w2 = history w1).
    { induction l as [|r l IH]; intros w1; [repeat split|].
      cbn [fold_left]. cbv zeta in IH.
      destruct (IH (let (_, w') := job_logger_log (Watcher.levelno r)
                                     (Watcher.getMessage r) w1 in w'))
        as (H1 & H2 & H3 & H4 & H5).
      rewrite H1, H2, H3, H4, H5. unfold job_logger_log, local.
      destruct (Watcher.INFO <=? Watcher.levelno r); repeat split. }
    destruct (Hf (emitted s) w) as (H1 & H2 & H3 & H4 & H5).
    now apply (Others_ext w). }
  intros ?. destruct (outcome s); [now apply hoare_raise|now apply hoare_ret].
Qed.

Lemma k_fail (Qx : string -> World -> Prop) (msg log_msg : string)
      (levelno : Z) :
  @hoare unit (Others job_id w0)
        (update job_id "failed" (Some msg) ;;
         job_logger_log levelno log_msg ;;
         return_)
        (fun _ => Others job_id w0) (Others job_id w0) Qx.
Proof.
  eapply hoare_bind; [apply k_update|intros ?].
  eapply hoare_bind; [apply k_log|intros ?].
  now apply hoare_return.
Qed.

Lemma k_store {A} (Qr : World -> Prop) (f : World -> A * World) :
  (forall w, Others job_id w0 w -> Others job_id w0 (snd (f w))) ->
  hoare (Others job_id w0) (store f) (fun _ => Others job_id w0) Qr
        (fun _ => Others job_id w0).
Proof.
  intros H w HO. unfold store.
  rewrite (JobsMore.interfere_quiet w (proj1 HO)). unfold next_fault.
  destruct (db_faults w) as [|[flt|] later].
  - specialize (H w HO). now destruct (f w).
  - now apply (Others_ext w).
  - assert (HO' : Others job_id w0 (set_db_faults later w))
      by now apply (Others_ext w).
    specialize (H _ HO'). now destruct (f (set_db_faults later w)).
Qed.

Lemma k_save_final_zip_location (Qr : World -> Prop) (zip : string)
      (env : Env) :
  hoare (Others job_id w0) (save_final_zip_location job_id zip env)
        (fun _ => Others job_id w0) Qr (fun _ => Others job_id w0).
Proof.
  unfold save_final_zip_location.
  eapply hoare_bind with (Qd := fun _ => Others job_id w0).
  { apply k_store. intros w HO. exact HO. }
  intros [row|]; [|now apply hoare_raise].
  eapply hoare_bind with (Qd := fun _ => Others job_id w0).
  { apply hoare_shared. intros w HO. simpl.
    now rewrite (JobsMore.interfere_quiet w (proj1 HO)). }
  intros running_ev.
  destruct (_ && _); [now apply hoare_raise|].
  destruct (negb (_ && _)); [now apply hoare_raise|].
  destruct (negb _); [now apply hoare_raise|].
  destruct (negb _); [now apply hoare_raise|].
  apply k_store. intros w HO. simpl.
  destruct HO as (H1 & H2 & H3 & H4 & H5). unfold sql_update_zip.
  destruct (jobs w !! job_id) as [r|]; [|repeat split; auto].
  repeat split; auto. intros j Hne. simpl.
  rewrite lookup_insert_ne by congruence. now apply H4.
Qed.

Ltac k_neutral :=
  first [ apply k_update | apply k_log | apply k_abort | apply k_exit
        | apply k_cancel_check | apply k_raise_if | apply k_call_step
        | apply k_save_final_zip_location ].

Ltac k_next := eapply hoare_bind; [k_neutral|intros ?].

Lemma k_run_body (dir : string) (ev : nat) (env : Env) :
  hoare (Others job_id w0) (run_body job_id dir ev env)
        (fun _ => Others job_id w0) (Others job_id w0)
        (fun _ => Others job_id w0).
Proof.
  unfold run_body.
  k_next. k_next. k_next. k_next. k_next.
  eapply hoare_bind with (Qd := fun _ => Others job_id w0).
  { destruct (db_fetch env) as [[exc|]|].
    - k_next. k_next. k_neutral.
    - k_next. k_neutral.
    - now apply hoare_ret. }
  intros ?. k_next. k_next. k_next. k_next. k_next. k_next.
  eapply hoare_bind; [k_neutral|intros step1].
  assert (Hfailed1 :
    @hoare unit (Others job_id w0)
      (update job_id "failed" (Some "Grid processing failed") ;;
       error_ "Step 1 failed" ;;
       aborted <- _abort_if_error job_id "after step1: "
                                  (read_after_step1 env) ;;
       (if aborted : bool then return_ else ret tt) ;;
       return_)
      (fun _ => Others job_id w0) (Others job_id w0)
      (fun _ => Others job_id w0)).
  { k_next. k_next. k_next. k_next. now apply hoare_return. }
  destruct step1 as [|[[] d1 e1]]; try exact Hfailed1.
  clear Hfailed1.
  k_next. k_next. k_next.
  eapply hoare_bind; [k_neutral|intros step2].
  destruct step2 as [|step2]; [apply k_fail|].
  eapply hoare_bind with (Qd := fun _ => Others job_id w0).
  { destruct (success step2); [now apply hoare_ret|].
    eapply hoare_bind with (Qd := fun _ => Others job_id w0).
    { destruct (errors step2); simpl;
        first [now apply hoare_ret | now apply hoare_raise]. }
    intros msg. apply k_fail. }
  intros ?. k_next. k_next. k_next. k_next. k_next.
  eapply hoare_bind with (Qd := fun _ => Others job_id w0).
  { eapply hoare_try_except with (Qx' := fun _ => Others job_id w0).
    - k_next. eapply hoare_bind; [|intros ?].
      { apply hoare_local with (Qd := fun _ => Others job_id w0).
        intros w HO. now apply (Others_ext w). }
      k_next. k_neutral.
    - intros xc. apply k_fail. }
  intros ?. k_next. k_next. k_next. k_neutral.
Qed.

End Alone.

(** X18: a run that no other thread interleaves with, and whose setup
    raises nothing, touches only its own job: it ends without an exception,
    it removes from the registry the entry of its job and no other, it
    sets and clears no token, and it leaves the row and the written
    statuses of every other job as they were; this also when the store
    rejects its writes. *)
Theorem run_touches_only_its_job :
  forall (job_id dir : string) (cancel_event : nat) (env : Env) (w : World),
    setup_exc env = None ->
    pending w = [] ->
    let r := run_survey_mapper job_id dir cancel_event env w in
    fst r = Done tt
    /\ RUNNING_JOBS (snd r) = delete job_id (RUNNING_JOBS w)
    /\ events (snd r) = events w
    /\ (forall j, j <> job_id ->
                  jobs (snd r) !! j = jobs w !! j
                  /\ job_history j (snd r) = job_history j w).
Proof.
  intros job_id dir ev env w Hsetup Hp r. subst r.
  destruct (hoare_run job_id dir ev env
              (Others job_id w) (Others job_id w)
              (fun w' => RUNNING_JOBS w' = delete job_id (RUNNING_JOBS w)
                         /\ events w' = events w
                         /\ (forall j, j <> job_id ->
                                       jobs w' !! j = jobs w !! j
                                       /\ job_history j w' = job_history j w))
              w Hsetup) as [Hdone Hend]; [| | |split; [exact Hdone|exact Hend]].
  - eapply hoare_try_except; [apply k_run_body|].
    intros exc. eapply hoare_bind; [apply k_update|intros ?]. apply k_log.
  - intros w1 (H1 & H2 & H3 & H4 & H5). simpl.
    rewrite (JobsMore.interfere_quiet w1 H1).
    split; [now rewrite H3|]. split; [exact H2|].
    intros j Hne. split; [now apply H4|]. unfold job_history in *. simpl.
    now apply H5.
  - repeat split; auto.
Qed.

Lemma run_touches_only_its_job_witness :
  let job := submitted "job-1" in
  let w := busy 6 (snd job) in
  events (snd (run_survey_mapper "job-1" "output/job-1" (fst job) smooth_env
                                 w)) = events w.
Proof.
  exact (proj1 (proj2 (proj2
           (run_touches_only_its_job "job-1" "output/job-1"
              (fst (submitted "job-1")) smooth_env
              (busy 6 (snd (submitted "job-1"))) eq_refl eq_refl)))).
Defined.

Section AnyStore.
Variables (job_id : string) (F : World -> Prop).
Hypothesis HF : frame_ok F.

Lemma update_loop_frame (t : string) (e : option string) (retries : Z)
      (backoff : Q) (now_ : string) :
  forall (fuel : nat) (attempt : Z) (w w' : World),
    update_loop fuel job_id t e retries backoff now_ attempt w = Some w' ->
    F w -> F w'.
Proof.
  induction fuel as [|fuel IH]; intros attempt w w' Hrun HFw; [discriminate|].
  simpl in Hrun. apply (proj1 HF) in HFw.
  unfold next_fault in Hrun.
  assert (Hup : forall w1, F w1 -> F (sql_update_status job_id t now_ e w1)).
  { intros w1 H1.
    destruct (JobsFacts.sql_update_status_frame job_id t now_ e w1)
      as (_ & He & _ & Hp & _ & _ & Hw & _ & Hi).
    cbv zeta in He, Hp, Hw, Hi. now apply (proj2 HF w1). }
  destruct (db_faults (interfere w)) as [|[f|] later].
  - injection Hrun as <-. now apply Hup.
  - assert (HF' : F (log_attempt (attempt + 1) job_id t f
                                 (set_db_faults later (interfere w)))).
    { unfold log_attempt. destruct (fault_log_raises f);
        now apply (proj2 HF (interfere w)). }
    destruct (retries <=? attempt + 1).
    + now injection Hrun as <-.
    + eapply IH; [exact Hrun|].
      eapply (proj2 HF); [| | | |exact HF']; reflexivity.
  - injection Hrun as <-. apply Hup. now apply (proj2 HF (interfere w)).
Qed.

Lemma g_update (Qr : World -> Prop) (Qx : string -> World -> Prop)
      (t : string) (e : option string) :
  hoare F (update job_id t e) (fun _ => F) Qr Qx.
Proof.
  apply hoare_local. intros w HFw. unfold update_status_safe.
  destruct (update_loop _ _ _ _ _ _ _ _ _) as [w'|] eqn:Hrun; simpl;
    [|exact HFw].
  eapply update_loop_frame; eauto.
Qed.

End AnyStore.

(** X23: a job whose token is set when its run starts does no work.
    Whatever the store answers to the writes of the status, whatever the
    log file holds and however the other threads interleave, the run ends
    without an exception before the first step of the engine: the list of
    external calls is as it was, the token is still set, and the entry of
    the job is out of the registry. *)
Theorem cancelled_job_does_no_work :
  forall (job_id dir : string) (cancel_event : nat) (env : Env) (w : World),
    setup_exc env = None ->
    event_is_set cancel_event w = true ->
    let r := run_survey_mapper job_id dir cancel_event env w in
    fst r = Done tt
    /\ invoked (snd r) = invoked w
    /\ event_is_set cancel_event (snd r) = true
    /\ RUNNING_JOBS (snd r) !! job_id = None.
Proof.
  intros job_id dir ev env w Hsetup Hset r. subst r.
  pose proof (frame_ok_Frame (cancelled ev) (fun _ => True) (invoked w)
                (token_ok_cancelled ev)) as HF.
  set (F := Frame (cancelled ev) (fun _ => True) (invoked w)) in *.
  assert (Hlog : forall Qr Qx levelno msg,
             hoare F (job_logger_log levelno msg) (fun _ => F) Qr Qx).
  { intros Qr Qx levelno msg. apply hoare_local. intros w1 H1.
    apply (Frame_log (cancelled ev) (token_ok_cancelled ev)
                     (fun _ => True) (fun _ => True)); auto. }
  destruct (hoare_run job_id dir ev env F F
              (fun w' => invoked w' = invoked w
                         /\ event_is_set ev w' = true
                         /\ RUNNING_JOBS w' !! job_id = None)
              w Hsetup) as [Hdone Hend]; [| | |split; [exact Hdone|exact Hend]].
  - eapply hoare_try_except with (Qx' := fun _ _ => False);
      [|intros exc w' []].
    unfold run_body.
    eapply hoare_bind; [now apply g_update|intros ?].
    eapply hoare_bind; [apply Hlog|intros ?].
    eapply hoare_bind with (Qd := fun _ => F).
    { unfold _abort_if_error.
      eapply hoare_bind with (Qd := fun _ => F).
      { apply hoare_local. intros w1 (Ht & _ & Hv).
        split; [exact Ht|]. split; [exact I|exact Hv]. }
      intros ? w1 H1.
      destruct (Watcher.error_message (watcher w1)) as [m|]; [|exact H1].
      destruct (Py.truthy m); [|exact H1].
      revert w1 H1.
      change (hoare F
        (update job_id "failed"
                (Some ("pre-start: " ++ "Fail-fast due to error in logs: "
                       ++ m)) ;;
         error_ ("pre-start: " ++ "Fail-fast due to error in logs: " ++ m) ;;
         ret true)
        (fun _ => F) F (fun _ _ => False)).
      eapply hoare_bind; [now apply g_update|intros ?].
      eapply hoare_bind; [apply Hlog|intros ?].
      now apply hoare_ret. }
    intros aborted.
    eapply hoare_bind with (Qd := fun _ => F).
    { destruct aborted; [now apply hoare_return|now apply hoare_ret]. }
    intros ?.
    eapply hoare_bind with (Qd := fun _ _ => False); [|intros ? w' []].
    unfold cancel_check.
    eapply hoare_bind
      with (Qd := fun (c : bool) w1 => c = true /\ F w1).
    { apply hoare_shared. intros w1 H1. simpl.
      apply (proj1 HF) in H1. split; [apply H1|exact H1]. }
    intros c. destruct c; [|intros w1 [Hc _]; discriminate].
    eapply hoare_bind with (Qd := fun _ => F).
    { eapply hoare_pre; [intros w1 [_ H1]; exact H1|]. now apply g_update. }
    intros ?. eapply hoare_bind; [apply Hlog|intros ?].
    now apply hoare_return.
  - intros w1 H1. simpl. apply (proj1 HF) in H1.
    destruct H1 as (Ht & _ & Hv).
    split; [exact Hv|]. split; [exact Ht|]. apply lookup_delete_eq.
  - split; [exact Hset|]. split; [exact I|reflexivity].
Qed.

Lemma cancelled_job_does_no_work_witness :
  let job := submitted "job-1" in
  let w := busy 6 (snd (cancel_job "job-1" (snd job))) in
  invoked (snd (run_survey_mapper "job-1" "output/job-1" (fst job)
                                  smooth_env w)) = [].
Proof.
  exact (proj1 (proj2
           (cancelled_job_does_no_work "job-1" "output/job-1"
              (fst (submitted "job-1")) smooth_env
              (busy 6 (snd (cancel_job "job-1" (snd (submitted "job-1")))))
              eq_refl eq_refl))).
Defined.

End OrchestratorMore.

(* ===================================================================== *)
(** * Properties of get_job_status and get_all_jobs *)
(* ===================================================================== *)

Module StatusMore.
Import Jobs Status.

Lemma if_output_dir_collectable (disk : Disk) (now : string)
      (level : Classifier.LogLevelFilter) (dir : option string) (c : Carried) :
  collectable disk dir ->
  exists d logs_dir,
    dir = Some d /\ disk d = inr logs_dir
    /\ if_output_dir disk now level dir c
       = {| logs_summary_filtered :=
              Some (Classifier.filter_logs_by_level
                      (Classifier.collect_logs_grouped_all
                         logs_dir Classifier.default_max_files now) level);
            results_download_filepath := Some (download_path d) |}.
Proof.
  intros (d & ld & -> & Ht & Hd). exists d, ld.
  split; [reflexivity|]. split; [exact Hd|].
  unfold if_output_dir, collect_for. now rewrite Ht, Hd.
Qed.


Lemma insert_desc_perm (x : string * Job) (l : list (string * Job)) :
  Permutation (insert_desc x l) (x :: l).
Proof.
  induction l as [|y l IH]; simpl; [reflexivity|].
  destruct (String.ltb _ _); [reflexivity|].
  rewrite IH. apply perm_swap.
Qed.

Lemma sql_select_all_perm (w : World) :
  Permutation (sql_select_all w) (map_to_list (jobs w)).
Proof.
  unfold sql_select_all. induction (map_to_list (jobs w)) as [|x l IH];
    [reflexivity|].
  simpl. rewrite insert_desc_perm. now constructor.
Qed.

Lemma ltb_antisym (a b : string) :
  String.ltb a b = true -> String.ltb b a = false.
Proof.
  unfold String.ltb. rewrite (String.compare_antisym a b).
  now destruct (String.compare b a).
Qed.

Lemma newest_first_cons (a : string) (l : list string) :
  newest_first (a :: l)
  = match l with
    | [] => true
    | b :: _ => negb (String.ltb a b) && newest_first l
    end.
Proof. now destruct l. Qed.

Lemma insert_desc_sorted (x : string * Job) (l : list (string * Job)) :
  newest_first (List.map (fun p => created_at (snd p)) l) = true ->
  newest_first (List.map (fun p => created_at (snd p)) (insert_desc x l))
  = true.
Proof.
  induction l as [|y l IH]; intros Hs; [reflexivity|].
  simpl insert_desc.
  destruct (String.ltb (created_at (snd y)) (created_at (snd x))) eqn:Hyx.
  - change (negb (String.ltb (created_at (snd x)) (created_at (snd y)))
            && newest_first
                 (List.map (fun p => created_at (snd p)) (y :: l)) = true).
    now rewrite (ltb_antisym _ _ Hyx), Hs.
  - assert (Htail : newest_first (List.map (fun p => created_at (snd p)) l)
                    = true).
    { destruct l; [reflexivity|].
      change (negb (String.ltb (created_at (snd y)) (created_at (snd p)))
              && newest_first
                   (List.map (fun p => created_at (snd p)) (p :: l)) = true)
        in Hs.
      now apply andb_true_iff in Hs as [_ Hs]. }
    specialize (IH Htail).
    destruct l as [|z l].
    + simpl. now rewrite Hyx.
    + change (negb (String.ltb (created_at (snd y)) (created_at (snd z)))
              && newest_first
                   (List.map (fun p => created_at (snd p)) (z :: l)) = true)
        in Hs.
      apply andb_true_iff in Hs as [Hyz _].
      simpl insert_desc in *.
      destruct (String.ltb (created_at (snd z)) (created_at (snd x))).
      * change (negb (String.ltb (created_at (snd y)) (created_at (snd x)))
                && newest_first
                     (List.map (fun p => created_at (snd p)) (x :: z :: l))
                = true).
        now rewrite Hyx, IH.
      * change (negb (String.ltb (created_at (snd y)) (created_at (snd z)))
                && newest_first
                     (List.map (fun p => created_at (snd p))
                               (z :: insert_desc x l))
                = true).
        now rewrite Hyz, IH.
Qed.

Lemma sql_select_all_sorted (w : World) :
  newest_first (List.map (fun p => created_at (snd p)) (sql_select_all w))
  = true.
Proof.
  unfold sql_select_all. induction (map_to_list (jobs w)) as [|x l IH];
    [reflexivity|].
  simpl. now apply insert_desc_sorted.
Qed.

(** The loop, where every row can be collected: nothing is carried from
    one row to the next. *)
Lemma loop_collectable (disk : Disk) (now : string)
      (level : Classifier.LogLevelFilter) (w : World)
      (rows : list (string * Job)) :
  (forall j row, In (j, row) rows ->
                 jobs w !! j = Some row /\ collectable disk (output_dir row)) ->
  forall c,
    Forall2 (fun p it => js_job_id it = fst p
                         /\ js_created_at it = created_at (snd p)
                         /\ answer disk now level w (fst p) = Some it)
            rows (get_all_jobs_loop disk now level rows c).
Proof.
  induction rows as [|[j row] rows IH]; intros Hrows c; [constructor|].
  destruct (Hrows j row (or_introl eq_refl)) as [Hj Hc].
  destruct (if_output_dir_collectable disk now level _ c Hc)
    as (d & ld & Ho & Hd & Hif).
  destruct (if_output_dir_collectable disk now level _ nothing_carried Hc)
    as (d' & ld' & Ho' & Hd' & Hif').
  simpl get_all_jobs_loop. constructor.
  - split; [reflexivity|]. split; [reflexivity|].
    cbn [fst snd]. unfold answer, get_job_status. rewrite Hj, Hif, Hif'.
    simpl.
    rewrite Ho in Ho'. injection Ho' as <-. rewrite Hd in Hd'.
    injection Hd' as <-. rewrite andb_true_r. reflexivity.
  - apply IH. intros j' row' Hin. apply Hrows. now right.
Qed.






End StatusMore.

(* ===================================================================== *)
(** * Further properties of the watcher *)
(* ===================================================================== *)

Module WatcherMore.
Import Watcher.

Lemma step_settings (h : FailFastLogWatcher) (e : Event) :
  log_file (step h e) = log_file h /\ poll_file (step h e) = poll_file h.
Proof.
  destruct e as [r|read]; simpl.
  - unfold emit. now destruct (detects r).
  - unfold scan_file_once.
    destruct (negb (poll_file h) || negb (bool_decide (is_Some (log_file h))));
      [now split|].
    destruct read as [txt|exc]; [|now split].
    now destruct (file_detects txt).
Qed.

Lemma triggers_step (h : FailFastLogWatcher) (e e' : Event) :
  triggers (step h e) e' = triggers h e'.
Proof.
  destruct (step_settings h e) as [Hl Hp].
  destruct e' as [r|[txt|exc]]; simpl; [reflexivity| |reflexivity].
  now rewrite Hl, Hp.
Qed.

Lemma step_silent (h : FailFastLogWatcher) (e : Event) :
  triggers h e = false -> step h e = h.
Proof.
  destruct e as [r|[txt|exc]]; simpl; intros H.
  - unfold emit. now rewrite H.
  - unfold scan_file_once.
    destruct (poll_file h); simpl in *; [|reflexivity].
    destruct (bool_decide (is_Some (log_file h))); simpl in *; [|reflexivity].
    now rewrite H.
  - unfold scan_file_once.
    now destruct (negb (poll_file h) || negb (bool_decide (is_Some (log_file h)))).
Qed.

Lemma step_message (h : FailFastLogWatcher) (e : Event) (m : string) :
  error_message (step h e) = Some m ->
  error_message h = Some m
  \/ (triggers h e = true
      /\ match e with
         | Emit record => getMessage record = m
         | Scan _ => m = "Error detected in log file"
         end).
Proof.
  destruct (triggers h e) eqn:Ht; [|rewrite (step_silent h e Ht); now left].
  destruct e as [r|[txt|exc]]; simpl in *; try discriminate.
  - unfold emit. rewrite Ht. unfold error_message, Py.or_else. simpl.
    destruct (Py.truthy_opt (_error_msg h)); [now left|].
    intros [= <-]. now right.
  - unfold scan_file_once.
    apply andb_true_iff in Ht as [Ht Hd].
    apply andb_true_iff in Ht as [Hp Hl]. rewrite Hp, Hl, Hd. simpl.
    unfold error_message, Py.or_else. simpl.
    destruct (Py.truthy_opt (_error_msg h)); [now left|].
    intros [= <-]. now right.
Qed.

(** X22: a watcher changes only by detecting.  Its log file and its polling
    flag never change; events of which none is detected (records that are
    below ERROR and match neither pattern, file texts that match neither
    pattern, failed reads, any scan when polling is off) leave it exactly
    as it was; a message it holds after a sequence of events is the one it
    held before, the message of a detected record of the sequence, or the
    fixed text "Error detected in log file" of a detecting scan; and a
    watcher built without a log file is never changed by a scan. *)
Theorem watcher_changes_only_on_detection :
  forall (h : FailFastLogWatcher) (l : list Event),
    log_file (steps h l) = log_file h
    /\ poll_file (steps h l) = poll_file h
    /\ (Forall (fun e => triggers h e = false) l -> steps h l = h)
    /\ (forall m, error_message (steps h l) = Some m ->
                  error_message h = Some m
                  \/ exists e, In e l /\ triggers h e = true
                               /\ match e with
                                  | Emit record => getMessage record = m
                                  | Scan _ => m = "Error detected in log file"
                                  end)
    /\ (log_file h = None -> forall read,
          scan_file_once read (steps h l) = steps h l).
Proof.
  intros h l. revert h. unfold steps.
  induction l as [|e l IH]; intros h.
  - simpl. repeat split; auto.
    intros Hn read. unfold scan_file_once. rewrite Hn. simpl.
    now rewrite orb_true_r.
  - destruct (IH (step h e)) as (H1 & H2 & H3 & H4 & H5).
    destruct (step_settings h e) as [Hl Hp].
    cbn [fold_left].
    split; [congruence|]. split; [congruence|].
    split.
    { intros Hall. apply Forall_cons in Hall as [He Hall].
      rewrite (step_silent h e He) in *. apply H3.
      exact Hall. }
    split.
    { intros m Hm. destruct (H4 m Hm) as [Hs|(e' & Hin & Ht & Hmsg)].
      - destruct (step_message h e m Hs) as [H|[Ht Hmsg]]; [now left|].
        right. exists e. split; [now left|]. now split.
      - right. exists e'. split; [now right|].
        rewrite triggers_step in Ht. now split. }
    intros Hn read. apply H5. congruence.
Qed.

Lemma watcher_changes_only_on_detection_witness :
  let h := init (Some "log_1.txt") true in
  let l := [Emit (mkRecord WARNING "Skipping empty layer");
            Scan (inl "2025-01-01 10:00:00,000 | INFO | job | Job started");
            Scan (inr "[Errno 13] Permission denied")] in
  steps h l = h.
Proof.
  apply (proj1 (proj2 (proj2 (watcher_changes_only_on_detection
                                (init (Some "log_1.txt") true)
                                [Emit (mkRecord WARNING "Skipping empty layer");
                                 Scan (inl "2025-01-01 10:00:00,000 | INFO | job | Job started");
                                 Scan (inr "[Errno 13] Permission denied")])))).
  repeat constructor.
Defined.

End WatcherMore.
